(** * Battery storage sizing: the linear programme built by [ScenarioManager]

    A shallow embedding of [src/battery/models.py] and of the two result
    readers of [src/battery/results_analysis.py], with the properties of the
    design document proved (or refuted) on it.

    Modelling conventions.
    - The cells of a pandas table, and the capacities they are multiplied
      by, are binary64 numbers: the primitive [float], with the IEEE 754
      operations, infinities and NaN.
    - A number inside a [pulp] expression is a [num]: an exact rational, or
      [NaN] for a float that is not finite.  The rounding of pulp's own
      arithmetic is not represented; arithmetic with [NaN] yields [NaN] and
      no comparison with [NaN] holds.
    - A [pd.Series] carries pandas' default integer index [0 .. n-1] and is
      the list of its values; a [pd.DataFrame] is its index length and the
      ordered list of its named columns.
    - A Python exception is a value of [PyExc]; a function that may raise
      returns a [Result].  Methods of [ScenarioManager] mutate [self], so they
      are state transformers that keep the (possibly half-updated) object
      when they raise.
    - The parts of [pulp] that the manager calls ([LpVariable],
      [LpAffineExpression], [LpConstraint], [LpProblem]) are modelled as far
      as they are used; the solver behind [LpProblem.solve] is an external
      collaborator whose outcome is an input of [solve]. *)

From Stdlib Require Import QArith Lqa Ascii String Floats.
From stdpp Require Import gmap strings list pretty.

Open Scope string_scope.
Open Scope list_scope.

(** ** Python values *)

Inductive PyExc :=
  | AssertionError
  | KeyError (key : string)
  | ValueError (msg : string)
  | AttributeError (attr : string)
  | PulpError (msg : string)
  | Exception (msg : string).

Inductive Result (A : Type) :=
  | Ok (a : A)
  | Raise (e : PyExc).
Arguments Ok {A} a.
Arguments Raise {A} e.

Definition is_ok {A} (r : Result A) : bool :=
  match r with Ok _ => true | Raise _ => false end.

Definition rbind {A B} (r : Result A) (k : A → Result B) : Result B :=
  match r with
  | Ok a => k a
  | Raise e => Raise e
  end.

Declare Scope result_scope.
Delimit Scope result_scope with result.
Notation "x <- e ;; k" := (rbind e (fun x => k))
  (at level 100, e at next level, k at level 200, right associativity) : result_scope.
Notation "e ;;; k" := (rbind e (fun _ => k))
  (at level 100, k at level 200, right associativity) : result_scope.

(** [assert cond] *)
Definition assert_ (cond : bool) : Result unit :=
  if cond then Ok tt else Raise AssertionError.

(** [for x in xs: acc = body(acc, x)], stopping at the first exception. *)
Fixpoint for_each {A S} (body : S → A → Result S) (xs : list A) (acc : S) : Result S :=
  match xs with
  | [] => Ok acc
  | x :: xs' => rbind (body acc x) (for_each body xs')
  end.

(** ** Numbers *)

Inductive num :=
  | NaN
  | Fin (q : Q).

Definition num_add (a b : num) : num :=
  match a, b with Fin x, Fin y => Fin (x + y) | _, _ => NaN end.
Definition num_sub (a b : num) : num :=
  match a, b with Fin x, Fin y => Fin (x - y) | _, _ => NaN end.
Definition num_mul (a b : num) : num :=
  match a, b with Fin x, Fin y => Fin (x * y) | _, _ => NaN end.
Definition num_neg (a : num) : num :=
  match a with Fin x => Fin (- x) | NaN => NaN end.

(** [a != 0], which is also the truth value [bool(a)] of a float. *)
Definition num_nonzero (a : num) : bool :=
  match a with Fin x => negb (Qeq_bool x 0) | NaN => true end.

(** The same number, up to the representation of the rational. *)
Definition num_same (a b : num) : Prop :=
  match a, b with
  | NaN, NaN => True
  | Fin x, Fin y => x == y
  | _, _ => False
  end.

(** The comparisons [a == b], [a <= b] and [a >= b] as propositions; none
    holds when a side is [NaN]. *)
Definition num_eq (a b : num) : Prop :=
  match a, b with Fin x, Fin y => (x == y)%Q | _, _ => False end.
Definition num_le (a b : num) : Prop :=
  match a, b with Fin x, Fin y => (x <= y)%Q | _, _ => False end.
Definition num_ge (a b : num) : Prop := num_le b a.

(** ** Floats *)

(** The float of a count. *)
Definition float_of_nat (n : nat) : float :=
  SF2Prim (binary_normalize prec emax (Z.of_nat n) 0 false).

(** The value of a finite float [(-1)^s * m * 2^e]. *)
Definition finite_value (s : bool) (m : positive) (e : Z) : Q :=
  let z := if s then Z.neg m else Z.pos m in
  Qred (if (0 <=? e)%Z then inject_Z (z * 2 ^ e) else z # Z.to_pos (2 ^ (- e))).

(** The number a float is inside a [pulp] expression: its value, when it is
    finite. *)
Definition num_of_float (x : float) : num :=
  match Prim2SF x with
  | S754_zero _ => Fin 0
  | S754_finite s m e => Fin (finite_value s m e)
  | S754_infinity _ | S754_nan => NaN
  end.

(** [pd.isna(x)] *)
Definition isna (x : float) : bool := PrimFloat.is_nan x.

(** [ndarray.sum()] of numpy on a one-dimensional array: fewer than 8 values
    are added from left to right; up to 128 values go to 8 accumulators, one
    for each position modulo 8, which are added in pairs, and the values left
    over are added one by one; a longer array is halved (on a multiple of 8)
    and the sums of the halves are added. *)
Definition lane (a : list float) (j : nat) : float :=
  foldl PrimFloat.add (default (-0)%float (a !! j))
        ((λ k, default (-0)%float (a !! (8 * S k + j)%nat)) <$> seq 0 (length a / 8 - 1)).

Definition block_sum (a : list float) : float :=
  let head := take (length a - length a mod 8) a in
  let r := lane head in
  foldl PrimFloat.add
        (((r 0%nat + r 1%nat) + (r 2%nat + r 3%nat))
         + ((r 4%nat + r 5%nat) + (r 6%nat + r 7%nat)))%float
        (drop (length a - length a mod 8) a).

Fixpoint pairwise_sum (depth : nat) (a : list float) : float :=
  if (length a <? 8)%nat then foldl PrimFloat.add (-0)%float a
  else if (length a <=? 128)%nat then block_sum a
  else match depth with
       | O => block_sum a
       | S depth' =>
           let n2 := (length a / 2 - (length a / 2) mod 8)%nat in
           (pairwise_sum depth' (take n2 a) + pairwise_sum depth' (drop n2 a))%float
       end.

Definition np_sum (a : list float) : float := pairwise_sum (length a) a.

(** ** pandas: Series and DataFrame *)

Abbreviation Series := (list float).

(** [s[t]] for an integer label [t] on the default index. *)
Definition series_getitem (s : Series) (t : Z) : Result float :=
  if (t <? 0)%Z then Raise (KeyError (pretty t))
  else match s !! Z.to_nat t with
       | Some v => Ok v
       | None => Raise (KeyError (pretty t))
       end.

(** [s * c] and [c * s] *)
Definition series_mul (s : Series) (c : float) : Series := map (λ x, (x * c)%float) s.
Definition series_rmul (c : float) (s : Series) : Series := map (λ x, (c * x)%float) s.

(** [s.isna().sum()] *)
Definition series_isna_sum (s : Series) : nat := length (filter (λ x, isna x = true) s).

(** What [mean()] and [sum()] add for a cell: a missing value counts as 0. *)
Definition fillna0 (x : float) : float := if isna x then 0%float else x.

(** [s.count()]: the number of values that are present. *)
Definition series_count (s : Series) : nat := length (filter (λ x, isna x = false) s).

(** [s.mean()]: the sum of the cells, missing values filled with 0, divided
    by the number of values present; NaN when there is none. *)
Definition series_mean (s : Series) : float :=
  if (series_count s =? 0)%nat then nan
  else (np_sum (fillna0 <$> s) / float_of_nat (series_count s))%float.

Record DataFrame := mkDataFrame {
  df_len : nat;
  df_columns : list (string * Series)
}.

(** [pd.DataFrame()] *)
Definition DataFrame_empty : DataFrame := mkDataFrame 0 [].

(** [df[name]] *)
Fixpoint assoc_get {V} (l : list (string * V)) (k : string) : option V :=
  match l with
  | [] => None
  | (k', v) :: l' => if String.eqb k' k then Some v else assoc_get l' k
  end.

Definition df_getitem (df : DataFrame) (name : string) : Result Series :=
  match assoc_get (df_columns df) name with
  | Some s => Ok s
  | None => Raise (KeyError name)
  end.

(** Re-indexing a series on the index [0 .. n-1]: cut, or filled up with [NaN]. *)
Definition reindex (n : nat) (s : Series) : Series :=
  take n s ++ replicate (n - length s) nan.

Fixpoint assoc_set {V} (l : list (string * V)) (k : string) (v : V) : list (string * V) :=
  match l with
  | [] => [(k, v)]
  | (k', v') :: l' => if String.eqb k' k then (k', v) :: l' else (k', v') :: assoc_set l' k v
  end.

(** [df[name] = s]: a frame whose index is still empty takes the index of
    [s]; the new column is aligned on the index of the frame. *)
Definition df_setitem (df : DataFrame) (name : string) (s : Series) : DataFrame :=
  let n := if (df_len df =? 0)%nat then length s else df_len df in
  mkDataFrame n
    (assoc_set (map (λ c, (c.1, reindex n c.2)) (df_columns df)) name (reindex n s)).

(** Row [i] of [df.sum(axis=1)]: the cells of the row, missing values filled
    with 0, added from left to right. *)
Definition row_sum (cols : list (string * Series)) (i : nat) : float :=
  foldl (λ acc c, (acc + fillna0 (default nan (c.2 !! i)))%float) (-0)%float cols.

Definition df_sum_axis1 (df : DataFrame) : Series :=
  map (row_sum (df_columns df)) (seq 0 (df_len df)).

(** [df.isna().sum().sum()] *)
Definition df_isna_sum_sum (df : DataFrame) : nat :=
  foldr (λ c acc, (series_isna_sum c.2 + acc)%nat) 0%nat (df_columns df).

(** Every column has one value per index entry (what a DataFrame is). *)
Definition df_rect (df : DataFrame) : bool :=
  forallb (λ c, (length c.2 =? df_len df)%nat) (df_columns df).

(** [d[k]] on a dictionary with integer keys. *)
Definition dict_getitem {V} (d : gmap Z V) (k : Z) : Result V :=
  match d !! k with
  | Some v => Ok v
  | None => Raise (KeyError (pretty k))
  end.

(** ** Renewables *)

Module Renewables.

Open Scope result_scope.

Definition calculate_generation
    (names : list string) (capacities : list (string * float))
    (profiles : DataFrame) : Result DataFrame :=
  assert_ (bool_decide (list_to_set names =@{gset string} list_to_set capacities.*1)) ;;;
  assert_ (negb (bool_decide ("Total" ∈ names))) ;;;
  generation <-
    for_each (λ generation '(name, capacity),
                col <- df_getitem profiles name ;;
                Ok (df_setitem generation name (series_mul col capacity)))
             capacities DataFrame_empty ;;
  Ok (df_setitem generation "Total" (df_sum_axis1 generation)).

Record t := mk {
  names : list string;
  capacities : list (string * float);
  profiles : DataFrame;
  generation : DataFrame
}.

(** [Renewables(names, capacities, profiles)] *)
Definition init (names : list string) (capacities : list (string * float))
    (profiles : DataFrame) : Result t :=
  generation <- calculate_generation names capacities profiles ;;
  Ok (mk names capacities profiles generation).

End Renewables.

(** ** Load *)

Module Load.

Record t := mk {
  capacity : float;
  profile : Series;
  load : Series
}.

(** [Load(capacity, profile)] *)
Definition init (capacity : float) (profile : Series) : t :=
  mk capacity profile (series_rmul capacity profile).

End Load.

(** ** Storage and scenario inputs *)

Module Storage.

Record t := mk {
  efficiency : num;
  minimum_duration : num;
  capex_power : num;
  capex_capacity : num
}.

End Storage.

Module ScenarioInputs.

(** [start_date] is counted in hours from a fixed origin. *)
Record t := mk {
  name : string;
  start_date : Z;
  time_index : list Z;
  renewables : Renewables.t;
  load : Load.t;
  storage : Storage.t
}.

End ScenarioInputs.

(** ** pulp, as far as the scenario manager uses it *)

(** Names of variables and constraints: pulp replaces each of the characters
    [-+[] ->/] by an underscore. *)
Definition illegal_char (c : ascii) : bool :=
  bool_decide (c ∈ ["-"; "+"; "["; "]"; " "; ">"; "/"]%char).

Fixpoint translate (s : string) : string :=
  match s with
  | EmptyString => EmptyString
  | String c s' => String (if illegal_char c then "_"%char else c) (translate s')
  end.

Module LpVariable.

Record t := mk {
  name : string;
  lowBound : option num;
  upBound : option num
}.

(** [LpVariable(name=..., lowBound=...)] *)
Definition new (name : string) (lowBound : option num) : t :=
  mk (translate name) lowBound None.

(** Variables are compared by identity; here every variable has its own name. *)
Definition same (v w : t) : bool := String.eqb (name v) (name w).

(** [LpVariable.dicts(name, indices, lowBound=...)] *)
Definition dicts (name : string) (indices : list Z) (lowBound : option num) : gmap Z t :=
  foldl (λ d i, <[i := new (name +:+ "_" +:+ pretty i) lowBound]> d) ∅ indices.

End LpVariable.

Module LpAffineExpression.

(** An ordered dictionary from variables to coefficients, and a constant. *)
Record t := mk {
  terms : list (LpVariable.t * num);
  constant : num
}.

(** What the right operand of an operator may be. *)
Inductive operand :=
  | Var (v : LpVariable.t)
  | Expr (e : t)
  | Num (n : num).

(** [LpAffineExpression()] and [LpAffineExpression(v)] *)
Definition emptyCopy : t := mk [] (Fin 0).
Definition of_var (v : LpVariable.t) : t := mk [(v, Fin 1)] (Fin 0).

Fixpoint get (l : list (LpVariable.t * num)) (key : LpVariable.t) : option num :=
  match l with
  | [] => None
  | (k, x) :: l' => if LpVariable.same k key then Some x else get l' key
  end.

Fixpoint set (l : list (LpVariable.t * num)) (key : LpVariable.t) (x : num)
    : list (LpVariable.t * num) :=
  match l with
  | [] => [(key, x)]
  | (k, y) :: l' => if LpVariable.same k key then (k, x) :: l' else (k, y) :: set l' key x
  end.

Definition addterm (e : t) (key : LpVariable.t) (value : num) : t :=
  let y := default (Fin 0) (get (terms e) key) in
  if num_nonzero y
  then mk (set (terms e) key (num_add y value)) (constant e)
  else mk (set (terms e) key value) (constant e).

Definition addInPlace (e : t) (other : operand) : t :=
  match other with
  | Var v => addterm e v (Fin 1)
  | Expr o =>
      foldl (λ acc vx, addterm acc vx.1 vx.2)
            (mk (terms e) (num_add (constant e) (constant o))) (terms o)
  | Num n => mk (terms e) (num_add (constant e) n)
  end.

Definition subInPlace (e : t) (other : operand) : t :=
  match other with
  | Var v => addterm e v (Fin (-1))
  | Expr o =>
      foldl (λ acc vx, addterm acc vx.1 (num_neg vx.2))
            (mk (terms e) (num_sub (constant e) (constant o))) (terms o)
  | Num n => mk (terms e) (num_sub (constant e) n)
  end.

(** [e + other], [e - other] work on a copy of [e]. *)
Definition add (e : t) (other : operand) : t := addInPlace e other.
Definition sub (e : t) (other : operand) : t := subInPlace e other.

(** [e * other] for a number [other] *)
Definition mul (e : t) (other : num) : t :=
  if num_nonzero other
  then mk (map (λ vx, (vx.1, num_mul other vx.2)) (terms e)) (num_mul (constant e) other)
  else emptyCopy.

(** [e.value()] when every variable [v] has the value [a v.name]. *)
Definition value (a : string → Q) (e : t) : num :=
  foldl (λ s vx, num_add s (num_mul (Fin (a (LpVariable.name vx.1))) vx.2))
        (constant e) (terms e).

Definition value_operand (a : string → Q) (o : operand) : num :=
  match o with
  | Var v => Fin (a (LpVariable.name v))
  | Expr e => value a e
  | Num n => n
  end.

End LpAffineExpression.

Module LpConstraint.

Inductive sense := LpConstraintLE | LpConstraintEQ | LpConstraintGE.

(** [LpConstraint(e, sense)]: the constraint [e sense 0]. *)
Record t := mk {
  expr : LpAffineExpression.t;
  sense_of : sense
}.

(** An assignment satisfies the constraint. *)
Definition holds (a : string → Q) (c : t) : Prop :=
  match LpAffineExpression.value a (expr c) with
  | NaN => False
  | Fin q =>
      match sense_of c with
      | LpConstraintLE => q <= 0
      | LpConstraintEQ => q == 0
      | LpConstraintGE => 0 <= q
      end
  end%Q.

End LpConstraint.

(** The comparison operators of an expression build constraints. *)
Definition LpAffineExpression_le (e : LpAffineExpression.t) (other : LpAffineExpression.operand) :=
  LpConstraint.mk (LpAffineExpression.sub e other) LpConstraint.LpConstraintLE.
Definition LpAffineExpression_ge (e : LpAffineExpression.t) (other : LpAffineExpression.operand) :=
  LpConstraint.mk (LpAffineExpression.sub e other) LpConstraint.LpConstraintGE.
Definition LpAffineExpression_eq (e : LpAffineExpression.t) (other : LpAffineExpression.operand) :=
  LpConstraint.mk (LpAffineExpression.sub e other) LpConstraint.LpConstraintEQ.

(** The operators of a variable wrap it into an expression first. *)
Module LpElement.

Import LpAffineExpression.

Definition add (v : LpVariable.t) (other : operand) : t := add (of_var v) other.
Definition radd (v : LpVariable.t) (other : operand) : t := add v other.
Definition sub (v : LpVariable.t) (other : operand) : t := sub (of_var v) other.
Definition mul (v : LpVariable.t) (other : num) : t := mul (of_var v) other.
Definition rmul (v : LpVariable.t) (other : num) : t := mul v other.
Definition le (v : LpVariable.t) (other : operand) := LpAffineExpression_le (of_var v) other.
Definition ge (v : LpVariable.t) (other : operand) := LpAffineExpression_ge (of_var v) other.
Definition eq (v : LpVariable.t) (other : operand) := LpAffineExpression_eq (of_var v) other.

End LpElement.

(** Status codes of a problem. *)
Definition LpStatusNotSolved : Z := 0.
Definition LpStatusOptimal : Z := 1.
Definition LpStatusInfeasible : Z := -1.
Definition LpStatusUnbounded : Z := -2.
Definition LpStatusUndefined : Z := -3.
Definition LpMinimize : Z := 1.

(** What the external solver does with a problem: it reports a status and
    values for the variables, or it raises. *)
Inductive SolverOutcome :=
  | Reports (status : Z) (values : gmap string num)
  | Fails (e : PyExc).

Module LpProblem.

Record t := mk {
  name : string;
  sense : Z;
  objective : option LpAffineExpression.t;
  constraints : list (string * LpConstraint.t);
  status : Z;
  varValue : gmap string num
}.

Fixpoint replace_spaces (s : string) : string :=
  match s with
  | EmptyString => EmptyString
  | String c s' => String (if Ascii.eqb c " " then "_"%char else c) (replace_spaces s')
  end.

(** [LpProblem(name=..., sense=...)] *)
Definition new (name : string) (sense : Z) : t :=
  mk (replace_spaces name) sense None [] LpStatusNotSolved ∅.

(** [problem += expression] sets the objective. *)
Definition iadd_objective (p : t) (e : LpAffineExpression.t) : t :=
  mk (name p) (sense p) (Some e) (constraints p) (status p) (varValue p).

(** [problem += (constraint, name)] *)
Definition addConstraint (p : t) (c : LpConstraint.t) (cname : string) : Result t :=
  let cname := translate cname in
  if bool_decide (cname ∈ (constraints p).*1)
  then Raise (PulpError ("overlapping constraint names: " +:+ cname))
  else Ok (mk (name p) (sense p) (objective p) (constraints p ++ [(cname, c)])
              (status p) (varValue p)).

(** [problem.variables()]: the variables of the objective and of the
    constraints, each once.  (pulp sorts them by name; both readers below
    collect them into a table that does not keep their order.) *)
Definition add_new (seen : list LpVariable.t) (v : LpVariable.t) : list LpVariable.t :=
  if existsb (LpVariable.same v) seen then seen else seen ++ [v].

Definition variables (p : t) : list LpVariable.t :=
  let of_objective :=
    match objective p with
    | Some e =>
        if num_nonzero (LpAffineExpression.constant e)
           || negb (length (LpAffineExpression.terms e) =? 0)%nat
        then (LpAffineExpression.terms e).*1 else []
    | None => []
    end in
  foldl add_new []
    (of_objective ++
     flat_map (λ nc, (LpAffineExpression.terms (LpConstraint.expr nc.2)).*1) (constraints p)).

(** [problem.solve] (any keyword arguments go to the solver) with the outcome of the solver. *)
Definition solve (p : t) (o : SolverOutcome) : Result t :=
  match o with
  | Reports st vals => Ok (mk (name p) (sense p) (objective p) (constraints p) st vals)
  | Fails e => Raise e
  end.

(** [v.value()] *)
Definition value_of (p : t) (v : LpVariable.t) : option num :=
  varValue p !! LpVariable.name v.

End LpProblem.

(** ** Model variables *)

Module ModelVarsScalar.
Record t := mk {
  capacity : LpVariable.t;
  power : LpVariable.t
}.
End ModelVarsScalar.

Module ModelVarsTimeDependent.
Record t := mk {
  level : gmap Z LpVariable.t;
  charge : gmap Z LpVariable.t;
  discharge : gmap Z LpVariable.t
}.
End ModelVarsTimeDependent.

Module ModelVars.
Record t := mk {
  scalar : ModelVarsScalar.t;
  time : ModelVarsTimeDependent.t
}.
End ModelVars.

(** [max(l)] *)
Definition py_max (l : list Z) : Result Z :=
  match l with
  | [] => Raise (ValueError "max() arg is an empty sequence")
  | x :: l' => Ok (foldl Z.max x l')
  end.

(** ** The scenario manager *)

Module ScenarioManager.

Import LpAffineExpression.

(** The attributes [vars] and [lpmodel] exist once the build step that
    assigns them has run. *)
Record t := mk {
  inputs : ScenarioInputs.t;
  name : string;
  solved_status : bool;
  vars : option ModelVars.t;
  lpmodel : option LpProblem.t
}.

(** A method: it returns or raises, and leaves [self] in a new state. *)
Definition M (A : Type) : Type := t → Result A * t.

Definition ret {A} (a : A) : M A := λ self, (Ok a, self).

Definition bind {A B} (m : M A) (k : A → M B) : M B := λ self,
  match m self with
  | (Ok a, self') => k a self'
  | (Raise e, self') => (Raise e, self')
  end.

Definition lift {A} (r : Result A) : M A := λ self, (r, self).

Declare Scope method_scope.
Delimit Scope method_scope with method.
Notation "x <- e ;; k" := (bind e (fun x => k))
  (at level 100, e at next level, k at level 200, right associativity) : method_scope.
Notation "e ;;; k" := (bind e (fun _ => k))
  (at level 100, k at level 200, right associativity) : method_scope.
Open Scope method_scope.

(** [for x in xs: body(x)] *)
Fixpoint for_ {A} (xs : list A) (body : A → M unit) : M unit :=
  match xs with
  | [] => ret tt
  | x :: xs' => body x ;;; for_ xs' body
  end.

(** Attribute access on [self]. *)
Definition get_inputs : M ScenarioInputs.t := λ self, (Ok (inputs self), self).
Definition get_vars : M ModelVars.t := λ self,
  match vars self with
  | Some v => (Ok v, self)
  | None => (Raise (AttributeError "vars"), self)
  end.
Definition get_lpmodel : M LpProblem.t := λ self,
  match lpmodel self with
  | Some p => (Ok p, self)
  | None => (Raise (AttributeError "lpmodel"), self)
  end.
Definition set_vars (v : ModelVars.t) : M unit := λ self,
  (Ok tt, mk (inputs self) (name self) (solved_status self) (Some v) (lpmodel self)).
Definition set_lpmodel (p : LpProblem.t) : M unit := λ self,
  (Ok tt, mk (inputs self) (name self) (solved_status self) (vars self) (Some p)).
Definition set_solved_status (b : bool) : M unit := λ self,
  (Ok tt, mk (inputs self) (name self) b (vars self) (lpmodel self)).

(** [self.lpmodel += (constraint, name)] *)
Definition iadd_constraint (constraint : M LpConstraint.t) (cname : string) : M unit :=
  p <- get_lpmodel ;;
  c <- constraint ;;
  p' <- lift (LpProblem.addConstraint p c cname) ;;
  set_lpmodel p'.

Definition verify_inputs : M unit :=
  inputs <- get_inputs ;;
  total <- lift (df_getitem (Renewables.generation (ScenarioInputs.renewables inputs)) "Total") ;;
  lift (assert_ (PrimFloat.ltb (series_mean (Load.load (ScenarioInputs.load inputs)))
                               (series_mean total))) ;;;
  lift (assert_ (df_isna_sum_sum (Renewables.generation (ScenarioInputs.renewables inputs))
                 =? 0)%nat) ;;;
  lift (assert_ (series_isna_sum (Load.load (ScenarioInputs.load inputs)) =? 0)%nat).

Definition setup_linear_problem : M unit :=
  inputs <- get_inputs ;;
  set_lpmodel (LpProblem.new (ScenarioInputs.name inputs) LpMinimize).

Definition define_endogenous_variables : M unit :=
  inputs <- get_inputs ;;
  set_vars
    (ModelVars.mk
       (ModelVarsScalar.mk
          (LpVariable.new "capacity" (Some (Fin 0)))
          (LpVariable.new "power" (Some (Fin 0))))
       (ModelVarsTimeDependent.mk
          (LpVariable.dicts "storagelevel" (ScenarioInputs.time_index inputs) (Some (Fin 0)))
          (LpVariable.dicts "charge" (ScenarioInputs.time_index inputs) (Some (Fin 0)))
          (LpVariable.dicts "discharge" (ScenarioInputs.time_index inputs) (Some (Fin 0))))).

Definition define_objective_function : M unit :=
  vars <- get_vars ;;
  inputs <- get_inputs ;;
  let obj_func_capex_total :=
    add (LpElement.mul (ModelVarsScalar.capacity (ModelVars.scalar vars))
                       (Storage.capex_capacity (ScenarioInputs.storage inputs)))
        (Expr (LpElement.mul (ModelVarsScalar.power (ModelVars.scalar vars))
                             (Storage.capex_power (ScenarioInputs.storage inputs)))) in
  p <- get_lpmodel ;;
  set_lpmodel (LpProblem.iadd_objective p obj_func_capex_total).

(** The constraint expressions of [define_constraints], in the order in
    which Python evaluates their operands. *)
Definition duration_constraint : M LpConstraint.t :=
  vars <- get_vars ;;
  inputs <- get_inputs ;;
  ret (LpElement.ge (ModelVarsScalar.capacity (ModelVars.scalar vars))
         (Expr (LpElement.rmul (ModelVarsScalar.power (ModelVars.scalar vars))
                               (Storage.minimum_duration (ScenarioInputs.storage inputs))))).

(** [level[t1] == level[t] - discharge[t] + efficiency * charge[t]] *)
Definition balance_constraint (t1 t : Z) : M LpConstraint.t :=
  vars <- get_vars ;;
  inputs <- get_inputs ;;
  l1 <- lift (dict_getitem (ModelVarsTimeDependent.level (ModelVars.time vars)) t1) ;;
  l <- lift (dict_getitem (ModelVarsTimeDependent.level (ModelVars.time vars)) t) ;;
  d <- lift (dict_getitem (ModelVarsTimeDependent.discharge (ModelVars.time vars)) t) ;;
  c <- lift (dict_getitem (ModelVarsTimeDependent.charge (ModelVars.time vars)) t) ;;
  ret (LpElement.eq l1
         (Expr (add (LpElement.sub l (Var d))
                    (Expr (LpElement.rmul c (Storage.efficiency (ScenarioInputs.storage inputs))))))).

Definition available_energy_constraint (t : Z) : M LpConstraint.t :=
  vars <- get_vars ;;
  l <- lift (dict_getitem (ModelVarsTimeDependent.level (ModelVars.time vars)) t) ;;
  d <- lift (dict_getitem (ModelVarsTimeDependent.discharge (ModelVars.time vars)) t) ;;
  ret (LpElement.ge l (Var d)).

Definition charge_limit_constraint (t : Z) : M LpConstraint.t :=
  vars <- get_vars ;;
  c <- lift (dict_getitem (ModelVarsTimeDependent.charge (ModelVars.time vars)) t) ;;
  ret (LpElement.le c (Var (ModelVarsScalar.power (ModelVars.scalar vars)))).

Definition discharge_limit_constraint (t : Z) : M LpConstraint.t :=
  vars <- get_vars ;;
  d <- lift (dict_getitem (ModelVarsTimeDependent.discharge (ModelVars.time vars)) t) ;;
  ret (LpElement.le d (Var (ModelVarsScalar.power (ModelVars.scalar vars)))).

Definition level_limit_constraint (t : Z) : M LpConstraint.t :=
  vars <- get_vars ;;
  l <- lift (dict_getitem (ModelVarsTimeDependent.level (ModelVars.time vars)) t) ;;
  ret (LpElement.le l (Var (ModelVarsScalar.capacity (ModelVars.scalar vars)))).

Definition load_constraint (t : Z) : M LpConstraint.t :=
  inputs <- get_inputs ;;
  total <- lift (df_getitem (Renewables.generation (ScenarioInputs.renewables inputs)) "Total") ;;
  g <- lift (series_getitem total t) ;;
  vars <- get_vars ;;
  d <- lift (dict_getitem (ModelVarsTimeDependent.discharge (ModelVars.time vars)) t) ;;
  c <- lift (dict_getitem (ModelVarsTimeDependent.charge (ModelVars.time vars)) t) ;;
  ld <- lift (series_getitem (Load.load (ScenarioInputs.load inputs)) t) ;;
  ret (LpAffineExpression_ge (sub (LpElement.radd d (Num (num_of_float g))) (Var c))
                             (Num (num_of_float ld))).

(** The labels of the constraints, as written in the source. *)
Definition label_duration : string := "duration is greater than input minimum".
Definition label_start : string := "storage level at start is determined by the end".
Definition label_balance (t : Z) : string :=
  "storage level is determined by charge and discharge, and efficiency (t=" +:+ pretty t +:+ ")".
Definition label_available (t : Z) : string :=
  "cannot dispatch more than available energy (t=" +:+ pretty t +:+ ")".
Definition label_charge (t : Z) : string :=
  "storage charge is limited by power rating (t=" +:+ pretty t +:+ ")".
Definition label_discharge (t : Z) : string :=
  "storage discharge is limited by power rating (t=" +:+ pretty t +:+ ")".
Definition label_level (t : Z) : string :=
  "storage level cannot be higher then capacity (t=" +:+ pretty t +:+ ")".
Definition label_load (t : Z) : string :=
  "load is supplied (t=" +:+ pretty t +:+ ")".

Definition define_constraints : M unit :=
  iadd_constraint duration_constraint label_duration ;;;
  inputs <- get_inputs ;;
  t_max <- lift (py_max (ScenarioInputs.time_index inputs)) ;;
  iadd_constraint (balance_constraint 0 t_max) label_start ;;;
  for_ (removelast (ScenarioInputs.time_index inputs)) (λ t,
    iadd_constraint (balance_constraint (t + 1) t) (label_balance t) ;;;
    iadd_constraint (available_energy_constraint t) (label_available t)) ;;;
  for_ (ScenarioInputs.time_index inputs) (λ t,
    iadd_constraint (charge_limit_constraint t) (label_charge t) ;;;
    iadd_constraint (discharge_limit_constraint t) (label_discharge t) ;;;
    iadd_constraint (level_limit_constraint t) (label_level t) ;;;
    iadd_constraint (load_constraint t) (label_load t)).

(** [solve]: the outcome [o] is what the external solver does with the problem. *)
Definition solve (o : SolverOutcome) : M unit :=
  p <- get_lpmodel ;;
  p' <- lift (LpProblem.solve p o) ;;
  set_lpmodel p' ;;;
  p'' <- get_lpmodel ;;
  if (LpProblem.status p'' =? 1)%Z then set_solved_status true else ret tt.

Definition verify_solve : M unit :=
  p <- get_lpmodel ;;
  if negb (LpProblem.status p =? 1)%Z
  then lift (Raise (Exception "Model has not solved"))
  else ret tt.

(** [ScenarioManager(inputs)]: the object exists when [__init__] returns. *)
Definition init (inputs : ScenarioInputs.t) : Result t :=
  let self := mk inputs (ScenarioInputs.name inputs) false None None in
  match (setup_linear_problem ;;;
         define_endogenous_variables ;;;
         define_objective_function ;;;
         define_constraints) self with
  | (Ok _, self') => Ok self'
  | (Raise e, _) => Raise e
  end.

End ScenarioManager.

(** ** Reading results (results_analysis) *)

(** [s.split(sep)] *)
Fixpoint split_go (sep : ascii) (cur : string) (s : string) : list string :=
  match s with
  | EmptyString => [String.rev cur]
  | String c s' =>
      if Ascii.eqb c sep then String.rev cur :: split_go sep EmptyString s'
      else split_go sep (String c cur) s'
  end.
Definition split (sep : ascii) (s : string) : list string := split_go sep EmptyString s.

(** [pd.to_numeric] on the text of a time step: a run of decimal digits. *)
Fixpoint digits_value (s : string) (acc : Z) : option Z :=
  match s with
  | EmptyString => Some acc
  | String c s' =>
      match Ascii.is_nat c with
      | Some d => digits_value s' (10 * acc + Z.of_nat d)
      | None => None
      end
  end.
Definition to_numeric (s : string) : Result Z :=
  match s with
  | EmptyString => Raise (ValueError "Unable to parse string")
  | _ => match digits_value s 0 with
         | Some z => Ok z
         | None => Raise (ValueError "Unable to parse string")
         end
  end.

Module results_analysis.

Open Scope result_scope.

Definition get_lpmodel (scenario : ScenarioManager.t) : Result LpProblem.t :=
  match ScenarioManager.lpmodel scenario with
  | Some p => Ok p
  | None => Raise (AttributeError "lpmodel")
  end.

Definition get_design_results (scenario : ScenarioManager.t)
    : Result (gmap string (option num)) :=
  assert_ (ScenarioManager.solved_status scenario) ;;;
  p <- get_lpmodel scenario ;;
  Ok (foldl (λ results var,
               if bool_decide (LpVariable.name var ∈ ["capacity"; "power"])
               then <[LpVariable.name var := LpProblem.value_of p var]> results
               else results)
            ∅ (LpProblem.variables p)).

(** One row of [time_results]: the time, the parameter and the value. *)
Definition time_row (start_date : Z) (index : string) (value : option num)
    : Result (Z * string * option num) :=
  timestep <- to_numeric (List.last (split "_" index) EmptyString) ;;
  Ok (start_date + timestep, hd EmptyString (split "_" index), value)%Z.

(** [pivot(index="time", columns="parameter", values="value")]: one cell for
    each pair of a time and a parameter; two rows for one cell are an error. *)
Definition pivot (rows : list (Z * string * option num))
    : Result (gmap (Z * string) (option num)) :=
  for_each (λ table row,
              match table !! row.1 with
              | Some _ => Raise (ValueError "Index contains duplicate entries, cannot reshape")
              | None => Ok (<[row.1 := row.2]> table)
              end)
           rows ∅.

Definition get_operational_batteryflow_results (scenario : ScenarioManager.t)
    : Result (gmap (Z * string) (option num)) :=
  p <- get_lpmodel scenario ;;
  let variables := (λ v, (LpVariable.name v, LpProblem.value_of p v)) <$> LpProblem.variables p in
  let time_var_df :=
    filter (λ r, hd EmptyString (split "_" r.1) ∈ ["storagelevel"; "charge"; "discharge"])
           variables in
  time_results <-
    for_each (λ acc r,
                row <- time_row (ScenarioInputs.start_date (ScenarioManager.inputs scenario))
                                r.1 r.2 ;;
                Ok (acc ++ [row]))
             time_var_df [] ;;
  pivot time_results.

End results_analysis.

(** ** Running methods one after the other *)

(** The state in which a method leaves the manager, and what it returns. *)
Definition state_after {A} (m : ScenarioManager.M A) (self : ScenarioManager.t)
    : ScenarioManager.t := (m self).2.
Definition outcome_of {A} (m : ScenarioManager.M A) (self : ScenarioManager.t)
    : Result A := (m self).1.

(** The methods a caller can invoke on a manager that exists. *)
Inductive call :=
  | VerifyInputs
  | SetupLinearProblem
  | DefineEndogenousVariables
  | DefineObjectiveFunction
  | DefineConstraints
  | Solve (o : SolverOutcome)
  | VerifySolve.

Definition method (c : call) : ScenarioManager.M unit :=
  match c with
  | VerifyInputs => ScenarioManager.verify_inputs
  | SetupLinearProblem => ScenarioManager.setup_linear_problem
  | DefineEndogenousVariables => ScenarioManager.define_endogenous_variables
  | DefineObjectiveFunction => ScenarioManager.define_objective_function
  | DefineConstraints => ScenarioManager.define_constraints
  | Solve o => ScenarioManager.solve o
  | VerifySolve => ScenarioManager.verify_solve
  end.

(** A caller that goes on after an exception (it may catch it). *)
Definition run_calls (cs : list call) (self : ScenarioManager.t) : ScenarioManager.t :=
  foldl (λ s c, state_after (method c) s) self cs.

(** ** The scenario of the design document: one technology, [n] steps *)

Definition ex_storage : Storage.t := Storage.mk (Fin (9 # 10)) (Fin 2) (Fin 1) (Fin 1).

Definition ex_profiles (n : nat) : DataFrame :=
  mkDataFrame n [("Solar", replicate n 1%float)].

Definition ex_generation (n : nat) : DataFrame :=
  mkDataFrame n [("Solar", replicate n 100%float); ("Total", replicate n 100%float)].

Definition ex_renewables (n : nat) : Renewables.t :=
  Renewables.mk ["Solar"] [("Solar", 100%float)] (ex_profiles n) (ex_generation n).

Definition ex_inputs (n : nat) : ScenarioInputs.t :=
  ScenarioInputs.mk "example" 0 (Z.of_nat <$> seq 0 n) (ex_renewables n)
    (Load.init 50%float (replicate n 0.5%float)) ex_storage.

(** * Properties *)

Example ex_renewables_init :
  Renewables.init ["Solar"] [("Solar", 100%float)] (ex_profiles 3) = Ok (ex_renewables 3).
Proof. vm_compute. reflexivity. Qed.


(** ** What a method leaves as it is *)

Section Keeps.

Import ScenarioManager.

Context (R : t → t → Prop) `{!Reflexive R} `{!Transitive R}.

(** [m] takes every state to an [R]-related one, whether it returns or raises. *)
Definition keeps {A} (m : M A) : Prop := ∀ self, R self (m self).2.

Lemma keeps_ret {A} (a : A) : keeps (ret a).
Proof. intros self. simpl. reflexivity. Qed.

Lemma keeps_lift {A} (r : Result A) : keeps (lift r).
Proof. intros self. simpl. reflexivity. Qed.

Lemma keeps_bind {A B} (m : M A) (k : A → M B) :
  keeps m → (∀ a, keeps (k a)) → keeps (bind m k).
Proof.
  intros Hm Hk self. unfold bind. specialize (Hm self).
  destruct (m self) as [[a|e] self']; simpl in *; [|done].
  etrans; [exact Hm | apply Hk].
Qed.

Lemma keeps_for {A} (xs : list A) (body : A → M unit) :
  (∀ x, keeps (body x)) → keeps (for_ xs body).
Proof.
  intros Hb. induction xs as [|x xs IH]; simpl.
  - apply keeps_ret.
  - apply keeps_bind; [apply Hb | intros _; exact IH].
Qed.

Lemma keeps_get_inputs : keeps get_inputs.
Proof. intros self. simpl. reflexivity. Qed.

Lemma keeps_get_vars : keeps get_vars.
Proof. intros self. unfold get_vars. destruct (vars self); simpl; reflexivity. Qed.

Lemma keeps_get_lpmodel : keeps get_lpmodel.
Proof. intros self. unfold get_lpmodel. destruct (lpmodel self); simpl; reflexivity. Qed.

Lemma keeps_if {A} (b : bool) (m1 m2 : M A) : keeps m1 → keeps m2 → keeps (if b then m1 else m2).
Proof. by destruct b. Qed.

End Keeps.

Create HintDb keeps discriminated.

Ltac keeps_step :=
  lazymatch goal with
  | |- ∀ _, _ => intro
  | |- Reflexive _ => apply _
  | |- Transitive _ => apply _
  | |- keeps _ _ =>
      first
        [ solve [auto 3 with keeps nocore]
        | apply keeps_ret | apply keeps_lift | apply keeps_get_inputs | apply keeps_get_vars
        | apply keeps_get_lpmodel | apply keeps_for | apply keeps_if | apply keeps_bind ]
  end.

Ltac keeps_auto := repeat keeps_step.

(** The expressions of the constraints only read [self]. *)
Section Readers.

Import ScenarioManager.

Lemma duration_constraint_reads : keeps eq duration_constraint.
Proof. unfold duration_constraint. keeps_auto. Qed.
Lemma balance_constraint_reads t1 t : keeps eq (balance_constraint t1 t).
Proof. unfold balance_constraint. keeps_auto. Qed.
Lemma available_energy_constraint_reads t : keeps eq (available_energy_constraint t).
Proof. unfold available_energy_constraint. keeps_auto. Qed.
Lemma charge_limit_constraint_reads t : keeps eq (charge_limit_constraint t).
Proof. unfold charge_limit_constraint. keeps_auto. Qed.
Lemma discharge_limit_constraint_reads t : keeps eq (discharge_limit_constraint t).
Proof. unfold discharge_limit_constraint. keeps_auto. Qed.
Lemma level_limit_constraint_reads t : keeps eq (level_limit_constraint t).
Proof. unfold level_limit_constraint. keeps_auto. Qed.
Lemma load_constraint_reads t : keeps eq (load_constraint t).
Proof. unfold load_constraint. keeps_auto. Qed.

Lemma verify_inputs_reads : keeps eq verify_inputs.
Proof. unfold verify_inputs. keeps_auto. Qed.

Lemma verify_solve_reads : keeps eq verify_solve.
Proof. unfold verify_solve. keeps_auto. Qed.

End Readers.

#[export] Hint Resolve duration_constraint_reads balance_constraint_reads
  available_energy_constraint_reads charge_limit_constraint_reads
  discharge_limit_constraint_reads level_limit_constraint_reads load_constraint_reads
  verify_inputs_reads verify_solve_reads : keeps.

(** ** The solved flag *)

Section SolvedFlag.

Import ScenarioManager.

(** The flag is not lowered. *)
Definition flag_stays (s s' : t) : Prop := solved_status s = true → solved_status s' = true.
(** The flag is not touched. *)
Definition flag_same (s s' : t) : Prop := solved_status s' = solved_status s.

#[local] Instance flag_stays_refl : Reflexive flag_stays.
Proof. intros s Hs. exact Hs. Qed.
#[local] Instance flag_stays_trans : Transitive flag_stays.
Proof. intros s1 s2 s3 H1 H2 H. by apply H2, H1. Qed.
#[local] Instance flag_same_refl : Reflexive flag_same.
Proof. intros s. reflexivity. Qed.
#[local] Instance flag_same_trans : Transitive flag_same.
Proof. intros s1 s2 s3 H1 H2. unfold flag_same in *. congruence. Qed.

Lemma reads_flag_same {A} (m : M A) : keeps eq m → keeps flag_same m.
Proof. intros H self. unfold flag_same. by rewrite <-(H self). Qed.

Lemma flag_same_stays {A} (m : M A) : keeps flag_same m → keeps flag_stays m.
Proof. intros H self Ht. by rewrite (H self). Qed.

Lemma set_vars_flag v : keeps flag_same (set_vars v).
Proof. by intros self. Qed.
Lemma set_lpmodel_flag p : keeps flag_same (set_lpmodel p).
Proof. by intros self. Qed.

Lemma iadd_constraint_flag c cname :
  keeps eq c → keeps flag_same (iadd_constraint c cname).
Proof.
  intros Hc. unfold iadd_constraint.
  keeps_auto; try apply set_lpmodel_flag. by apply reads_flag_same.
Qed.

Lemma setup_linear_problem_flag : keeps flag_same setup_linear_problem.
Proof. unfold setup_linear_problem. keeps_auto. apply set_lpmodel_flag. Qed.

Lemma define_endogenous_variables_flag : keeps flag_same define_endogenous_variables.
Proof. unfold define_endogenous_variables. keeps_auto. apply set_vars_flag. Qed.

Lemma define_objective_function_flag : keeps flag_same define_objective_function.
Proof. unfold define_objective_function. keeps_auto. apply set_lpmodel_flag. Qed.

#[local] Hint Resolve iadd_constraint_flag : keeps.

Lemma define_constraints_flag : keeps flag_same define_constraints.
Proof. unfold define_constraints. keeps_auto. Qed.

Lemma solve_flag o : keeps flag_stays (solve o).
Proof.
  unfold solve. keeps_auto; try (apply flag_same_stays, set_lpmodel_flag).
  intros self. by intros _.
Qed.

Lemma method_flag c : keeps flag_stays (method c).
Proof.
  destruct c; simpl;
    auto using flag_same_stays, reads_flag_same, verify_inputs_reads, verify_solve_reads,
      setup_linear_problem_flag, define_endogenous_variables_flag,
      define_objective_function_flag, define_constraints_flag, solve_flag.
Qed.

(** The constructor returns a manager whose flag is false. *)
Lemma init_solved_status inputs m : init inputs = Ok m → solved_status m = false.
Proof.
  unfold init. intros H.
  match type of H with
  | match ?body ?s with _ => _ end = _ =>
      assert (keeps flag_same body) as Hk
        by (keeps_auto;
            auto using setup_linear_problem_flag, define_endogenous_variables_flag,
              define_objective_function_flag, define_constraints_flag);
      specialize (Hk s); destruct (body s) as [[[]|e] self']; [|done]
  end.
  injection H as <-. exact Hk.
Qed.

End SolvedFlag.

(** ** What the constructor builds *)

(** When a method returns, so did each of its steps. *)
Section Inversion.

Import ScenarioManager.

Lemma bind_ok {A B} (m : M A) (k : A → M B) self b self' :
  bind m k self = (Ok b, self') →
  ∃ a s1, m self = (Ok a, s1) ∧ k a s1 = (Ok b, self').
Proof.
  unfold bind. destruct (m self) as [[a|e] s1]; [|done]. intros H. by exists a, s1.
Qed.

Lemma lift_ok {A} (r : Result A) self a self' :
  lift r self = (Ok a, self') → r = Ok a ∧ self' = self.
Proof. unfold lift. by intros [= -> ->]. Qed.

Lemma ret_ok {A} (x : A) self a self' :
  ret x self = (Ok a, self') → a = x ∧ self' = self.
Proof. unfold ret. by intros [= -> ->]. Qed.

Lemma get_inputs_ok self i self' :
  get_inputs self = (Ok i, self') → i = inputs self ∧ self' = self.
Proof. unfold get_inputs. by intros [= <- <-]. Qed.

Lemma get_vars_ok self v self' :
  get_vars self = (Ok v, self') → vars self = Some v ∧ self' = self.
Proof. unfold get_vars. destruct (vars self); [|done]. by intros [= <- <-]. Qed.

Lemma get_lpmodel_ok self p self' :
  get_lpmodel self = (Ok p, self') → lpmodel self = Some p ∧ self' = self.
Proof. unfold get_lpmodel. destruct (lpmodel self); [|done]. by intros [= <- <-]. Qed.

Lemma dict_getitem_ok {V} (d : gmap Z V) k v : dict_getitem d k = Ok v → d !! k = Some v.
Proof. unfold dict_getitem. destruct (d !! k); [|done]. by intros [= <-]. Qed.

End Inversion.

Ltac inv_ok :=
  repeat match goal with
  | H : ScenarioManager.bind _ _ _ = (Ok _, _) |- _ =>
      apply bind_ok in H as (? & ? & ? & ?)
  | H : ScenarioManager.lift _ _ = (Ok _, _) |- _ => apply lift_ok in H as [? ->]
  | H : ScenarioManager.ret _ _ = (Ok _, _) |- _ => apply ret_ok in H as [-> ->]
  | H : ScenarioManager.get_inputs _ = (Ok _, _) |- _ => apply get_inputs_ok in H as [-> ->]
  | H : ScenarioManager.get_vars _ = (Ok _, _) |- _ => apply get_vars_ok in H as [? ->]
  | H : ScenarioManager.get_lpmodel _ = (Ok _, _) |- _ => apply get_lpmodel_ok in H as [? ->]
  | H : dict_getitem _ _ = Ok _ |- _ => apply dict_getitem_ok in H
  end.

(** [LpVariable.dicts] has one variable for each index. *)
Lemma dicts_lookup name idx lb (t : Z) :
  LpVariable.dicts name idx lb !! t =
  if decide (t ∈ idx) then Some (LpVariable.new (name +:+ "_" +:+ pretty t) lb) else None.
Proof.
  unfold LpVariable.dicts. induction idx as [|i idx IH] using rev_ind.
  - cbn [foldl]. rewrite lookup_empty. destruct (decide (t ∈ [])); [set_solver | done].
  - rewrite foldl_app. cbn [foldl]. destruct (decide (i = t)) as [->|Hne].
    + rewrite lookup_insert_eq. destruct (decide (t ∈ idx ++ [t])); [done | set_solver].
    + rewrite lookup_insert_ne by done. rewrite IH.
      destruct (decide (t ∈ idx)) as [Hin|Hin], (decide (t ∈ idx ++ [i])) as [Hin'|Hin'];
        try done; exfalso; revert Hin Hin'; rewrite elem_of_app, list_elem_of_singleton;
        intuition congruence.
Qed.

Lemma dicts_lookup_Some name idx lb (t : Z) v :
  LpVariable.dicts name idx lb !! t = Some v →
  t ∈ idx ∧ v = LpVariable.new (name +:+ "_" +:+ pretty t) lb.
Proof. rewrite dicts_lookup. case_decide; [|done]. by intros [= <-]. Qed.

Section Built.

Import ScenarioManager LpAffineExpression.

Context (inputs0 : ScenarioInputs.t).

Let idx := ScenarioInputs.time_index inputs0.
Let sto := ScenarioInputs.storage inputs0.

(** The variables by family and time step. *)
Definition var_of (family : string) (t : Z) : LpVariable.t :=
  LpVariable.new (family +:+ "_" +:+ pretty t) (Some (Fin 0)).
Definition var_capacity : LpVariable.t := LpVariable.new "capacity" (Some (Fin 0)).
Definition var_power : LpVariable.t := LpVariable.new "power" (Some (Fin 0)).

Definition vars_of : ModelVars.t :=
  ModelVars.mk
    (ModelVarsScalar.mk var_capacity var_power)
    (ModelVarsTimeDependent.mk
       (LpVariable.dicts "storagelevel" idx (Some (Fin 0)))
       (LpVariable.dicts "charge" idx (Some (Fin 0)))
       (LpVariable.dicts "discharge" idx (Some (Fin 0)))).

Definition objective_of : LpAffineExpression.t :=
  add (LpElement.mul var_capacity (Storage.capex_capacity sto))
      (Expr (LpElement.mul var_power (Storage.capex_power sto))).

(** The generation total and the load at a step. *)
Definition series_at (s : Series) (t : Z) : num :=
  default NaN (num_of_float <$> s !! Z.to_nat t).
Definition total_of : Series :=
  default [] (assoc_get (df_columns (Renewables.generation (ScenarioInputs.renewables inputs0)))
                        "Total").
Definition load_of : Series := Load.load (ScenarioInputs.load inputs0).

(** The constraints, written on the variables themselves. *)
Definition c_duration : LpConstraint.t :=
  LpElement.ge var_capacity (Expr (LpElement.rmul var_power (Storage.minimum_duration sto))).
Definition c_balance (t1 t : Z) : LpConstraint.t :=
  LpElement.eq (var_of "storagelevel" t1)
    (Expr (add (LpElement.sub (var_of "storagelevel" t) (Var (var_of "discharge" t)))
               (Expr (LpElement.rmul (var_of "charge" t) (Storage.efficiency sto))))).
Definition c_available (t : Z) : LpConstraint.t :=
  LpElement.ge (var_of "storagelevel" t) (Var (var_of "discharge" t)).
Definition c_charge (t : Z) : LpConstraint.t :=
  LpElement.le (var_of "charge" t) (Var var_power).
Definition c_discharge (t : Z) : LpConstraint.t :=
  LpElement.le (var_of "discharge" t) (Var var_power).
Definition c_level (t : Z) : LpConstraint.t :=
  LpElement.le (var_of "storagelevel" t) (Var var_capacity).
Definition c_load (t : Z) : LpConstraint.t :=
  LpAffineExpression_ge
    (sub (LpElement.radd (var_of "discharge" t) (Num (series_at total_of t)))
         (Var (var_of "charge" t)))
    (Num (series_at load_of t)).

Definition forward_constraints (t : Z) : list (string * LpConstraint.t) :=
  [(translate (label_balance t), c_balance (t + 1) t);
   (translate (label_available t), c_available t)].
Definition step_constraints (t : Z) : list (string * LpConstraint.t) :=
  [(translate (label_charge t), c_charge t);
   (translate (label_discharge t), c_discharge t);
   (translate (label_level t), c_level t);
   (translate (label_load t), c_load t)].

Definition t_max_of : Z :=
  match idx with [] => 0 | x :: l => foldl Z.max x l end.

Definition constraints_of : list (string * LpConstraint.t) :=
  [(translate label_duration, c_duration);
   (translate label_start, c_balance 0 t_max_of)]
  ++ flat_map forward_constraints (removelast idx)
  ++ flat_map step_constraints idx.

(** The manager while the constraints [cs] are registered. *)
Definition building (cs : list (string * LpConstraint.t)) : ScenarioManager.t :=
  ScenarioManager.mk inputs0 (ScenarioInputs.name inputs0) false (Some vars_of)
     (Some (LpProblem.mk (LpProblem.replace_spaces (ScenarioInputs.name inputs0)) LpMinimize
              (Some objective_of) cs LpStatusNotSolved ∅)).

Lemma series_getitem_ok s t v :
  series_getitem s t = Ok v →
  (0 ≤ t)%Z ∧ s !! Z.to_nat t = Some v ∧ num_of_float v = series_at s t.
Proof.
  unfold series_getitem, series_at. destruct (Z.ltb_spec t 0); [done|].
  destruct (s !! Z.to_nat t); [|done]. by intros [= <-].
Qed.

Lemma df_getitem_total_ok s :
  df_getitem (Renewables.generation (ScenarioInputs.renewables inputs0)) "Total" = Ok s →
  s = total_of.
Proof.
  unfold df_getitem, total_of. destruct (assoc_get _ _); [|done]. by intros [= <-].
Qed.

Ltac inv_dicts :=
  repeat match goal with
  | H : ModelVars.time ?v = _ |- _ => fail 1
  | H : LpVariable.dicts _ _ _ !! _ = Some _ |- _ => apply dicts_lookup_Some in H as [? ->]
  end.

Ltac inv_builder :=
  intros H; inv_ok; simpl in *; simplify_eq; simpl in *; inv_dicts.

Lemma duration_constraint_ok cs c s :
  duration_constraint (building cs) = (Ok c, s) → c = c_duration.
Proof. unfold duration_constraint. inv_builder. done. Qed.

Lemma balance_constraint_ok t1 t cs c s :
  balance_constraint t1 t (building cs) = (Ok c, s) →
  c = c_balance t1 t ∧ t1 ∈ idx ∧ t ∈ idx.
Proof. unfold balance_constraint. inv_builder. done. Qed.

Lemma available_energy_constraint_ok t cs c s :
  available_energy_constraint t (building cs) = (Ok c, s) → c = c_available t.
Proof. unfold available_energy_constraint. inv_builder. done. Qed.

Lemma charge_limit_constraint_ok t cs c s :
  charge_limit_constraint t (building cs) = (Ok c, s) → c = c_charge t.
Proof. unfold charge_limit_constraint. inv_builder. done. Qed.

Lemma discharge_limit_constraint_ok t cs c s :
  discharge_limit_constraint t (building cs) = (Ok c, s) → c = c_discharge t.
Proof. unfold discharge_limit_constraint. inv_builder. done. Qed.

Lemma level_limit_constraint_ok t cs c s :
  level_limit_constraint t (building cs) = (Ok c, s) → c = c_level t.
Proof. unfold level_limit_constraint. inv_builder. done. Qed.

Lemma load_constraint_ok t cs c s :
  load_constraint t (building cs) = (Ok c, s) →
  c = c_load t ∧ (0 ≤ t)%Z ∧ is_Some (total_of !! Z.to_nat t) ∧ is_Some (load_of !! Z.to_nat t).
Proof.
  unfold load_constraint. inv_builder.
  repeat match goal with
  | H : df_getitem _ _ = Ok _ |- _ => apply df_getitem_total_ok in H as ->
  | H : series_getitem _ _ = Ok _ |- _ => apply series_getitem_ok in H as (? & ? & ->)
  end.
  unfold c_load, load_of. eauto.
Qed.

(** Registering a constraint on a manager under construction. *)
Lemma iadd_constraint_ok (b : M LpConstraint.t) label cs s' :
  keeps eq b →
  iadd_constraint b label (building cs) = (Ok tt, s') →
  ∃ c, (b (building cs) = (Ok c, building cs))
       ∧ (translate label ∉ cs.*1)
       ∧ (s' = building (cs ++ [(translate label, c)])).
Proof.
  intros Hb H. unfold iadd_constraint in H. inv_ok. simpl in *. simplify_eq.
  match goal with H : b _ = (Ok ?c, ?s) |- _ =>
    pose proof (Hb (building cs)) as Hs; rewrite H in Hs; simpl in Hs; subst s;
    exists c; split; [exact H|]
  end.
  match goal with H : LpProblem.addConstraint _ _ _ = Ok _ |- _ =>
    unfold LpProblem.addConstraint in H; simpl in H;
    case_bool_decide; [done|]; injection H as <-
  end.
  match goal with H : set_lpmodel _ _ = _ |- _ => unfold set_lpmodel in H; simpl in H end.
  by simplify_eq.
Qed.

(** A loop that registers the constraints [f x] for each [x]. *)
Lemma for_building {A} (xs : list A) (body : A → M unit)
    (f : A → list (string * LpConstraint.t)) (Q : A → Prop) :
  (∀ x cs s', body x (building cs) = (Ok tt, s') →
     s' = building (cs ++ f x) ∧ (NoDup cs.*1 → NoDup (cs ++ f x).*1) ∧ Q x) →
  ∀ cs s', for_ xs body (building cs) = (Ok tt, s') →
    s' = building (cs ++ flat_map f xs)
    ∧ (NoDup cs.*1 → NoDup (cs ++ flat_map f xs).*1)
    ∧ Forall Q xs.
Proof.
  intros Hbody. induction xs as [|x xs IH]; intros cs s' H; simpl in H.
  - apply ret_ok in H as [_ ->]. simpl. by rewrite app_nil_r.
  - inv_ok. match goal with u : unit |- _ => destruct u end.
    match goal with H : body _ _ = _ |- _ => apply Hbody in H as (-> & Hnd & HQ) end.
    match goal with H : for_ _ _ _ = _ |- _ => apply IH in H as (-> & Hnd' & HQs) end.
    simpl. rewrite <-app_assoc. split_and!; [done| |by constructor].
    intros ?. rewrite app_assoc. auto.
Qed.

Lemma NoDup_snoc_fst (cs : list (string * LpConstraint.t)) k c :
  k ∉ cs.*1 → NoDup cs.*1 → NoDup (cs ++ [(k, c)]).*1.
Proof.
  intros Hk Hnd. rewrite fmap_app. simpl. apply NoDup_app. split_and!; [done| |].
  - intros x Hx. rewrite list_elem_of_singleton. by intros ->.
  - apply NoDup_singleton.
Qed.

Ltac inv_iadd :=
  repeat match goal with
  | u : unit |- _ => destruct u
  | H : iadd_constraint _ _ (building _) = (Ok tt, _) |- _ =>
      apply iadd_constraint_ok in H as (? & ? & ? & ->); [|auto with keeps]
  | H : bind (iadd_constraint _ _) _ (building _) = (Ok _, _) |- _ =>
      apply bind_ok in H as (? & ? & ? & ?)
  | H : duration_constraint _ = (Ok _, _) |- _ => apply duration_constraint_ok in H as ->
  | H : balance_constraint _ _ _ = (Ok _, _) |- _ =>
      apply balance_constraint_ok in H as (-> & ? & ?)
  | H : available_energy_constraint _ _ = (Ok _, _) |- _ =>
      apply available_energy_constraint_ok in H as ->
  | H : charge_limit_constraint _ _ = (Ok _, _) |- _ =>
      apply charge_limit_constraint_ok in H as ->
  | H : discharge_limit_constraint _ _ = (Ok _, _) |- _ =>
      apply discharge_limit_constraint_ok in H as ->
  | H : level_limit_constraint _ _ = (Ok _, _) |- _ =>
      apply level_limit_constraint_ok in H as ->
  | H : load_constraint _ _ = (Ok _, _) |- _ =>
      apply load_constraint_ok in H as (-> & ? & ? & ?)
  end.

Lemma forward_step_ok t cs s' :
  (iadd_constraint (balance_constraint (t + 1) t) (label_balance t) ;;;
   iadd_constraint (available_energy_constraint t) (label_available t)) (building cs)
  = (Ok tt, s') →
  s' = building (cs ++ forward_constraints t)
  ∧ (NoDup cs.*1 → NoDup (cs ++ forward_constraints t).*1)
  ∧ ((t + 1)%Z ∈ idx ∧ t ∈ idx).
Proof.
  intros H. inv_iadd. unfold forward_constraints.
  rewrite <-!app_assoc. simpl. split_and!; try done.
  intros Hnd. change (cs ++ [?a; ?b]) with (cs ++ [a] ++ [b]). rewrite app_assoc.
  auto using NoDup_snoc_fst.
Qed.

Lemma each_step_ok t cs s' :
  (iadd_constraint (charge_limit_constraint t) (label_charge t) ;;;
   iadd_constraint (discharge_limit_constraint t) (label_discharge t) ;;;
   iadd_constraint (level_limit_constraint t) (label_level t) ;;;
   iadd_constraint (load_constraint t) (label_load t)) (building cs)
  = (Ok tt, s') →
  s' = building (cs ++ step_constraints t)
  ∧ (NoDup cs.*1 → NoDup (cs ++ step_constraints t).*1)
  ∧ ((0 ≤ t)%Z ∧ is_Some (total_of !! Z.to_nat t) ∧ is_Some (load_of !! Z.to_nat t)).
Proof.
  intros H. inv_iadd. unfold step_constraints.
  rewrite <-!app_assoc. simpl. split_and!; try done.
  intros Hnd. change (cs ++ [?a; ?b; ?c; ?d]) with (cs ++ [a] ++ [b] ++ [c] ++ [d]).
  rewrite !app_assoc. auto using NoDup_snoc_fst.
Qed.

(** What [define_constraints] registers when it returns. *)
Record built_facts : Prop := {
  built_NoDup : NoDup constraints_of.*1;
  built_nonempty : idx ≠ [];
  built_zero : 0%Z ∈ idx;
  built_t_max : t_max_of ∈ idx;
  built_forward : Forall (λ t, (t + 1)%Z ∈ idx ∧ t ∈ idx) (removelast idx);
  built_series :
    Forall (λ t, (0 ≤ t)%Z ∧ is_Some (total_of !! Z.to_nat t) ∧ is_Some (load_of !! Z.to_nat t))
           idx
}.

Lemma define_constraints_ok s' :
  define_constraints (building []) = (Ok tt, s') →
  s' = building constraints_of ∧ built_facts.
Proof.
  unfold define_constraints. intros H.
  apply bind_ok in H as (? & ? & Ha & H). inv_iadd.
  apply bind_ok in H as (? & ? & Hb & H). apply get_inputs_ok in Hb as [-> ->].
  apply bind_ok in H as (tm & ? & Hc & H). apply lift_ok in Hc as [Hmax ->].
  cbn [inputs building] in Hmax, H. fold idx in Hmax, H.
  assert (idx ≠ [] ∧ tm = t_max_of) as [Hne ->].
  { unfold t_max_of. destruct idx; [done|]. simpl in Hmax. by injection Hmax as <-. }
  apply bind_ok in H as (? & ? & Hd & H). inv_iadd.
  apply bind_ok in H as ([] & ? & He & H).
  eapply (for_building _ _ forward_constraints) in He as (-> & Hnd1 & HQ1);
    [|intros ????; by apply forward_step_ok].
  eapply (for_building _ _ step_constraints) in H as (-> & Hnd2 & HQ2);
    [|intros ????; by apply each_step_ok].
  assert (NoDup constraints_of.*1) as Hnd.
  { apply Hnd2, Hnd1. simpl. apply NoDup_cons. split; [|apply NoDup_singleton].
    simpl in *. by rewrite list_elem_of_singleton in *. }
  split.
  - reflexivity.
  - by split.
Qed.

End Built.

(** The first three build steps do not fail. *)
Lemma init_unfold inputs :
  ScenarioManager.init inputs =
  match ScenarioManager.define_constraints (building inputs []) with
  | (Ok _, self') => Ok self'
  | (Raise e, _) => Raise e
  end.
Proof. reflexivity. Qed.

(** The manager the constructor returns. *)
Lemma init_ok inputs m :
  ScenarioManager.init inputs = Ok m →
  m = building inputs (constraints_of inputs) ∧ built_facts inputs.
Proof.
  rewrite init_unfold.
  destruct (ScenarioManager.define_constraints _) as [[[]|e] s'] eqn:Hrun; [|done].
  intros [= ->]. by apply define_constraints_ok.
Qed.

Lemma init_lpmodel inputs m :
  ScenarioManager.init inputs = Ok m →
  ∃ p, ScenarioManager.lpmodel m = Some p
       ∧ LpProblem.constraints p = constraints_of inputs
       ∧ LpProblem.objective p = Some (objective_of inputs)
       ∧ LpProblem.status p = LpStatusNotSolved.
Proof. intros [-> _]%init_ok. eexists. by split_and!. Qed.

(** The manager and the problem of the example scenario. *)
Definition ex_problem (n : nat) : LpProblem.t :=
  LpProblem.mk "example" LpMinimize (Some (objective_of (ex_inputs n)))
    (constraints_of (ex_inputs n)) LpStatusNotSolved ∅.
Definition ex_manager (n : nat) : ScenarioManager.t :=
  ScenarioManager.mk (ex_inputs n) "example" false (Some (vars_of (ex_inputs n)))
    (Some (ex_problem n)).

Lemma ex_manager_init n :
  is_ok (ScenarioManager.init (ex_inputs n)) = true →
  ScenarioManager.init (ex_inputs n) = Ok (ex_manager n).
Proof.
  destruct (ScenarioManager.init (ex_inputs n)) as [m|e] eqn:Hinit; [|done].
  intros _. by apply init_ok in Hinit as [-> _].
Defined.

(** ** Counting the constraints *)

Lemma length_flat_map_const {A B} (f : A → list B) (n : nat) (l : list A) :
  (∀ x, length (f x) = n) → length (flat_map f l) = (n * length l)%nat.
Proof.
  intros Hf. induction l as [|x l IH]; simpl; [lia|].
  rewrite length_app, Hf, IH. lia.
Qed.

Lemma length_removelast {A} (l : list A) : length (removelast l) = (length l - 1)%nat.
Proof.
  induction l as [|x l IH]; [done|]. destruct l as [|y l]; [done|].
  change (removelast (x :: y :: l)) with (x :: removelast (y :: l)).
  simpl length in *. lia.
Qed.

Lemma length_constraints_of inputs :
  length (constraints_of inputs) =
  (1 + 1 + 2 * (length (ScenarioInputs.time_index inputs) - 1)
   + 4 * length (ScenarioInputs.time_index inputs))%nat.
Proof.
  unfold constraints_of. rewrite !length_app.
  rewrite (length_flat_map_const _ 2) by done.
  rewrite (length_flat_map_const _ 4) by done.
  rewrite length_removelast. simpl. lia.
Qed.

(** C1 (as the code has it): the problem a scenario manager is built with
    has [1 + 1 + 2*(N-1) + 4*N] constraints, where [N >= 1] is the length of
    the time index: the duration floor, the wrap-around balance, a forward
    balance and an available-energy constraint for each of the first [N-1]
    steps, and four constraints (charge limit, discharge limit, level limit,
    load served) for each of the [N] steps. *)
Theorem constraint_count inputs m p :
  ScenarioManager.init inputs = Ok m →
  ScenarioManager.lpmodel m = Some p →
  let N := length (ScenarioInputs.time_index inputs) in
  (1 ≤ N)%nat ∧
  length (LpProblem.constraints p) = (1 + 1 + 2 * (N - 1) + 4 * N)%nat.
Proof.
  intros Hinit Hp.
  destruct (init_ok _ _ Hinit) as [_ [_ Hne _ _ _ _]].
  apply init_lpmodel in Hinit as (p' & Hp' & Hcs & _).
  rewrite Hp in Hp'. injection Hp' as <-. rewrite Hcs. simpl. split.
  - destruct (ScenarioInputs.time_index inputs); [done | simpl; lia].
  - apply length_constraints_of.
Qed.

Lemma constraint_count_witness :
  (1 ≤ 3)%nat ∧ length (LpProblem.constraints (ex_problem 3)) = 18%nat.
Proof.
  exact (constraint_count (ex_inputs 3) (ex_manager 3) (ex_problem 3)
           (ex_manager_init 3 ltac:(vm_compute; reflexivity)) eq_refl).
Defined.

(** C1, as stated, fails: one time step gives six constraints, where the
    stated formula [1 + 1 + 2*(N-1) + 3*N] gives five. *)
Lemma constraint_count_three_per_step_fails :
  ¬ (∀ inputs m p,
       ScenarioManager.init inputs = Ok m →
       ScenarioManager.lpmodel m = Some p →
       (1 ≤ length (ScenarioInputs.time_index inputs))%nat →
       length (LpProblem.constraints p) =
       (1 + 1 + 2 * (length (ScenarioInputs.time_index inputs) - 1)
        + 3 * length (ScenarioInputs.time_index inputs))%nat).
Proof.
  intros H.
  specialize (H (ex_inputs 1) (ex_manager 1) (ex_problem 1)
                (ex_manager_init 1 ltac:(vm_compute; reflexivity)) eq_refl).
  vm_compute in H. specialize (H (le_n 1)). discriminate H.
Qed.

(** ** Arithmetic of numbers *)


#[export] Instance num_same_equiv : Equivalence num_same.
Proof.
  split.
  - intros [|x]; simpl; done || reflexivity.
  - intros [|x] [|y]; simpl; try done; intros H; by symmetry.
  - intros [|x] [|y] [|z]; simpl; try done; intros H1 H2; by rewrite H1.
Qed.

#[export] Instance num_add_proper : Proper (num_same ==> num_same ==> num_same) num_add.
Proof. intros [|x] [|x'] Hx [|y] [|y'] Hy; simpl in *; try done; by rewrite Hx, Hy. Qed.
#[export] Instance num_sub_proper : Proper (num_same ==> num_same ==> num_same) num_sub.
Proof. intros [|x] [|x'] Hx [|y] [|y'] Hy; simpl in *; try done; by rewrite Hx, Hy. Qed.
#[export] Instance num_mul_proper : Proper (num_same ==> num_same ==> num_same) num_mul.
Proof. intros [|x] [|x'] Hx [|y] [|y'] Hy; simpl in *; try done; by rewrite Hx, Hy. Qed.
#[export] Instance num_neg_proper : Proper (num_same ==> num_same) num_neg.
Proof. intros [|x] [|x'] Hx; simpl in *; try done; by rewrite Hx. Qed.
#[export] Instance num_eq_proper : Proper (num_same ==> num_same ==> iff) num_eq.
Proof. intros [|x] [|x'] Hx [|y] [|y'] Hy; simpl in *; try done; by rewrite Hx, Hy. Qed.
#[export] Instance num_le_proper : Proper (num_same ==> num_same ==> iff) num_le.
Proof. intros [|x] [|x'] Hx [|y] [|y'] Hy; simpl in *; try done; by rewrite Hx, Hy. Qed.
#[export] Instance num_ge_proper : Proper (num_same ==> num_same ==> iff) num_ge.
Proof. intros x x' Hx y y' Hy. unfold num_ge. by rewrite Hx, Hy. Qed.

(** Goals about numbers, by cases on which of them are [NaN]. *)
Ltac num_cases :=
  repeat match goal with
  | x : num |- _ => destruct x
  end;
  simpl in *; try done; try lra.

Lemma num_nonzero_false x : num_nonzero x = false → num_same x (Fin 0).
Proof.
  destruct x as [|q]; simpl; [done|]. intros H%negb_false_iff. by apply Qeq_bool_iff.
Qed.

(** ** The value of an expression *)

Section Value.

Import LpAffineExpression.

Context (a : string → Q).

Definition term_value (vx : LpVariable.t * num) : num :=
  num_mul (Fin (a (LpVariable.name vx.1))) vx.2.

(** The sum of the terms, from the right. *)
Definition terms_value (l : list (LpVariable.t * num)) : num :=
  foldr (λ vx acc, num_add (term_value vx) acc) (Fin 0) l.

Lemma value_terms e : num_same (value a e) (num_add (constant e) (terms_value (terms e))).
Proof.
  unfold value. generalize (constant e) as c. induction (terms e) as [|vx l IH]; intros c.
  - cbn [foldl terms_value foldr]. destruct c; simpl; done || lra.
  - cbn [foldl terms_value foldr]. rewrite IH. fold (term_value vx). fold (terms_value l).
    generalize (term_value vx) (terms_value l). intros x y. num_cases.
Qed.

Lemma terms_value_app l1 l2 :
  num_same (terms_value (l1 ++ l2)) (num_add (terms_value l1) (terms_value l2)).
Proof.
  induction l1 as [|vx l1 IH]; cbn [app terms_value foldr].
  - fold (terms_value l2). generalize (terms_value l2). intros x. num_cases.
  - fold (terms_value (l1 ++ l2)) (terms_value l1). rewrite IH.
    generalize (term_value vx) (terms_value l1) (terms_value l2).
    intros x y z. num_cases.
Qed.

Lemma same_name k key : LpVariable.same k key = true → LpVariable.name k = LpVariable.name key.
Proof. unfold LpVariable.same. by intros H%String.eqb_eq. Qed.

Lemma set_absent l key x : get l key = None → set l key x = l ++ [(key, x)].
Proof.
  induction l as [|[k y] l IH]; simpl; [done|].
  destruct (LpVariable.same k key); [done|]. intros H. by rewrite IH.
Qed.

Lemma set_present l key y z :
  get l key = Some y →
  num_same (num_add (terms_value (set l key z)) (term_value (key, y)))
           (num_add (terms_value l) (term_value (key, z))).
Proof.
  induction l as [|[k y'] l IH]; cbn [get set]; [done|].
  destruct (LpVariable.same k key) eqn:Hk.
  - intros [= ->]. cbn [terms_value foldr]. fold (terms_value l).
    unfold term_value. cbn [fst snd]. rewrite (same_name _ _ Hk).
    generalize (a (LpVariable.name key)) (terms_value l). intros q s.
    destruct y, z, s; simpl; done || lra.
  - intros Hy. cbn [terms_value foldr]. fold (terms_value l) (terms_value (set l key z)).
    specialize (IH Hy). revert IH.
    generalize (term_value (k, y')) (terms_value (set l key z)) (term_value (key, y))
      (terms_value l) (term_value (key, z)).
    intros. num_cases.
Qed.

Lemma get_nan l key : get l key = Some NaN → terms_value l = NaN.
Proof.
  induction l as [|[k y'] l IH]; cbn [get]; [done|].
  cbn [terms_value foldr]. fold (terms_value l).
  destruct (LpVariable.same k key).
  - intros [= ->]. done.
  - intros ->%IH. unfold term_value. simpl. by destruct y'.
Qed.

Lemma set_nan l key : terms_value (set l key NaN) = NaN.
Proof.
  induction l as [|[k y'] l IH]; cbn [set]; [done|].
  destruct (LpVariable.same k key); cbn [terms_value foldr].
  - done.
  - fold (terms_value (set l key NaN)). rewrite IH. unfold term_value. simpl. by destruct y'.
Qed.

Lemma addterm_value e key x :
  num_same (value a (addterm e key x)) (num_add (value a e) (term_value (key, x))).
Proof.
  rewrite !value_terms. unfold addterm.
  destruct (get (terms e) key) as [y|] eqn:Hget; cbn [default from_option id].
  - destruct (num_nonzero y) eqn:Hy; cbn [terms constant].
    + destruct y as [|y].
      * cbn [num_add]. rewrite set_nan, (get_nan _ _ Hget). by destruct (constant e).
      * pose proof (set_present _ _ _ (num_add (Fin y) x) Hget) as H. revert H.
        unfold term_value. cbn [fst snd].
        generalize (a (LpVariable.name key))
          (terms_value (set (terms e) key (num_add (Fin y) x)))
          (terms_value (terms e)) (constant e).
        intros q s1 s2 c. destruct x, s1, s2, c; simpl; try done; intros; nra.
    + pose proof (set_present _ _ _ x Hget) as H. revert H.
      apply num_nonzero_false in Hy. revert Hy.
      unfold term_value. cbn [fst snd].
      generalize (a (LpVariable.name key)) (terms_value (set (terms e) key x))
        (terms_value (terms e)) (constant e).
      intros q s1 s2 c. destruct y, x, s1, s2, c; simpl; try done; intros; nra.
  - change (num_nonzero (Fin 0)) with false. cbn [terms constant].
    rewrite set_absent by done. rewrite terms_value_app.
    cbn [terms_value foldr].
    generalize (term_value (key, x)) (terms_value (terms e)) (constant e).
    intros. num_cases.
Qed.

Lemma of_var_value v : num_same (value a (of_var v)) (Fin (a (LpVariable.name v))).
Proof. unfold value, of_var. simpl. lra. Qed.

Lemma foldl_addterm_value (g : num → num) e l :
  num_same (value a (foldl (λ e vx, addterm e vx.1 (g vx.2)) e l))
           (num_add (value a e) (terms_value (map (λ vx, (vx.1, g vx.2)) l))).
Proof.
  revert e. induction l as [|vx l IH]; intros e; simpl.
  - generalize (value a e). intros. num_cases.
  - rewrite IH, addterm_value.
    generalize (value a e) (term_value (vx.1, g vx.2))
      (terms_value (map (λ vx0, (vx0.1, g vx0.2)) l)).
    intros. num_cases.
Qed.

End Value.

(** ** The value of sums, differences and products; what a constraint says *)

Section Operators.

Import LpAffineExpression.

Context (a : string → Q).

Lemma terms_value_id l : terms_value a (map (λ vx, (vx.1, vx.2)) l) = terms_value a l.
Proof. f_equal. rewrite <-(map_id l) at 2. apply map_ext. by intros []. Qed.

Lemma terms_value_neg l :
  num_same (terms_value a (map (λ vx, (vx.1, num_neg vx.2)) l)) (num_neg (terms_value a l)).
Proof.
  induction l as [|[v x] l IH]; cbn [map terms_value foldr fst snd].
  - simpl. lra.
  - fold (terms_value a l) (terms_value a (map (λ vx, (vx.1, num_neg vx.2)) l)).
    rewrite IH. unfold term_value. cbn [fst snd].
    generalize (a (LpVariable.name v)) (terms_value a l). intros q s.
    destruct x, s; simpl; done || lra.
Qed.

Lemma value_mk l c : num_same (value a (mk l c)) (num_add c (terms_value a l)).
Proof. apply value_terms. Qed.

Lemma add_value e o :
  num_same (value a (add e o)) (num_add (value a e) (value_operand a o)).
Proof.
  unfold add, addInPlace. destruct o as [v|o|n]; cbn [value_operand].
  - rewrite addterm_value. unfold term_value. cbn [fst snd].
    generalize (value a e) (a (LpVariable.name v)). intros s q. destruct s; simpl; done || lra.
  - rewrite (foldl_addterm_value a (λ x, x)), terms_value_id, value_mk, !value_terms.
    generalize (constant e) (constant o) (terms_value a (terms e)) (terms_value a (terms o)).
    intros. num_cases.
  - rewrite value_mk, value_terms.
    generalize (constant e) (terms_value a (terms e)). intros. num_cases.
Qed.

Lemma sub_value e o :
  num_same (value a (sub e o)) (num_sub (value a e) (value_operand a o)).
Proof.
  unfold sub, subInPlace. destruct o as [v|o|n]; cbn [value_operand].
  - rewrite addterm_value. unfold term_value. cbn [fst snd].
    generalize (value a e) (a (LpVariable.name v)). intros s q. destruct s; simpl; done || lra.
  - rewrite (foldl_addterm_value a num_neg), terms_value_neg, value_mk, !value_terms.
    generalize (constant e) (constant o) (terms_value a (terms e)) (terms_value a (terms o)).
    intros. num_cases.
  - rewrite value_mk, value_terms.
    generalize (constant e) (terms_value a (terms e)). intros. num_cases.
Qed.

Lemma var_mul_value v n :
  num_same (value a (LpElement.mul v n)) (num_mul (Fin (a (LpVariable.name v))) n).
Proof.
  unfold LpElement.mul, mul. destruct (num_nonzero n) eqn:Hn.
  - destruct n as [|n]; [done|]. unfold value. simpl. lra.
  - apply num_nonzero_false in Hn. destruct n as [|n]; [done|].
    simpl in *. rewrite Hn. lra.
Qed.

Lemma var_add_value v o :
  num_same (value a (LpElement.add v o))
           (num_add (Fin (a (LpVariable.name v))) (value_operand a o)).
Proof. unfold LpElement.add. by rewrite add_value, of_var_value. Qed.

Lemma var_sub_value v o :
  num_same (value a (LpElement.sub v o))
           (num_sub (Fin (a (LpVariable.name v))) (value_operand a o)).
Proof. unfold LpElement.sub. by rewrite sub_value, of_var_value. Qed.

(** A constraint built by a comparison holds when the comparison does. *)
Lemma holds_le e o :
  LpConstraint.holds a (LpAffineExpression_le e o) ↔ num_le (value a e) (value_operand a o).
Proof.
  unfold LpConstraint.holds, LpAffineExpression_le. cbn [LpConstraint.expr LpConstraint.sense_of].
  pose proof (sub_value e o) as H. revert H.
  generalize (value a (sub e o)) (value a e) (value_operand a o).
  intros x y z. destruct x, y, z; simpl; try done. intros H. split; lra.
Qed.

Lemma holds_ge e o :
  LpConstraint.holds a (LpAffineExpression_ge e o) ↔ num_ge (value a e) (value_operand a o).
Proof.
  unfold LpConstraint.holds, LpAffineExpression_ge. cbn [LpConstraint.expr LpConstraint.sense_of].
  pose proof (sub_value e o) as H. revert H.
  generalize (value a (sub e o)) (value a e) (value_operand a o).
  intros x y z. destruct x, y, z; simpl; try done. intros H. split; lra.
Qed.

Lemma holds_eq e o :
  LpConstraint.holds a (LpAffineExpression_eq e o) ↔ num_eq (value a e) (value_operand a o).
Proof.
  unfold LpConstraint.holds, LpAffineExpression_eq. cbn [LpConstraint.expr LpConstraint.sense_of].
  pose proof (sub_value e o) as H. revert H.
  generalize (value a (sub e o)) (value a e) (value_operand a o).
  intros x y z. destruct x, y, z; simpl; try done. intros H. split; lra.
Qed.

End Operators.

(** ** What the registered constraints say *)

(** The name of the variable of a family at a time step. *)
Definition var_name (family : string) (t : Z) : string :=
  translate (family +:+ "_" +:+ pretty t).

Section Meaning.

Context (inputs : ScenarioInputs.t) (a : string → Q).

Let sto := ScenarioInputs.storage inputs.
Let level t := Fin (a (var_name "storagelevel" t)).
Let charge t := Fin (a (var_name "charge" t)).
Let discharge t := Fin (a (var_name "discharge" t)).

Lemma c_duration_holds :
  LpConstraint.holds a (c_duration inputs) ↔
  num_ge (Fin (a "capacity")) (num_mul (Storage.minimum_duration sto) (Fin (a "power"))).
Proof.
  unfold c_duration, LpElement.ge, LpElement.rmul. rewrite holds_ge, of_var_value.
  cbn [LpAffineExpression.value_operand]. rewrite var_mul_value.
  fold sto. change (LpVariable.name var_capacity) with "capacity".
  change (LpVariable.name var_power) with "power".
  generalize (Storage.minimum_duration sto) (a "capacity") (a "power").
  intros x q r. destruct x; simpl; [done|]. split; nra.
Qed.

Lemma c_balance_holds t1 t :
  LpConstraint.holds a (c_balance inputs t1 t) ↔
  num_eq (level t1)
         (num_add (num_sub (level t) (discharge t)) (num_mul (Storage.efficiency sto) (charge t))).
Proof.
  unfold c_balance, LpElement.eq, LpElement.rmul. rewrite holds_eq, of_var_value.
  cbn [LpAffineExpression.value_operand]. rewrite add_value, var_sub_value.
  cbn [LpAffineExpression.value_operand]. rewrite var_mul_value.
  fold sto. unfold level, charge, discharge, var_name, var_of. cbn [LpVariable.name LpVariable.new].
  generalize (Storage.efficiency sto). intros x. destruct x; simpl; [done|]. split; nra.
Qed.

Lemma c_available_holds t :
  LpConstraint.holds a (c_available t) ↔ num_ge (level t) (discharge t).
Proof. unfold c_available, LpElement.ge. by rewrite holds_ge, of_var_value. Qed.

Lemma c_charge_holds t :
  LpConstraint.holds a (c_charge t) ↔ num_le (charge t) (Fin (a "power")).
Proof. unfold c_charge, LpElement.le. by rewrite holds_le, of_var_value. Qed.

Lemma c_discharge_holds t :
  LpConstraint.holds a (c_discharge t) ↔ num_le (discharge t) (Fin (a "power")).
Proof. unfold c_discharge, LpElement.le. by rewrite holds_le, of_var_value. Qed.

Lemma c_level_holds t :
  LpConstraint.holds a (c_level t) ↔ num_le (level t) (Fin (a "capacity")).
Proof. unfold c_level, LpElement.le. by rewrite holds_le, of_var_value. Qed.

Lemma c_load_holds t :
  LpConstraint.holds a (c_load inputs t) ↔
  num_ge (num_sub (num_add (series_at (total_of inputs) t) (discharge t)) (charge t))
         (series_at (load_of inputs) t).
Proof.
  unfold c_load, LpElement.radd. rewrite holds_ge, sub_value, var_add_value.
  cbn [LpAffineExpression.value_operand].
  unfold charge, discharge, var_name, var_of. cbn [LpVariable.name LpVariable.new].
  generalize (series_at (total_of inputs) t) (series_at (load_of inputs) t).
  intros x y. destruct x, y; simpl; try done. split; lra.
Qed.

End Meaning.

(** ** The constraints of a built problem *)

Lemma filter_fst_absent {V} (l : list (string * V)) k :
  k ∉ l.*1 → filter (λ kv, kv.1 = k) l = [].
Proof.
  induction l as [|[k' v'] l IH]; [done|]. cbn [fmap list_fmap fst]. intros Hk.
  apply not_elem_of_cons in Hk as [Hne Hk].
  rewrite filter_cons_False by (cbn [fst]; congruence). by apply IH.
Qed.

Lemma NoDup_fst_filter {V} (l : list (string * V)) k v :
  NoDup l.*1 → (k, v) ∈ l → filter (λ kv, kv.1 = k) l = [(k, v)].
Proof.
  induction l as [|[k' v'] l IH]; intros Hnd Hin; [by apply elem_of_nil in Hin|].
  cbn [fmap list_fmap fst] in Hnd. apply NoDup_cons in Hnd as [Hk' Hnd].
  apply elem_of_cons in Hin as [[= <- <-]|Hin].
  - rewrite filter_cons_True by done. f_equal. by apply filter_fst_absent.
  - rewrite filter_cons_False; [by apply IH|].
    cbn [fst]. intros ->. apply Hk'. apply list_elem_of_fmap. by exists (k, v).
Qed.

Lemma foldl_max_init x l : (x ≤ foldl Z.max x l)%Z.
Proof.
  revert x. induction l as [|z l IH]; intros x; simpl; [lia|].
  etrans; [|apply IH]. lia.
Qed.

Lemma foldl_max_ge x l y : y ∈ x :: l → (y ≤ foldl Z.max x l)%Z.
Proof.
  revert x. induction l as [|z l IH]; intros x Hy; simpl.
  - apply list_elem_of_singleton in Hy. lia.
  - apply elem_of_cons in Hy as [->|Hy].
    + etrans; [|apply foldl_max_init]. lia.
    + apply elem_of_cons in Hy as [->|Hy].
      * etrans; [|apply foldl_max_init]. lia.
      * apply IH. by right.
Qed.

Section BuiltProblem.

Context (inputs : ScenarioInputs.t) (m : ScenarioManager.t) (p : LpProblem.t).
Context (Hinit : ScenarioManager.init inputs = Ok m).
Context (Hp : ScenarioManager.lpmodel m = Some p).

Let idx := ScenarioInputs.time_index inputs.

Lemma built_constraints : LpProblem.constraints p = constraints_of inputs.
Proof.
  destruct (init_lpmodel _ _ Hinit) as (p' & Hp' & Hcs & _).
  rewrite Hp in Hp'. by injection Hp' as <-.
Qed.

Lemma built_objective : LpProblem.objective p = Some (objective_of inputs).
Proof.
  destruct (init_lpmodel _ _ Hinit) as (p' & Hp' & _ & Hobj & _).
  rewrite Hp in Hp'. by injection Hp' as <-.
Qed.

Lemma built : built_facts inputs.
Proof. by destruct (init_ok _ _ Hinit). Qed.

(** The largest time step is the last one. *)
Lemma t_max_is_last : t_max_of inputs = List.last idx 0%Z.
Proof.
  destruct built as [_ Hne _ Hmax Hfw _]. fold idx in Hne, Hmax, Hfw.
  destruct (decide (t_max_of inputs ∈ removelast idx)) as [Hin|Hnin].
  - rewrite Forall_forall in Hfw. destruct (Hfw _ Hin) as [Hnext _].
    exfalso. unfold t_max_of in *. fold idx in Hnext, Hin |- *.
    destruct idx as [|x l]; [done|].
    pose proof (foldl_max_ge x l _ Hnext). lia.
  - pose proof (app_removelast_last 0%Z Hne) as Heq.
    rewrite Heq in Hmax. apply elem_of_app in Hmax as [?|Hl]; [done|].
    by apply list_elem_of_singleton in Hl.
Qed.

Lemma removelast_elem_of (t : Z) : t ∈ removelast idx → t ∈ idx.
Proof.
  intros Hin. destruct (decide (idx = [])) as [Heq|Hne].
  - rewrite Heq in Hin. by apply elem_of_nil in Hin.
  - rewrite (app_removelast_last 0%Z Hne). apply elem_of_app. by left.
Qed.

Lemma built_wrap_in :
  (translate ScenarioManager.label_start, c_balance inputs 0 (List.last idx 0%Z)) ∈ LpProblem.constraints p.
Proof.
  rewrite built_constraints, <-t_max_is_last. unfold constraints_of.
  apply elem_of_app. left. apply elem_of_cons. right. apply elem_of_cons. by left.
Qed.

Lemma built_forward_in t :
  t ∈ removelast idx →
  (translate (ScenarioManager.label_balance t), c_balance inputs (t + 1) t) ∈ LpProblem.constraints p.
Proof.
  intros Hin. rewrite built_constraints. unfold constraints_of.
  apply elem_of_app. right. apply elem_of_app. left.
  apply list_elem_of_In, in_flat_map. exists t. split; [by apply list_elem_of_In|].
  by left.
Qed.



End BuiltProblem.

(** The variables of a built manager. *)
Lemma built_vars inputs m :
  ScenarioManager.init inputs = Ok m → ScenarioManager.vars m = Some (vars_of inputs).
Proof. by intros [-> _]%init_ok. Qed.

Lemma vars_of_time inputs t :
  t ∈ ScenarioInputs.time_index inputs →
  ModelVarsTimeDependent.level (ModelVars.time (vars_of inputs)) !! t
  = Some (var_of "storagelevel" t)
  ∧ ModelVarsTimeDependent.charge (ModelVars.time (vars_of inputs)) !! t
    = Some (var_of "charge" t)
  ∧ ModelVarsTimeDependent.discharge (ModelVars.time (vars_of inputs)) !! t
    = Some (var_of "discharge" t).
Proof.
  intros Ht. unfold vars_of. cbn [ModelVars.time ModelVarsTimeDependent.level
    ModelVarsTimeDependent.charge ModelVarsTimeDependent.discharge].
  rewrite !dicts_lookup. by rewrite !decide_True by done.
Qed.

(** The value of a variable under an assignment of values to names. *)
Definition value_of_var (a : string → Q) (v : LpVariable.t) : num :=
  Fin (a (LpVariable.name v)).

(** [c] is the constraint
    [level_next == level - discharge + efficiency * charge]. *)
Definition is_balance (c : LpConstraint.t) (efficiency : num)
    (level_next level discharge charge : LpVariable.t) : Prop :=
  LpConstraint.sense_of c = LpConstraint.LpConstraintEQ
  ∧ ∀ a, LpConstraint.holds a c ↔
         num_eq (value_of_var a level_next)
                (num_add (num_sub (value_of_var a level) (value_of_var a discharge))
                         (num_mul efficiency (value_of_var a charge))).


Lemma c_balance_is_balance inputs t1 t :
  is_balance (c_balance inputs t1 t) (Storage.efficiency (ScenarioInputs.storage inputs))
    (var_of "storagelevel" t1) (var_of "storagelevel" t) (var_of "discharge" t)
    (var_of "charge" t).
Proof. split; [done|]. intros a. apply c_balance_holds. Qed.


(** C2: the built problem has exactly one constraint under the wrap-around
    label; it is the equality
    [level[0] = level[t_max] - discharge[t_max] + efficiency * charge[t_max]]
    on the variables of the manager, with [t_max] the last time step.  For
    the time index [[0]] it says [discharge[0] = efficiency * charge[0]], and
    the constraints are the duration floor, the wrap-around balance and the
    four constraints of step 0: the forward-balance loop adds none. *)
Theorem wrap_around_balance inputs m p :
  ScenarioManager.init inputs = Ok m →
  ScenarioManager.lpmodel m = Some p →
  let idx := ScenarioInputs.time_index inputs in
  let t_max := List.last idx 0%Z in
  let eff := Storage.efficiency (ScenarioInputs.storage inputs) in
  ∃ vars level_0 level_max discharge_max charge_max c,
    ScenarioManager.vars m = Some vars
    ∧ ModelVarsTimeDependent.level (ModelVars.time vars) !! 0%Z = Some level_0
    ∧ ModelVarsTimeDependent.level (ModelVars.time vars) !! t_max = Some level_max
    ∧ ModelVarsTimeDependent.discharge (ModelVars.time vars) !! t_max = Some discharge_max
    ∧ ModelVarsTimeDependent.charge (ModelVars.time vars) !! t_max = Some charge_max
    ∧ filter (λ nc, nc.1 = translate ScenarioManager.label_start) (LpProblem.constraints p)
      = [(translate ScenarioManager.label_start, c)]
    ∧ is_balance c eff level_0 level_max discharge_max charge_max
    ∧ (idx = [0%Z] →
       (∀ a, LpConstraint.holds a c ↔
             num_eq (value_of_var a discharge_max) (num_mul eff (value_of_var a charge_max)))
       ∧ (LpProblem.constraints p).*1
         = translate <$> [ScenarioManager.label_duration; ScenarioManager.label_start;
                          ScenarioManager.label_charge 0; ScenarioManager.label_discharge 0;
                          ScenarioManager.label_level 0; ScenarioManager.label_load 0]).
Proof.
  intros Hinit Hp idx t_max eff.
  pose proof (built _ _ Hinit) as [Hnd _ H0 Hmax _ _].
  rewrite (t_max_is_last _ _ Hinit) in Hmax. fold idx t_max in Hmax.
  destruct (vars_of_time inputs 0 H0) as (Hl0 & _ & _).
  destruct (vars_of_time inputs t_max Hmax) as (Hl & Hc & Hd).
  exists (vars_of inputs), (var_of "storagelevel" 0), (var_of "storagelevel" t_max),
    (var_of "discharge" t_max), (var_of "charge" t_max), (c_balance inputs 0 t_max).
  split_and!; try done.
  - by apply built_vars.
  - apply NoDup_fst_filter; [|by eapply built_wrap_in].
    by rewrite (built_constraints _ _ _ Hinit Hp).
  - apply c_balance_is_balance.
  - intros Hidx. split.
    + intros a. rewrite c_balance_holds. fold eff. unfold t_max, value_of_var, var_name, var_of.
      rewrite Hidx. cbn [List.last LpVariable.name LpVariable.new].
      generalize (a (translate ("storagelevel" +:+ "_" +:+ pretty 0%Z)))
        (a (translate ("discharge" +:+ "_" +:+ pretty 0%Z)))
        (a (translate ("charge" +:+ "_" +:+ pretty 0%Z))).
      intros l d ch. destruct eff; simpl; [done|]. split; nra.
    + rewrite (built_constraints _ _ _ Hinit Hp). unfold constraints_of.
      fold idx. rewrite Hidx. unfold t_max_of. fold idx. by rewrite Hidx.
Qed.

Lemma wrap_around_balance_witness :
  ∃ c,
    filter (λ nc, nc.1 = translate ScenarioManager.label_start)
           (LpProblem.constraints (ex_problem 3))
    = [(translate ScenarioManager.label_start, c)]
    ∧ ∀ a, LpConstraint.holds a c ↔
           num_eq (Fin (a "storagelevel_0"))
                  (num_add (num_sub (Fin (a "storagelevel_2")) (Fin (a "discharge_2")))
                           (num_mul (Fin (9 # 10)) (Fin (a "charge_2")))).
Proof.
  destruct (wrap_around_balance (ex_inputs 3) (ex_manager 3) (ex_problem 3)
              (ex_manager_init 3 ltac:(vm_compute; reflexivity)) eq_refl)
    as (vars & l0 & l & d & ch & c & Hvars & Hl0 & Hl & Hd & Hch & Hone & [_ Hsays] & _).
  vm_compute in Hvars. injection Hvars as <-.
  vm_compute in Hl0. injection Hl0 as <-.
  vm_compute in Hl. injection Hl as <-.
  vm_compute in Hd. injection Hd as <-.
  vm_compute in Hch. injection Hch as <-.
  exists c. split; [exact Hone | exact Hsays].
Defined.

(** C3: for every time step [t] but the last, the built problem has, under
    the forward-balance label of [t], the equality
    [level[t+1] = level[t] - discharge[t] + efficiency * charge[t]] on the
    variables of the manager; the efficiency multiplies the charge only. *)
Theorem forward_balance inputs m p t :
  ScenarioManager.init inputs = Ok m →
  ScenarioManager.lpmodel m = Some p →
  t ∈ removelast (ScenarioInputs.time_index inputs) →
  ∃ vars level_next level discharge charge c,
    ScenarioManager.vars m = Some vars
    ∧ ModelVarsTimeDependent.level (ModelVars.time vars) !! (t + 1)%Z = Some level_next
    ∧ ModelVarsTimeDependent.level (ModelVars.time vars) !! t = Some level
    ∧ ModelVarsTimeDependent.discharge (ModelVars.time vars) !! t = Some discharge
    ∧ ModelVarsTimeDependent.charge (ModelVars.time vars) !! t = Some charge
    ∧ (translate (ScenarioManager.label_balance t), c) ∈ LpProblem.constraints p
    ∧ is_balance c (Storage.efficiency (ScenarioInputs.storage inputs))
        level_next level discharge charge.
Proof.
  intros Hinit Hp Ht.
  pose proof (built _ _ Hinit) as [_ _ _ _ Hfw _]. rewrite Forall_forall in Hfw.
  destruct (Hfw _ Ht) as [Hnext Hin].
  destruct (vars_of_time inputs _ Hnext) as (Hl1 & _ & _).
  destruct (vars_of_time inputs _ Hin) as (Hl & Hc & Hd).
  exists (vars_of inputs), (var_of "storagelevel" (t + 1)), (var_of "storagelevel" t),
    (var_of "discharge" t), (var_of "charge" t), (c_balance inputs (t + 1) t).
  split_and!; try done.
  - by apply built_vars.
  - by eapply built_forward_in.
  - apply c_balance_is_balance.
Qed.

Lemma forward_balance_witness :
  ∃ c,
    (translate (ScenarioManager.label_balance 1), c) ∈ LpProblem.constraints (ex_problem 3)
    ∧ ∀ a, LpConstraint.holds a c ↔
           num_eq (Fin (a "storagelevel_2"))
                  (num_add (num_sub (Fin (a "storagelevel_1")) (Fin (a "discharge_1")))
                           (num_mul (Fin (9 # 10)) (Fin (a "charge_1")))).
Proof.
  destruct (forward_balance (ex_inputs 3) (ex_manager 3) (ex_problem 3) 1%Z
              (ex_manager_init 3 ltac:(vm_compute; reflexivity)) eq_refl
              ltac:(compute_done))
    as (vars & l1 & l & d & ch & c & Hvars & Hl1 & Hl & Hd & Hch & Hin & [_ Hsays]).
  vm_compute in Hvars. injection Hvars as <-.
  vm_compute in Hl1. injection Hl1 as <-.
  vm_compute in Hl. injection Hl as <-.
  vm_compute in Hd. injection Hd as <-.
  vm_compute in Hch. injection Hch as <-.
  exists c. split; [exact Hin | exact Hsays].
Defined.



(** ** The objective *)

Lemma objective_of_terms inputs :
  Forall (λ vx, vx.1 = var_capacity ∨ vx.1 = var_power)
         (LpAffineExpression.terms (objective_of inputs)).
Proof.
  unfold objective_of, LpElement.mul, LpAffineExpression.mul.
  destruct (num_nonzero (Storage.capex_capacity _)), (num_nonzero (Storage.capex_power _));
    cbn; repeat (apply Forall_cons_2; [cbn; auto|]); apply Forall_nil_2.
Qed.

(** C5: the objective registered on the built problem is
    [capacity * capex_capacity + power * capex_power]: its only variables are
    the manager's [capacity] and [power], and on every assignment its value
    is the value of that expression. *)
Theorem objective_is_capital_cost inputs m p :
  ScenarioManager.init inputs = Ok m →
  ScenarioManager.lpmodel m = Some p →
  ∃ vars obj,
    ScenarioManager.vars m = Some vars
    ∧ LpProblem.objective p = Some obj
    ∧ Forall (λ vx, vx.1 = ModelVarsScalar.capacity (ModelVars.scalar vars)
                    ∨ vx.1 = ModelVarsScalar.power (ModelVars.scalar vars))
             (LpAffineExpression.terms obj)
    ∧ ∀ a, num_same (LpAffineExpression.value a obj)
             (num_add
                (num_mul (value_of_var a (ModelVarsScalar.capacity (ModelVars.scalar vars)))
                         (Storage.capex_capacity (ScenarioInputs.storage inputs)))
                (num_mul (value_of_var a (ModelVarsScalar.power (ModelVars.scalar vars)))
                         (Storage.capex_power (ScenarioInputs.storage inputs)))).
Proof.
  intros Hinit Hp. exists (vars_of inputs), (objective_of inputs). split_and!.
  - by apply built_vars.
  - by eapply built_objective.
  - apply objective_of_terms.
  - intros a. unfold objective_of. rewrite add_value.
    cbn [LpAffineExpression.value_operand]. by rewrite !var_mul_value.
Qed.

Lemma objective_is_capital_cost_witness :
  ∃ obj,
    LpProblem.objective (ex_problem 3) = Some obj
    ∧ ∀ a, num_same (LpAffineExpression.value a obj)
             (num_add (num_mul (Fin (a "capacity")) (Fin 1))
                      (num_mul (Fin (a "power")) (Fin 1))).
Proof.
  destruct (objective_is_capital_cost (ex_inputs 3) (ex_manager 3) (ex_problem 3)
              (ex_manager_init 3 ltac:(vm_compute; reflexivity)) eq_refl)
    as (vars & obj & Hvars & Hobj & _ & Hval).
  vm_compute in Hvars. injection Hvars as <-.
  exists obj. split; [exact Hobj | exact Hval].
Defined.

(** ** Solving and the solved flag *)

Lemma solve_run o self p :
  ScenarioManager.lpmodel self = Some p →
  ScenarioManager.solve o self =
  match o with
  | Reports st vals =>
      (Ok tt,
       ScenarioManager.mk (ScenarioManager.inputs self) (ScenarioManager.name self)
         (if (st =? 1)%Z then true else ScenarioManager.solved_status self)
         (ScenarioManager.vars self)
         (Some (LpProblem.mk (LpProblem.name p) (LpProblem.sense p) (LpProblem.objective p)
                  (LpProblem.constraints p) st vals)))
  | Fails e => (Raise e, self)
  end.
Proof.
  intros Hp. unfold ScenarioManager.solve, ScenarioManager.bind, ScenarioManager.get_lpmodel.
  rewrite Hp. destruct o as [st vals|e]; simpl; [|done].
  by destruct (st =? 1)%Z.
Qed.

(** C6: after [solve()] on a freshly constructed manager, the solved flag is
    true exactly when the solver reported the optimal status; with any other
    status, and when the solver raised, the flag is false. *)
Theorem solve_sets_flag_iff_optimal inputs m o :
  ScenarioManager.init inputs = Ok m →
  ScenarioManager.solved_status m = false
  ∧ (ScenarioManager.solved_status (state_after (ScenarioManager.solve o) m) = true
     ↔ ∃ values, o = Reports LpStatusOptimal values)
  ∧ ((∀ values, o ≠ Reports LpStatusOptimal values) →
     ScenarioManager.solved_status (state_after (ScenarioManager.solve o) m) = false).
Proof.
  intros Hinit. pose proof (init_solved_status _ _ Hinit) as Hflag.
  destruct (init_lpmodel _ _ Hinit) as (p & Hp & _).
  assert (ScenarioManager.solved_status (state_after (ScenarioManager.solve o) m) = true
          ↔ ∃ values, o = Reports LpStatusOptimal values) as Hiff.
  { unfold state_after. rewrite (solve_run _ _ _ Hp).
    destruct o as [st vals|e]; simpl.
    - destruct (Z.eqb_spec st 1) as [->|Hne].
      + split; [eauto|done].
      + rewrite Hflag. split; [done|]. intros [values [= ? ?]]. by subst st.
    - rewrite Hflag. split; [done|]. by intros [values ?]. }
  split_and!; [done..|].
  intros Hnot. apply not_true_is_false. intros Hs.
  apply Hiff in Hs as [values ->]. by destruct (Hnot values).
Qed.

Lemma solve_sets_flag_iff_optimal_witness :
  ScenarioManager.solved_status
    (state_after (ScenarioManager.solve (Reports LpStatusOptimal ∅)) (ex_manager 3)) = true
  ∧ ScenarioManager.solved_status
      (state_after (ScenarioManager.solve (Reports LpStatusInfeasible ∅)) (ex_manager 3)) = false.
Proof.
  split.
  - apply (solve_sets_flag_iff_optimal (ex_inputs 3) (ex_manager 3) (Reports LpStatusOptimal ∅)
             (ex_manager_init 3 ltac:(vm_compute; reflexivity))).
    by exists ∅.
  - apply (solve_sets_flag_iff_optimal (ex_inputs 3) (ex_manager 3)
             (Reports LpStatusInfeasible ∅)
             (ex_manager_init 3 ltac:(vm_compute; reflexivity))).
    intros values. discriminate.
Defined.

(** C10: no method of the manager lowers the solved flag.  Whatever is called
    on a manager whose flag is true -- later [solve()] calls with any
    outcome among them -- the flag is still true afterwards. *)
Theorem solved_flag_monotone self cs :
  ScenarioManager.solved_status self = true →
  ScenarioManager.solved_status (run_calls cs self) = true.
Proof.
  revert self. induction cs as [|c cs IH]; intros self Hs; simpl; [done|].
  apply IH. by apply (method_flag c self).
Qed.

Lemma solved_flag_monotone_witness :
  ScenarioManager.solved_status
    (run_calls [Solve (Reports LpStatusInfeasible ∅); VerifySolve;
                Solve (Reports LpStatusUndefined ∅); Solve (Fails (PulpError "no solver"))]
       (state_after (ScenarioManager.solve (Reports LpStatusOptimal ∅)) (ex_manager 1)))
  = true.
Proof.
  apply (solved_flag_monotone
           (state_after (ScenarioManager.solve (Reports LpStatusOptimal ∅)) (ex_manager 1))).
  reflexivity.
Defined.

(** ** Errors of the solve state *)

Lemma verify_solve_run self p :
  ScenarioManager.lpmodel self = Some p →
  ScenarioManager.verify_solve self =
  (if negb (LpProblem.status p =? 1)%Z
   then Raise (Exception "Model has not solved") else Ok tt, self).
Proof.
  intros Hp. unfold ScenarioManager.verify_solve, ScenarioManager.bind,
    ScenarioManager.get_lpmodel.
  rewrite Hp. by destruct (LpProblem.status p =? 1)%Z.
Qed.

(** X15: on a manager that has its problem, [verify_solve()] raises the
    error "Model has not solved" exactly when the status of the problem (the
    one the last solve reported) is not optimal, returns when it is optimal,
    and changes nothing; reading the design results fails, on an assertion,
    exactly when the solved flag is false. *)
Theorem solve_state_errors self p :
  ScenarioManager.lpmodel self = Some p →
  (outcome_of ScenarioManager.verify_solve self = Raise (Exception "Model has not solved")
   ↔ LpProblem.status p ≠ LpStatusOptimal)
  ∧ (LpProblem.status p = LpStatusOptimal →
     outcome_of ScenarioManager.verify_solve self = Ok tt)
  ∧ state_after ScenarioManager.verify_solve self = self
  ∧ (results_analysis.get_design_results self = Raise AssertionError
     ↔ ScenarioManager.solved_status self = false)
  ∧ (ScenarioManager.solved_status self = true →
     is_ok (results_analysis.get_design_results self) = true).
Proof.
  intros Hp. unfold outcome_of, state_after. rewrite (verify_solve_run _ _ Hp).
  unfold LpStatusOptimal. cbn [fst snd].
  unfold results_analysis.get_design_results, results_analysis.get_lpmodel. rewrite Hp.
  destruct (Z.eqb_spec (LpProblem.status p) 1) as [Hst|Hst];
    destruct (ScenarioManager.solved_status self); simpl; split_and!; try done.
Qed.

Lemma solve_state_errors_witness :
  outcome_of ScenarioManager.verify_solve
    (state_after (ScenarioManager.solve (Reports LpStatusInfeasible ∅)) (ex_manager 1))
  = Raise (Exception "Model has not solved")
  ∧ outcome_of ScenarioManager.verify_solve
      (state_after (ScenarioManager.solve (Reports LpStatusOptimal ∅)) (ex_manager 1))
    = Ok tt.
Proof.
  split.
  - eapply (solve_state_errors
              (state_after (ScenarioManager.solve (Reports LpStatusInfeasible ∅)) (ex_manager 1))).
    + reflexivity.
    + simpl. discriminate.
  - eapply (solve_state_errors
              (state_after (ScenarioManager.solve (Reports LpStatusOptimal ∅)) (ex_manager 1))).
    + reflexivity.
    + reflexivity.
Defined.

(** A solver that reports "infeasible" and leaves every variable at zero. *)
Definition ex_infeasible : SolverOutcome :=
  Reports LpStatusInfeasible
    (list_to_map [("capacity", Fin 0); ("power", Fin 0); ("storagelevel_0", Fin 0);
                  ("charge_0", Fin 0); ("discharge_0", Fin 0)]).

(** C7: the code on a scenario of one step whose solve reported "infeasible".
    [verify_solve()] raises "Model has not solved" and reading the design
    results fails on its assertion, but reading the operational results,
    which has no such guard, returns a table. *)
Lemma read_results_unsolved_returns :
  let m := state_after (ScenarioManager.solve ex_infeasible) (ex_manager 1) in
  ScenarioManager.init (ex_inputs 1) = Ok (ex_manager 1)
  ∧ LpProblem.status <$> ScenarioManager.lpmodel m = Some LpStatusInfeasible
  ∧ LpStatusInfeasible ≠ LpStatusOptimal
  ∧ outcome_of ScenarioManager.verify_solve m = Raise (Exception "Model has not solved")
  ∧ results_analysis.get_design_results m = Raise AssertionError
  ∧ results_analysis.get_operational_batteryflow_results m
    = Ok (list_to_map [((0%Z, "storagelevel"), Some (Fin 0));
                       ((0%Z, "charge"), Some (Fin 0));
                       ((0%Z, "discharge"), Some (Fin 0))]).
Proof.
  split_and!; [by vm_compute | by vm_compute | done | by vm_compute | by vm_compute |].
  match goal with |- _ = ?r => vm_cast_no_check (@eq_refl _ r) end.
Qed.

(** ** Checking the inputs *)

Lemma SFcompare_refl a : a ≠ S754_nan → SFcompare a a = Some Eq.
Proof.
  destruct a as [s|s| |s m e]; try done; intros _; simpl.
  - by destruct s.
  - rewrite Z.compare_refl, Pos.compare_cont_refl. by destruct s.
Qed.

Lemma SFcompare_antisym a b : SFcompare b a = CompOpp <$> SFcompare a b.
Proof.
  destruct a as [s|s| |s m e], b as [s'|s'| |s' m' e']; simpl; try done;
    try (by destruct s); try (by destruct s'); try (by destruct s, s').
  destruct s, s'; try done; rewrite (Z.compare_antisym e e');
    destruct (e ?= e')%Z eqn:He; simpl; try done;
    rewrite !Pos.compare_cont_spec, (Pos.compare_antisym m m'); simpl;
    by destruct (m ?= m')%positive.
Qed.

(** A float is missing exactly when it is NaN. *)
Lemma isna_nan x : isna x = true ↔ x = nan.
Proof.
  split; [|by intros ->].
  unfold isna, is_nan. rewrite FloatAxioms.eqb_spec. intros H. apply Prim2SF_inj.
  change (Prim2SF nan) with S754_nan.
  destruct (Prim2SF x) as [s|s| |s m e] eqn:Hx; [..|done|];
    unfold SFeqb in H; by rewrite SFcompare_refl in H.
Qed.

Lemma isna_false x : isna x = false ↔ x ≠ nan.
Proof. rewrite <-isna_nan. by destruct (isna x). Qed.

Lemma Prim2SF_nan x : Prim2SF x = S754_nan → x = nan.
Proof. intros H. apply Prim2SF_inj. by rewrite H. Qed.

(** For numbers, [x < y] fails exactly when [y <= x]. *)
Lemma ltb_false_leb x y :
  isna x = false → isna y = false →
  PrimFloat.ltb x y = false ↔ PrimFloat.leb y x = true.
Proof.
  intros Hx%isna_false Hy%isna_false. rewrite ltb_spec, leb_spec.
  assert (Prim2SF x ≠ S754_nan) as Hx' by (by intros ?%Prim2SF_nan).
  assert (Prim2SF y ≠ S754_nan) as Hy' by (by intros ?%Prim2SF_nan).
  unfold SFltb, SFleb. rewrite (SFcompare_antisym (Prim2SF x) (Prim2SF y)).
  destruct (SFcompare (Prim2SF x) (Prim2SF y)) as [[]|] eqn:Hc; simpl; try done.
  exfalso. destruct (Prim2SF x), (Prim2SF y); try done.
Qed.



Lemma mul_nan_l y : PrimFloat.mul nan y = nan.
Proof. apply Prim2SF_inj. by rewrite mul_spec. Qed.

Lemma mul_nan_r y : PrimFloat.mul y nan = nan.
Proof.
  apply Prim2SF_inj. rewrite mul_spec. change (Prim2SF nan) with S754_nan.
  unfold SF64mul. by destruct (Prim2SF y).
Qed.

Lemma series_isna_sum_pos (s : Series) : series_isna_sum s ≠ 0%nat ↔ nan ∈ s.
Proof.
  unfold series_isna_sum. induction s as [|x s IH].
  - split; [done | by intros ?%elem_of_nil].
  - destruct (isna x) eqn:Hx.
    + rewrite filter_cons_True by done. apply isna_nan in Hx as ->.
      split; [by left | done].
    + rewrite filter_cons_False by (by rewrite Hx). rewrite IH.
      apply isna_false in Hx. split; [by right|]. by intros [|]%elem_of_cons.
Qed.

Lemma df_isna_sum_sum_pos df :
  df_isna_sum_sum df ≠ 0%nat ↔ ∃ col, col ∈ df_columns df ∧ nan ∈ col.2.
Proof.
  unfold df_isna_sum_sum. induction (df_columns df) as [|c cols IH]; simpl.
  - split; [done|]. intros (col & Hin & _). by apply elem_of_nil in Hin.
  - split.
    + intros H. destruct (decide (series_isna_sum c.2 = 0%nat)) as [Hc|Hc].
      * destruct (proj1 IH) as (col & Hin & Hnan); [lia|].
        exists col. split; [by right | done].
      * exists c. split; [by left | by apply series_isna_sum_pos].
    + intros (col & Hin & Hnan). apply elem_of_cons in Hin as [->|Hin].
      * apply series_isna_sum_pos in Hnan. lia.
      * assert (foldr (λ c acc, (series_isna_sum c.2 + acc)%nat) 0%nat cols ≠ 0%nat)
          by (apply IH; by exists col).
        lia.
Qed.

(** What [verify_inputs()] returns, from its three assertions. *)
Lemma verify_inputs_outcome self total :
  let inputs := ScenarioManager.inputs self in
  let generation := Renewables.generation (ScenarioInputs.renewables inputs) in
  let load := Load.load (ScenarioInputs.load inputs) in
  df_getitem generation "Total" = Ok total →
  outcome_of ScenarioManager.verify_inputs self
  = if PrimFloat.ltb (series_mean load) (series_mean total)
       && (df_isna_sum_sum generation =? 0)%nat && (series_isna_sum load =? 0)%nat
    then Ok tt else Raise AssertionError.
Proof.
  intros inputs generation load Htotal.
  unfold outcome_of, ScenarioManager.verify_inputs, ScenarioManager.bind,
    ScenarioManager.get_inputs, ScenarioManager.lift. fold inputs generation load.
  rewrite Htotal.
  by destruct (PrimFloat.ltb _ _), (df_isna_sum_sum generation =? 0)%nat,
    (series_isna_sum load =? 0)%nat.
Qed.

(** C8: on a manager whose generation table has its [Total] column,
    [verify_inputs()] fails (on an assertion) exactly when the mean of the
    load is not below the mean of the total generation, or the generation
    table has a missing value, or the load has one; otherwise it returns.
    The means are the floats pandas computes, and for means that are numbers
    "not below" is [>=].  It leaves the manager, and so the problem and its
    status, as they were: nothing is handed to the solver. *)
Theorem verify_inputs_raises_iff self total :
  let inputs := ScenarioManager.inputs self in
  let generation := Renewables.generation (ScenarioInputs.renewables inputs) in
  let load := Load.load (ScenarioInputs.load inputs) in
  let mean_load := series_mean load in
  let mean_total := series_mean total in
  let mean_load_not_below := PrimFloat.ltb mean_load mean_total = false in
  let generation_has_missing := ∃ col, col ∈ df_columns generation ∧ nan ∈ col.2 in
  let load_has_missing := nan ∈ load in
  df_getitem generation "Total" = Ok total →
  (outcome_of ScenarioManager.verify_inputs self = Raise AssertionError
   ↔ mean_load_not_below ∨ generation_has_missing ∨ load_has_missing)
  ∧ (isna mean_load = false → isna mean_total = false →
     (mean_load_not_below ↔ PrimFloat.leb mean_total mean_load = true))
  ∧ (¬ (mean_load_not_below ∨ generation_has_missing ∨ load_has_missing) →
     outcome_of ScenarioManager.verify_inputs self = Ok tt)
  ∧ state_after ScenarioManager.verify_inputs self = self.
Proof.
  intros inputs generation load mean_load mean_total Hmean Hgen Hload Htotal.
  assert (state_after ScenarioManager.verify_inputs self = self) as Hstate.
  { symmetry. apply verify_inputs_reads. }
  rewrite (verify_inputs_outcome self total Htotal). fold inputs generation load.
  fold mean_load mean_total.
  assert (Hgen ↔ (df_isna_sum_sum generation =? 0)%nat = false) as HB2.
  { rewrite Nat.eqb_neq, df_isna_sum_sum_pos. done. }
  assert (Hload ↔ (series_isna_sum load =? 0)%nat = false) as HB3.
  { rewrite Nat.eqb_neq, series_isna_sum_pos. done. }
  split_and!; [| |
    |done].
  - unfold Hmean.
    destruct (PrimFloat.ltb mean_load mean_total);
      destruct (df_isna_sum_sum generation =? 0)%nat;
      destruct (series_isna_sum load =? 0)%nat; simpl; split; try done; try tauto.
    intros [H|[H%HB2|H%HB3]]; done.
  - intros Hl Ht. by apply ltb_false_leb.
  - unfold Hmean. intros Hnone.
    destruct (PrimFloat.ltb mean_load mean_total); [|tauto].
    destruct (df_isna_sum_sum generation =? 0)%nat; [|tauto].
    destruct (series_isna_sum load =? 0)%nat; [done|tauto].
Qed.

(** A load and a total generation whose means are the same float: the exact
    mean of the load, 0.15, is below the exact mean of the generation. *)
Definition ex_equal_means : ScenarioManager.t :=
  ScenarioManager.mk
    (ScenarioInputs.mk "example" 0 [0; 1]%Z
       (Renewables.mk [] [] DataFrame_empty
          (mkDataFrame 2 [("Total", [0x1.3333333333334p-3; 0x1.3333333333334p-3]%float)]))
       (Load.mk 1 [0x1.999999999999ap-4; 0x1.999999999999ap-3]%float
                  [0x1.999999999999ap-4; 0x1.999999999999ap-3]%float)
       ex_storage)
    "example" false None None.

Lemma verify_inputs_raises_iff_witness :
  (outcome_of ScenarioManager.verify_inputs (ex_manager 3) = Ok tt
   ∧ state_after ScenarioManager.verify_inputs (ex_manager 3) = ex_manager 3)
  ∧ outcome_of ScenarioManager.verify_inputs ex_equal_means = Raise AssertionError.
Proof.
  split.
  - destruct (verify_inputs_raises_iff (ex_manager 3) (replicate 3 100%float) eq_refl)
      as (_ & _ & Hok & Hstate).
    split; [|exact Hstate]. apply Hok. intros [H|[(col & Hin & Hnan)|Hnan]].
    + by vm_compute in H.
    + cbn in Hin. repeat (apply elem_of_cons in Hin as [->|Hin]);
        [..|by apply elem_of_nil in Hin]; cbn in Hnan;
        repeat (apply elem_of_cons in Hnan as [Hnan|Hnan]; [by vm_compute in Hnan|]);
        by apply elem_of_nil in Hnan.
    + cbn in Hnan.
      repeat (apply elem_of_cons in Hnan as [Hnan|Hnan]; [by vm_compute in Hnan|]).
      by apply elem_of_nil in Hnan.
  - apply (verify_inputs_raises_iff ex_equal_means
             [0x1.3333333333334p-3; 0x1.3333333333334p-3]%float eq_refl).
    left. vm_compute. reflexivity.
Defined.

(** ** The renewables aggregator *)

Lemma reindex_id n (s : Series) : length s = n → reindex n s = s.
Proof.
  intros <-. unfold reindex. rewrite firstn_all, Nat.sub_diag. simpl. apply app_nil_r.
Qed.

Lemma assoc_set_fresh {V} (l : list (string * V)) k v :
  k ∉ l.*1 → assoc_set l k v = l ++ [(k, v)].
Proof.
  induction l as [|[k' v'] l IH]; [done|]. cbn [fmap list_fmap fst]. intros Hk.
  apply not_elem_of_cons in Hk as [Hne Hk]. simpl.
  destruct (String.eqb_spec k' k); [congruence|]. by rewrite IH.
Qed.

Lemma assoc_get_NoDup {V} (l : list (string * V)) k v :
  NoDup l.*1 → (k, v) ∈ l → assoc_get l k = Some v.
Proof.
  induction l as [|[k' v'] l IH]; intros Hnd Hin; [by apply elem_of_nil in Hin|].
  cbn [fmap list_fmap fst] in Hnd. apply NoDup_cons in Hnd as [Hk' Hnd]. simpl.
  apply elem_of_cons in Hin as [[= <- <-]|Hin].
  - by rewrite String.eqb_refl.
  - destruct (String.eqb_spec k' k) as [->|Hne]; [|by apply IH].
    destruct Hk'. apply list_elem_of_fmap. by exists (k, v).
Qed.

Lemma assoc_get_Some_elem_of {V} (l : list (string * V)) k v :
  assoc_get l k = Some v → (k, v) ∈ l.
Proof.
  induction l as [|[k' v'] l IH]; [done|]. simpl.
  destruct (String.eqb_spec k' k) as [->|Hne].
  - intros [= ->]. by left.
  - intros H. right. by apply IH.
Qed.

Section Aggregator.

Context (profiles : DataFrame).
Context (Hrect : df_rect profiles = true).

(** The column of a technology: its profile times its capacity. *)
Definition technology_column (nc : string * float) : string * Series :=
  (nc.1, series_mul (default [] (assoc_get (df_columns profiles) nc.1)) nc.2).

Definition generation_after (done : list (string * float)) : DataFrame :=
  mkDataFrame (match done with [] => 0 | _ => df_len profiles end)
              (technology_column <$> done).

Lemma profile_column_length name col :
  assoc_get (df_columns profiles) name = Some col → length col = df_len profiles.
Proof.
  intros Hcol%assoc_get_Some_elem_of. unfold df_rect in Hrect.
  rewrite forallb_forall in Hrect. apply list_elem_of_In, Hrect in Hcol.
  by apply Nat.eqb_eq in Hcol.
Qed.

Lemma technology_column_length nc :
  is_Some (assoc_get (df_columns profiles) nc.1) →
  length (technology_column nc).2 = df_len profiles.
Proof.
  intros [col Hcol]. unfold technology_column, series_mul. cbn [snd].
  rewrite Hcol. cbn [default from_option id]. rewrite length_map.
  by eapply profile_column_length.
Qed.

Lemma generation_loop done rest :
  NoDup (done ++ rest).*1 →
  Forall (λ nc, is_Some (assoc_get (df_columns profiles) nc.1)) (done ++ rest) →
  for_each (λ generation '(name, capacity),
              rbind (df_getitem profiles name) (λ col,
                Ok (df_setitem generation name (series_mul col capacity))))
           rest (generation_after done)
  = Ok (generation_after (done ++ rest)).
Proof.
  revert done. induction rest as [|[name capacity] rest IH]; intros done Hnd Hcols.
  - by rewrite app_nil_r.
  - cbn [for_each].
    assert (is_Some (assoc_get (df_columns profiles) name)) as [col Hcol].
    { rewrite Forall_app, Forall_cons in Hcols. by destruct Hcols as (_ & ? & _). }
    cbv beta iota.
    assert (df_getitem profiles name = Ok col) as ->
      by (unfold df_getitem; by rewrite Hcol).
    cbn [rbind].
    assert (df_setitem (generation_after done) name (series_mul col capacity)
            = generation_after (done ++ [(name, capacity)])) as ->.
    { unfold df_setitem, generation_after. cbn [df_len df_columns].
      assert (length (series_mul col capacity) = df_len profiles) as Hlen.
      { unfold series_mul. rewrite length_map. by eapply profile_column_length. }
      assert ((if (match done with [] => 0 | _ => df_len profiles end =? 0)%nat
               then length (series_mul col capacity)
               else match done with [] => 0 | _ => df_len profiles end)%nat
              = df_len profiles) as ->.
      { rewrite Hlen. destruct done; [done|]. by destruct (Nat.eqb_spec (df_len profiles) 0). }
      f_equal.
      - by destruct done.
      - assert ((λ c : string * Series, (c.1, reindex (df_len profiles) c.2))
                  <$> (technology_column <$> done) = technology_column <$> done) as Hsame.
        { rewrite <-list_fmap_compose. apply list_fmap_ext. intros i nc Hnc.
          unfold compose. rewrite reindex_id; [by destruct (technology_column nc)|].
          apply technology_column_length.
          rewrite Forall_app in Hcols. destruct Hcols as [Hdone _].
          rewrite Forall_forall in Hdone. apply Hdone. by eapply list_elem_of_lookup_2. }
        change (map ?f ?l) with (f <$> l). rewrite Hsame.
        rewrite reindex_id by done. rewrite assoc_set_fresh.
        + rewrite fmap_app. cbn [fmap list_fmap]. unfold technology_column at 3.
          cbn [fst snd]. by rewrite Hcol.
        + rewrite <-list_fmap_compose.
          rewrite fmap_app in Hnd. apply NoDup_app in Hnd as (_ & Hfresh & _).
          intros Hin. apply (Hfresh name).
          * apply list_elem_of_fmap in Hin as (nc & -> & Hin).
            apply list_elem_of_fmap. by exists nc.
          * by left. }
    replace (done ++ (name, capacity) :: rest) with ((done ++ [(name, capacity)]) ++ rest)
      in * by (by rewrite <-app_assoc).
    by apply IH.
Qed.

End Aggregator.

Lemma generation_total_column profiles capacities :
  df_rect profiles = true →
  "Total" ∉ capacities.*1 →
  Forall (λ nc, is_Some (assoc_get (df_columns profiles) nc.1)) capacities →
  let generation := generation_after profiles capacities in
  df_setitem generation "Total" (df_sum_axis1 generation)
  = mkDataFrame (df_len generation)
      (df_columns generation
       ++ [("Total", row_sum (df_columns generation) <$> seq 0 (df_len generation))]).
Proof.
  intros Hrect Hfresh Hcols generation.
  unfold df_setitem, df_sum_axis1.
  set (sums := map (row_sum (df_columns generation)) (seq 0 (df_len generation))).
  assert (length sums = df_len generation) as Hlen.
  { unfold sums. by rewrite length_map, length_seq. }
  assert ((if (df_len generation =? 0)%nat then length sums else df_len generation)
          = df_len generation) as ->.
  { rewrite Hlen. by destruct (df_len generation =? 0)%nat. }
  f_equal.
  assert (map (λ c : string * Series, (c.1, reindex (df_len generation) c.2))
              (df_columns generation) = df_columns generation) as ->.
  { unfold generation, generation_after. cbn [df_len df_columns].
    destruct capacities as [|nc capacities']; [done|].
    change (map ?f ?l) with (f <$> l).
    rewrite <-list_fmap_compose. apply list_fmap_ext. intros i nc' Hnc'.
    unfold compose. rewrite reindex_id; [by destruct (technology_column _ nc')|].
    apply technology_column_length; [done|].
    rewrite Forall_forall in Hcols. apply Hcols. by eapply list_elem_of_lookup_2. }
  rewrite reindex_id by done. apply assoc_set_fresh.
  unfold generation, generation_after. cbn [df_columns].
  rewrite <-list_fmap_compose. intros Hin. apply Hfresh.
  apply list_elem_of_fmap in Hin as (nc & -> & Hin).
  apply list_elem_of_fmap. by exists nc.
Qed.

Lemma series_mul_lookup (col : Series) c i x :
  col !! i = Some x → series_mul col c !! i = Some (x * c)%float.
Proof.
  intros Hx. unfold series_mul. change (map ?f ?l) with (f <$> l).
  by rewrite list_lookup_fmap, Hx.
Qed.

(** A row of the technology columns, added up cell by cell. *)
Lemma row_sum_technology profiles capacities cells i acc :
  Forall2 (λ nc x, ∃ col, df_getitem profiles nc.1 = Ok col ∧ col !! i = Some x)
          capacities cells →
  foldl (λ acc c, (acc + fillna0 (default nan (c.2 !! i)))%float) acc
        (technology_column profiles <$> capacities)
  = foldl (λ acc y, (acc + (if PrimFloat.is_nan y then 0 else y))%float) acc
          (zip_with (λ x nc, (x * nc.2)%float) cells capacities).
Proof.
  intros Hcells. revert acc.
  induction Hcells as [|[name capacity] x capacities cells (col & Hcol & Hx) _ IH];
    intros acc; [done|].
  cbn [fmap list_fmap zip_with foldl]. rewrite <-IH. f_equal.
  unfold technology_column. cbn [fst snd] in *. unfold df_getitem in Hcol.
  destruct (assoc_get (df_columns profiles) name) as [col'|]; [|done].
  injection Hcol as ->. cbn [default from_option id].
  by rewrite (series_mul_lookup col capacity i x Hx).
Qed.

(** C9: the aggregator fails (on an assertion) when the set of names is not
    the set of keys of the capacities, or when "Total" is a name.  Otherwise,
    for a profile table that has a column for every name, it returns a table
    with the rows of the profile table whose columns are, in the order of
    the capacities, the technologies and then "Total": cell [i] of a
    technology is cell [i] of its profile column times its capacity, as
    floats, and cell [i] of "Total" is the sum of the technology cells of row
    [i], from left to right, a missing cell counting as 0. *)
Theorem calculate_generation_spec names capacities profiles :
  let keys := capacities.*1 in
  (list_to_set names ≠@{gset string} list_to_set keys ∨ "Total" ∈ names →
   Renewables.calculate_generation names capacities profiles = Raise AssertionError)
  ∧ (list_to_set names =@{gset string} list_to_set keys →
     "Total" ∉ names →
     NoDup keys →
     df_rect profiles = true →
     (∀ name, name ∈ names → is_Some (assoc_get (df_columns profiles) name)) →
     ∃ generation total,
       Renewables.calculate_generation names capacities profiles = Ok generation
       ∧ (df_columns generation).*1 = keys ++ ["Total"]
       ∧ df_len generation = match capacities with [] => 0%nat | _ => df_len profiles end
       ∧ (∀ name capacity, (name, capacity) ∈ capacities →
          ∃ col column,
            df_getitem profiles name = Ok col
            ∧ df_getitem generation name = Ok column
            ∧ length column = length col
            ∧ ∀ i x, col !! i = Some x → column !! i = Some (x * capacity)%float)
       ∧ df_getitem generation "Total" = Ok total
       ∧ length total = df_len generation
       ∧ ∀ i cells,
           (i < df_len generation)%nat →
           Forall2 (λ nc x, ∃ col, df_getitem profiles nc.1 = Ok col ∧ col !! i = Some x)
                   capacities cells →
           total !! i
           = Some (foldl (λ acc y, (acc + (if PrimFloat.is_nan y then 0 else y))%float)
                         (-0)%float
                         (zip_with (λ x nc, (x * nc.2)%float) cells capacities))).
Proof.
  intros keys. split.
  - intros Hbad. unfold Renewables.calculate_generation. fold keys.
    destruct (decide (list_to_set names =@{gset string} list_to_set keys)) as [Heq|Hne].
    + rewrite bool_decide_eq_true_2 by done. cbn [assert_ rbind].
      destruct Hbad as [?|Hin]; [done|]. by rewrite bool_decide_eq_true_2.
    + by rewrite bool_decide_eq_false_2.
  - intros Heq Htotal Hnd Hrect Hprof.
    assert (∀ name, name ∈ keys ↔ name ∈ names) as Hkeys.
    { intros name. rewrite <-(elem_of_list_to_set (C:=gset string) name keys), <-Heq.
      apply elem_of_list_to_set. }
    assert (Forall (λ nc, is_Some (assoc_get (df_columns profiles) nc.1)) capacities)
      as Hcols.
    { apply Forall_forall. intros nc Hnc. apply Hprof, Hkeys.
      apply list_elem_of_fmap. by exists nc. }
    assert ("Total" ∉ keys) as Hfresh by (by rewrite Hkeys).
    set (technology := technology_column profiles <$> capacities).
    set (n := df_len (generation_after profiles capacities)).
    set (total := row_sum technology <$> seq 0 n).
    assert (technology.*1 = keys) as Hnames.
    { unfold technology, keys. rewrite <-list_fmap_compose. by apply list_fmap_ext. }
    assert (NoDup (technology ++ [("Total", total)]).*1) as Hnd'.
    { rewrite fmap_app, Hnames. cbn [fmap list_fmap fst]. apply NoDup_app.
      split_and!; [done| |apply NoDup_singleton].
      intros k Hk ->%list_elem_of_singleton. done. }
    exists (mkDataFrame n (technology ++ [("Total", total)])), total.
    split_and!.
    + unfold Renewables.calculate_generation. fold keys.
      rewrite bool_decide_eq_true_2 by done. cbn [assert_ rbind].
      rewrite bool_decide_eq_false_2 by done. cbn [negb assert_ rbind].
      pose proof (generation_loop profiles Hrect [] capacities) as Hloop.
      cbn [app] in Hloop. change (generation_after profiles []) with DataFrame_empty in Hloop.
      rewrite Hloop by done. cbn [rbind]. f_equal.
      by apply generation_total_column.
    + cbn [df_columns]. by rewrite fmap_app, Hnames.
    + done.
    + intros name capacity Hin.
      assert (is_Some (assoc_get (df_columns profiles) name)) as [col Hcol].
      { rewrite Forall_forall in Hcols. apply (Hcols (name, capacity) Hin). }
      assert ((name, series_mul col capacity) ∈ technology) as Htech.
      { apply list_elem_of_fmap. exists (name, capacity). split; [|done].
        unfold technology_column. cbn [fst snd]. by rewrite Hcol. }
      exists col, (series_mul col capacity). split_and!.
      * unfold df_getitem. by rewrite Hcol.
      * unfold df_getitem. cbn [df_columns].
        rewrite (assoc_get_NoDup _ name (series_mul col capacity)); [done|done|].
        apply elem_of_app. by left.
      * unfold series_mul. by rewrite length_map.
      * intros i x. apply series_mul_lookup.
    + unfold df_getitem. cbn [df_columns].
      rewrite (assoc_get_NoDup _ "Total" total); [done|done|].
      apply elem_of_app. right. by left.
    + cbn [df_len]. unfold total. by rewrite length_fmap, length_seq.
    + cbn [df_len]. intros i cells Hi Hcells. unfold total.
      rewrite list_lookup_fmap, lookup_seq_lt by done. cbn [fmap option_fmap option_map Nat.add].
      f_equal. unfold row_sum, technology. by apply row_sum_technology.
Qed.

(** Two technologies: a product that is rounded, a missing profile value,
    and a product that is too large for a float. *)
Definition ex_two_profiles : DataFrame :=
  mkDataFrame 2 [("Solar", [0x1.999999999999ap-4; nan]%float);
                 ("Wind", [0x1p1023; 2]%float)].

Lemma calculate_generation_spec_witness :
  Renewables.calculate_generation ["Total"] [("Total", 100%float)] (ex_profiles 3)
  = Raise AssertionError
  ∧ Renewables.calculate_generation ["Solar"] [("Solar", 100%float)] (ex_profiles 3)
    = Ok (mkDataFrame 3 [("Solar", [100; 100; 100]%float); ("Total", [100; 100; 100]%float)])
  ∧ Renewables.calculate_generation ["Wind"; "Solar"] [("Solar", 3%float); ("Wind", 10%float)]
      ex_two_profiles
    = Ok (mkDataFrame 2 [("Solar", [0x1.3333333333334p-2; nan]%float);
                         ("Wind", [infinity; 20]%float);
                         ("Total", [infinity; 20]%float)]).
Proof.
  split_and!.
  - apply (calculate_generation_spec ["Total"] [("Total", 100%float)] (ex_profiles 3)).
    right. by left.
  - destruct (calculate_generation_spec ["Solar"] [("Solar", 100%float)] (ex_profiles 3))
      as [_ Hspec].
    destruct Hspec as (generation & total & Hgen & _); [done|compute_done|compute_done|done| |].
    + intros name Hin. apply list_elem_of_singleton in Hin as ->. by eexists.
    + rewrite Hgen. vm_compute in Hgen. by injection Hgen as <-.
  - destruct (calculate_generation_spec ["Wind"; "Solar"] [("Solar", 3%float); ("Wind", 10%float)]
                ex_two_profiles) as [_ Hspec].
    destruct Hspec as (generation & total & Hgen & _);
      [compute_done|compute_done|compute_done|done| |].
    + intros name Hin. repeat (apply elem_of_cons in Hin as [->|Hin]; [by eexists|]).
      by apply elem_of_nil in Hin.
    + rewrite Hgen. vm_compute in Hgen. by injection Hgen as <-.
Defined.

(** ** Names after sanitising *)

Lemma translate_app s1 s2 : translate (s1 +:+ s2) = translate s1 +:+ translate s2.
Proof. induction s1 as [|c s1 IH]; simpl; [done|]. by rewrite IH. Qed.

Lemma pretty_N_char_legal d : illegal_char (pretty_N_char d) = false.
Proof. unfold pretty_N_char. by repeat case_match. Qed.

Lemma translate_pretty_N_go (x : N) s :
  translate (pretty_N_go x s) = pretty_N_go x (translate s).
Proof.
  revert s. induction (N.lt_wf_0 x) as [x _ IH]; intros s.
  destruct (decide (x = 0)%N) as [->|Hx].
  - by rewrite !pretty_N_go_0.
  - rewrite (pretty_N_go_step x s), (pretty_N_go_step x (translate s)) by lia.
    rewrite IH by (apply N.div_lt; lia).
    simpl. by rewrite pretty_N_char_legal.
Qed.

Lemma translate_pretty_nonneg (t : Z) : (0 ≤ t)%Z → translate (pretty t) = pretty t.
Proof.
  destruct t as [|q|q]; [done| |lia]. intros _.
  unfold pretty, pretty_Z, pretty, pretty_positive, pretty, pretty_N.
  rewrite decide_False by done. by rewrite translate_pretty_N_go.
Qed.

Lemma string_snoc_inj s1 s2 c :
  s1 +:+ String c EmptyString = s2 +:+ String c EmptyString → s1 = s2.
Proof.
  revert s2. induction s1 as [|x s1 IH]; intros [|y s2]; simpl; try done.
  - intros [= _ H]. by destruct s2.
  - intros [= _ H]. by destruct s1.
  - intros [= -> H]. f_equal. by apply IH.
Qed.

(** The variables of a family at different time steps have different names. *)
Lemma var_name_inj family (t t' : Z) :
  (0 ≤ t)%Z → (0 ≤ t')%Z → var_name family t = var_name family t' → t = t'.
Proof.
  intros Ht Ht'. unfold var_name. rewrite !translate_app, !translate_pretty_nonneg by done.
  intros H%(inj (String.append _)). simpl in H. injection H as H. by apply (inj pretty).
Qed.

(** The constraints by kind and time step. *)
Inductive constraint_key :=
  | KDuration
  | KStart
  | KBalance (t : Z)
  | KAvailable (t : Z)
  | KCharge (t : Z)
  | KDischarge (t : Z)
  | KLevel (t : Z)
  | KLoad (t : Z).

Definition key_label (k : constraint_key) : string :=
  match k with
  | KDuration => ScenarioManager.label_duration
  | KStart => ScenarioManager.label_start
  | KBalance t => ScenarioManager.label_balance t
  | KAvailable t => ScenarioManager.label_available t
  | KCharge t => ScenarioManager.label_charge t
  | KDischarge t => ScenarioManager.label_discharge t
  | KLevel t => ScenarioManager.label_level t
  | KLoad t => ScenarioManager.label_load t
  end.

Definition key_time (k : constraint_key) : Z :=
  match k with
  | KDuration | KStart => 0
  | KBalance t | KAvailable t | KCharge t | KDischarge t | KLevel t | KLoad t => t
  end.

Lemma timed_label_translate prefix (t : Z) :
  (0 ≤ t)%Z →
  translate (prefix +:+ pretty t +:+ ")") = translate prefix +:+ pretty t +:+ ")".
Proof. intros Ht. by rewrite !translate_app, translate_pretty_nonneg by done. Qed.

Lemma timed_label_inj prefix (t t' : Z) :
  prefix +:+ pretty t +:+ ")" = prefix +:+ pretty t' +:+ ")" → t = t'.
Proof.
  intros H%(inj (String.append prefix)). apply string_snoc_inj in H. by apply (inj pretty).
Qed.

(** Constraints of different kinds or time steps have different names. *)
Lemma key_label_inj k k' :
  (0 ≤ key_time k)%Z → (0 ≤ key_time k')%Z →
  translate (key_label k) = translate (key_label k') → k = k'.
Proof.
  destruct k, k'; cbn [key_time key_label]; intros Ht Ht';
    unfold ScenarioManager.label_balance, ScenarioManager.label_available,
      ScenarioManager.label_charge, ScenarioManager.label_discharge,
      ScenarioManager.label_level, ScenarioManager.label_load;
    rewrite ?timed_label_translate by done;
    try reflexivity;
    try (intros H; vm_compute translate in H; by apply timed_label_inj in H as ->);
    try (intros H; vm_compute translate in H; cbn [String.append] in H; discriminate H).
Qed.

Lemma NoDup_flat_map {A B} (f : A → list B) (g : B → A) (l : list A) :
  (∀ x y, y ∈ f x → g y = x) → (∀ x, NoDup (f x)) → NoDup l → NoDup (flat_map f l).
Proof.
  intros Hg Hf. induction 1 as [|x l Hx Hl IH]; simpl; [constructor|].
  apply NoDup_app. split_and!; [done| |done].
  intros y Hy Hy'. apply list_elem_of_In, in_flat_map in Hy' as (x' & Hx' & Hy').
  apply list_elem_of_In in Hx', Hy'. apply Hg in Hy, Hy'. congruence.
Qed.

Definition forward_keys (t : Z) : list constraint_key := [KBalance t; KAvailable t].
Definition step_keys (t : Z) : list constraint_key :=
  [KCharge t; KDischarge t; KLevel t; KLoad t].
Definition keys_of (idx : list Z) : list constraint_key :=
  [KDuration; KStart] ++ flat_map forward_keys (removelast idx) ++ flat_map step_keys idx.

Lemma NoDup_removelast {A} (l : list A) : NoDup l → NoDup (removelast l).
Proof.
  intros Hl. destruct l as [|x l']; [done|].
  rewrite (app_removelast_last x (l:=x :: l')) in Hl by done.
  by apply NoDup_app in Hl as [? _].
Qed.

Lemma elem_of_flat_map {A B} (f : A → list B) (l : list A) y :
  y ∈ flat_map f l ↔ ∃ x, x ∈ l ∧ y ∈ f x.
Proof.
  rewrite list_elem_of_In, in_flat_map. setoid_rewrite list_elem_of_In. done.
Qed.

Lemma keys_of_NoDup idx : NoDup idx → NoDup (keys_of idx).
Proof.
  intros Hidx. unfold keys_of. apply NoDup_app. split_and!.
  - apply NoDup_cons. split; [|apply NoDup_singleton]. by intros [=]%list_elem_of_singleton.
  - intros k Hk Hk'. apply elem_of_app in Hk' as [Hk'|Hk'];
      apply elem_of_flat_map in Hk' as (t & _ & Hk');
      unfold forward_keys, step_keys in Hk';
      repeat (apply elem_of_cons in Hk' as [->|Hk']); try (by apply elem_of_nil in Hk');
      repeat (apply elem_of_cons in Hk as [Hk|Hk]); try discriminate Hk;
      by apply elem_of_nil in Hk.
  - apply NoDup_app. split_and!.
    + apply (NoDup_flat_map _ key_time); [| |by apply NoDup_removelast].
      * intros t k Hk. unfold forward_keys in Hk.
        repeat (apply elem_of_cons in Hk as [->|Hk]); try done. by apply elem_of_nil in Hk.
      * intros t. unfold forward_keys. apply NoDup_cons. split; [|apply NoDup_singleton].
        by intros [=]%list_elem_of_singleton.
    + intros k Hk Hk'.
      apply elem_of_flat_map in Hk as (t & _ & Hk).
      apply elem_of_flat_map in Hk' as (t' & _ & Hk').
      unfold forward_keys, step_keys in *.
      repeat (apply elem_of_cons in Hk as [->|Hk]); try (by apply elem_of_nil in Hk);
        repeat (apply elem_of_cons in Hk' as [Hk'|Hk']); try discriminate Hk';
        by apply elem_of_nil in Hk'.
    + apply (NoDup_flat_map _ key_time); [| |done].
      * intros t k Hk. unfold step_keys in Hk.
        repeat (apply elem_of_cons in Hk as [->|Hk]); try done. by apply elem_of_nil in Hk.
      * intros t. unfold step_keys.
        repeat (apply NoDup_cons; split;
                [intros Hin; repeat (apply elem_of_cons in Hin as [Hin|Hin]);
                 try discriminate Hin; by apply elem_of_nil in Hin|]).
        constructor.
Qed.

Lemma keys_of_time idx k : k ∈ keys_of idx → key_time k = 0%Z ∨ key_time k ∈ idx.
Proof.
  unfold keys_of. intros Hk. apply elem_of_app in Hk as [Hk|Hk].
  - repeat (apply elem_of_cons in Hk as [->|Hk]); auto. by apply elem_of_nil in Hk.
  - right. apply elem_of_app in Hk as [Hk|Hk];
      apply elem_of_flat_map in Hk as (t & Ht & Hk); unfold forward_keys, step_keys in Hk;
      repeat (apply elem_of_cons in Hk as [->|Hk]); try (by apply elem_of_nil in Hk);
      cbn [key_time]; try done.
    all: destruct (decide (idx = [])) as [->|Hne]; [by apply elem_of_nil in Ht|];
      rewrite (app_removelast_last 0%Z Hne); apply elem_of_app; by left.
Qed.

Lemma fmap_flat_map {A B C} (h : B → C) (f : A → list B) (l : list A) :
  h <$> flat_map f l = flat_map (λ x, h <$> f x) l.
Proof. induction l as [|x l IH]; [done|]. simpl. by rewrite fmap_app, IH. Qed.

Lemma constraints_of_names inputs :
  (constraints_of inputs).*1
  = (λ k, translate (key_label k)) <$> keys_of (ScenarioInputs.time_index inputs).
Proof.
  unfold constraints_of, keys_of. rewrite !fmap_app, !fmap_flat_map. reflexivity.
Qed.

Lemma constraints_of_NoDup inputs :
  NoDup (ScenarioInputs.time_index inputs) →
  Forall (λ t, (0 ≤ t)%Z) (ScenarioInputs.time_index inputs) →
  NoDup (constraints_of inputs).*1.
Proof.
  intros Hnd Hpos. rewrite constraints_of_names.
  apply NoDup_fmap_2_strong; [|by apply keys_of_NoDup].
  rewrite Forall_forall in Hpos.
  intros k k' Hk Hk'. apply key_label_inj.
  - destruct (keys_of_time _ _ Hk) as [->|?]; [done | by apply Hpos].
  - destruct (keys_of_time _ _ Hk') as [->|?]; [done | by apply Hpos].
Qed.

(** ** The constructor returns for a well-formed scenario *)

Section Returns.

Import ScenarioManager.

Context (inputs : ScenarioInputs.t).

Let idx := ScenarioInputs.time_index inputs.

Lemma iadd_constraint_run (b : M LpConstraint.t) label cs c :
  b (building inputs cs) = (Ok c, building inputs cs) →
  translate label ∉ cs.*1 →
  iadd_constraint b label (building inputs cs)
  = (Ok tt, building inputs (cs ++ [(translate label, c)])).
Proof.
  intros Hb Hfresh. unfold iadd_constraint, bind, get_lpmodel. cbn [lpmodel building].
  rewrite Hb. unfold lift, LpProblem.addConstraint. cbn [LpProblem.constraints].
  by rewrite bool_decide_eq_false_2.
Qed.

Ltac run_builder :=
  unfold bind, get_vars, get_inputs, lift, ret, dict_getitem;
  cbn [vars building ScenarioManager.inputs vars_of ModelVars.time ModelVars.scalar
       ModelVarsTimeDependent.level ModelVarsTimeDependent.charge
       ModelVarsTimeDependent.discharge];
  fold idx; rewrite ?dicts_lookup, ?decide_True by done.

Lemma duration_constraint_run cs :
  duration_constraint (building inputs cs) = (Ok (c_duration inputs), building inputs cs).
Proof. unfold duration_constraint. by run_builder. Qed.

Lemma balance_constraint_run t1 t cs :
  t1 ∈ idx → t ∈ idx →
  balance_constraint t1 t (building inputs cs) = (Ok (c_balance inputs t1 t), building inputs cs).
Proof. intros H1 H. unfold balance_constraint. by run_builder. Qed.

Lemma available_energy_constraint_run t cs :
  t ∈ idx →
  available_energy_constraint t (building inputs cs) = (Ok (c_available t), building inputs cs).
Proof. intros H. unfold available_energy_constraint. by run_builder. Qed.

Lemma charge_limit_constraint_run t cs :
  t ∈ idx →
  charge_limit_constraint t (building inputs cs) = (Ok (c_charge t), building inputs cs).
Proof. intros H. unfold charge_limit_constraint. by run_builder. Qed.

Lemma discharge_limit_constraint_run t cs :
  t ∈ idx →
  discharge_limit_constraint t (building inputs cs) = (Ok (c_discharge t), building inputs cs).
Proof. intros H. unfold discharge_limit_constraint. by run_builder. Qed.

Lemma level_limit_constraint_run t cs :
  t ∈ idx →
  level_limit_constraint t (building inputs cs) = (Ok (c_level t), building inputs cs).
Proof. intros H. unfold level_limit_constraint. by run_builder. Qed.

Lemma load_constraint_run t cs :
  t ∈ idx → (0 ≤ t)%Z →
  is_Some (total_of inputs !! Z.to_nat t) → is_Some (load_of inputs !! Z.to_nat t) →
  load_constraint t (building inputs cs) = (Ok (c_load inputs t), building inputs cs).
Proof.
  intros H Ht [g Hg] [ld Hld]. unfold load_constraint.
  assert (df_getitem (Renewables.generation (ScenarioInputs.renewables inputs)) "Total"
          = Ok (total_of inputs)) as Htot.
  { unfold df_getitem. unfold total_of in Hg |- *. by destruct (assoc_get _ _). }
  assert (series_getitem (total_of inputs) t = Ok g) as Hsg.
  { unfold series_getitem. destruct (Z.ltb_spec t 0); [lia|]. by rewrite Hg. }
  assert (series_getitem (Load.load (ScenarioInputs.load inputs)) t = Ok ld) as Hsl.
  { unfold series_getitem. fold (load_of inputs).
    destruct (Z.ltb_spec t 0); [lia|]. by rewrite Hld. }
  run_builder. rewrite Htot, Hsg. run_builder. rewrite Hsl.
  unfold c_load, series_at. by rewrite Hg, Hld.
Qed.

Lemma NoDup_fresh (cs rest : list (string * LpConstraint.t)) k c :
  NoDup (cs ++ (k, c) :: rest).*1 → k ∉ cs.*1.
Proof.
  rewrite fmap_app. cbn [fmap list_fmap fst]. intros (_ & Hd & _)%NoDup_app Hin.
  apply (Hd k Hin). by left.
Qed.

Lemma for_building_run {A} (xs : list A) (body : A → M unit)
    (f : A → list (string * LpConstraint.t)) :
  (∀ x cs, x ∈ xs → NoDup (cs ++ f x).*1 →
     body x (building inputs cs) = (Ok tt, building inputs (cs ++ f x))) →
  ∀ cs, NoDup (cs ++ flat_map f xs).*1 →
    for_ xs body (building inputs cs) = (Ok tt, building inputs (cs ++ flat_map f xs)).
Proof.
  induction xs as [|x xs IH]; intros Hbody cs Hnd; simpl.
  - by rewrite app_nil_r.
  - simpl in Hnd. rewrite app_assoc in Hnd. unfold bind.
    rewrite Hbody; [|by left|].
    + rewrite IH; [by rewrite <-app_assoc| |done].
      intros y cs' Hy. apply Hbody. by right.
    + rewrite fmap_app in Hnd. by apply NoDup_app in Hnd as [? _].
Qed.

Lemma NoDup_fresh_app (cs pre rest : list (string * LpConstraint.t)) k c :
  NoDup (cs ++ pre ++ (k, c) :: rest).*1 → k ∉ (cs ++ pre).*1.
Proof. rewrite app_assoc. apply NoDup_fresh. Qed.

Ltac fresh_by H :=
  rewrite <-?app_assoc; cbn [app];
  first [ eapply NoDup_fresh_app; exact H | eapply NoDup_fresh; exact H ].

Lemma forward_step_run t cs :
  (t + 1)%Z ∈ idx → t ∈ idx →
  NoDup (cs ++ forward_constraints inputs t).*1 →
  (iadd_constraint (balance_constraint (t + 1) t) (label_balance t) ;;;
   iadd_constraint (available_energy_constraint t) (label_available t))
    (building inputs cs)
  = (Ok tt, building inputs (cs ++ forward_constraints inputs t)).
Proof.
  intros Hnext Hin Hcs. unfold forward_constraints in *. unfold bind.
  rewrite (iadd_constraint_run _ _ _ _ (balance_constraint_run _ _ _ Hnext Hin))
    by fresh_by Hcs.
  rewrite (iadd_constraint_run _ _ _ _ (available_energy_constraint_run _ _ Hin))
    by fresh_by Hcs.
  by rewrite <-!app_assoc.
Qed.

Lemma each_step_run t cs :
  t ∈ idx → (0 ≤ t)%Z →
  is_Some (total_of inputs !! Z.to_nat t) → is_Some (load_of inputs !! Z.to_nat t) →
  NoDup (cs ++ step_constraints inputs t).*1 →
  (iadd_constraint (charge_limit_constraint t) (label_charge t) ;;;
   iadd_constraint (discharge_limit_constraint t) (label_discharge t) ;;;
   iadd_constraint (level_limit_constraint t) (label_level t) ;;;
   iadd_constraint (load_constraint t) (label_load t)) (building inputs cs)
  = (Ok tt, building inputs (cs ++ step_constraints inputs t)).
Proof.
  intros Ht Hpos Hg Hld Hcs. unfold step_constraints in *. unfold bind.
  rewrite (iadd_constraint_run _ _ _ _ (charge_limit_constraint_run _ _ Ht))
    by fresh_by Hcs.
  rewrite (iadd_constraint_run _ _ _ _ (discharge_limit_constraint_run _ _ Ht))
    by fresh_by Hcs.
  rewrite (iadd_constraint_run _ _ _ _ (level_limit_constraint_run _ _ Ht))
    by fresh_by Hcs.
  rewrite (iadd_constraint_run _ _ _ _ (load_constraint_run _ _ Ht Hpos Hg Hld))
    by fresh_by Hcs.
  by rewrite <-!app_assoc.
Qed.

Lemma define_constraints_run :
  built_facts inputs →
  define_constraints (building inputs [])
  = (Ok tt, building inputs (constraints_of inputs)).
Proof.
  intros [Hnd Hne H0 Hmax Hfw Hser]. fold idx in Hne, H0, Hmax, Hfw, Hser.
  rewrite Forall_forall in Hfw. rewrite Forall_forall in Hser.
  unfold constraints_of in Hnd. fold idx in Hnd.
  unfold define_constraints. unfold bind at 1.
  rewrite (iadd_constraint_run _ _ [] _ (duration_constraint_run [])); [|apply not_elem_of_nil].
  unfold bind at 1. cbn [get_inputs ScenarioManager.inputs building]. fold idx.
  unfold bind at 1. unfold lift at 1.
  assert (py_max idx = Ok (t_max_of inputs)) as ->.
  { unfold t_max_of. fold idx. by destruct idx. }
  unfold bind at 1.
  rewrite (iadd_constraint_run _ _ _ _ (balance_constraint_run _ _ _ H0 Hmax))
    by fresh_by Hnd.
  unfold bind at 1.
  rewrite (for_building_run _ _ (forward_constraints inputs)).
  - rewrite (for_building_run _ _ (step_constraints inputs)).
    + reflexivity.
    + intros t cs Ht Hcs. destruct (Hser _ Ht) as (? & ? & ?). by apply each_step_run.
    + exact Hnd.
  - intros t cs Ht Hcs. destruct (Hfw _ Ht) as [Hnext Hin]. by apply forward_step_run.
  - match goal with
    | |- NoDup ?l.*1 =>
        assert (NoDup (l ++ flat_map (step_constraints inputs) idx).*1) as Hnd'
          by exact Hnd
    end.
    rewrite fmap_app in Hnd'. by apply NoDup_app in Hnd' as [? _].
Qed.

Lemma init_run :
  built_facts inputs → init inputs = Ok (building inputs (constraints_of inputs)).
Proof. intros H. by rewrite init_unfold, (define_constraints_run H). Qed.

End Returns.

Lemma foldl_max_elem_of x l : foldl Z.max x l ∈ x :: l.
Proof.
  revert x. induction l as [|y l IH]; intros x; simpl; [by left|].
  pose proof (IH (Z.max x y)) as H. apply elem_of_cons in H as [Heq|Hin].
  - rewrite Heq. destruct (Z.max_spec x y) as [[_ ->]|[_ ->]].
    + right. by left.
    + by left.
  - right. by right.
Qed.

Lemma time_steps_elem_of N (t : Z) :
  t ∈ Z.of_nat <$> seq 0 N ↔ ∃ i, t = Z.of_nat i ∧ (i < N)%nat.
Proof.
  rewrite list_elem_of_fmap. split; intros (i & -> & Hi); exists i; split; try done.
  - apply elem_of_seq in Hi. lia.
  - apply elem_of_seq. lia.
Qed.

Lemma time_steps_removelast N :
  removelast (Z.of_nat <$> seq 0 N) = Z.of_nat <$> seq 0 (N - 1).
Proof.
  destruct N as [|n]; [done|]. rewrite seq_S, fmap_app. cbn [fmap list_fmap].
  rewrite removelast_last. f_equal. f_equal. lia.
Qed.

(** A scenario whose time index is [0, ..., N-1] with [N >= 1], and whose
    total generation and load cover these steps, satisfies what the
    constructor needs. *)
Lemma well_formed_built_facts inputs N total :
  (1 ≤ N)%nat →
  ScenarioInputs.time_index inputs = Z.of_nat <$> seq 0 N →
  df_getitem (Renewables.generation (ScenarioInputs.renewables inputs)) "Total" = Ok total →
  (N ≤ length total)%nat →
  (N ≤ length (Load.load (ScenarioInputs.load inputs)))%nat →
  built_facts inputs.
Proof.
  intros HN Hidx Htot Hlt Hll.
  assert (total_of inputs = total) as Htotal.
  { unfold total_of, df_getitem in *. destruct (assoc_get _ _); [|done]. by injection Htot. }
  split.
  - apply constraints_of_NoDup; rewrite Hidx.
    + apply NoDup_fmap; [apply _|]. apply NoDup_seq.
    + apply Forall_forall. intros t (i & -> & _)%time_steps_elem_of. lia.
  - rewrite Hidx. destruct N; [lia|]. done.
  - rewrite Hidx. apply time_steps_elem_of. exists 0%nat. split; [done | lia].
  - unfold t_max_of. destruct (ScenarioInputs.time_index inputs) as [|x l] eqn:Hl.
    + destruct N; [lia | done].
    + apply foldl_max_elem_of.
  - rewrite Hidx, time_steps_removelast. apply Forall_forall.
    intros t (i & -> & Hi)%time_steps_elem_of. split; apply time_steps_elem_of.
    + exists (S i). split; lia.
    + exists i. split; lia.
  - rewrite Hidx. apply Forall_forall. intros t (i & -> & Hi)%time_steps_elem_of.
    rewrite Nat2Z.id, Htotal. unfold load_of. split_and!; [lia| |];
      apply lookup_lt_is_Some; lia.
Qed.

(** The constructor returns a manager for every such scenario. *)
Theorem init_returns inputs N total :
  (1 ≤ N)%nat →
  ScenarioInputs.time_index inputs = Z.of_nat <$> seq 0 N →
  df_getitem (Renewables.generation (ScenarioInputs.renewables inputs)) "Total" = Ok total →
  (N ≤ length total)%nat →
  (N ≤ length (Load.load (ScenarioInputs.load inputs)))%nat →
  ∃ m p, ScenarioManager.init inputs = Ok m ∧ ScenarioManager.lpmodel m = Some p.
Proof.
  intros HN Hidx Htot Hlt Hll.
  pose proof (well_formed_built_facts _ _ _ HN Hidx Htot Hlt Hll) as Hfacts.
  eexists _, _. split; [by apply init_run | reflexivity].
Qed.


(** * Further properties of the code *)

(** ** Which scenarios the constructor accepts *)

Lemma NoDup_flat_map_inv {A B} (f : A → list B) (h : A → B) (l : list A) :
  (∀ x, h x ∈ f x) → NoDup (flat_map f l) → NoDup l.
Proof.
  intros Hh. induction l as [|x l IH]; simpl; [constructor|].
  intros (_ & Hdisj & Hl)%NoDup_app. apply NoDup_cons. split; [|by apply IH].
  intros Hx. apply (Hdisj (h x) (Hh x)). apply elem_of_flat_map. by exists x.
Qed.

Lemma constraints_of_NoDup_steps inputs :
  NoDup (constraints_of inputs).*1 → NoDup (ScenarioInputs.time_index inputs).
Proof.
  rewrite constraints_of_names. intros Hnd%NoDup_fmap_1. unfold keys_of in Hnd.
  apply NoDup_app in Hnd as (_ & _ & Hnd). apply NoDup_app in Hnd as (_ & _ & Hnd).
  apply (NoDup_flat_map_inv step_keys KCharge); [|done]. intros t. by left.
Qed.

Lemma removelast_not_last {A} (l : list A) d x :
  NoDup l → x ∈ removelast l → x ≠ List.last l d.
Proof.
  intros Hnd Hx Heq. destruct l as [|y l]; [by apply elem_of_nil in Hx|].
  rewrite (app_removelast_last d (l:=y :: l)) in Hnd by done.
  apply NoDup_app in Hnd as (_ & Hdisj & _). apply (Hdisj x Hx).
  rewrite Heq. by left.
Qed.

Lemma elem_of_removelast {A} (l : list A) d x :
  x ∈ l → x ≠ List.last l d → x ∈ removelast l.
Proof.
  intros Hx Hne. destruct l as [|y l]; [by apply elem_of_nil in Hx|].
  rewrite (app_removelast_last d (l:=y :: l)) in Hx by done.
  apply elem_of_app in Hx as [?|Hx]; [done|].
  by apply list_elem_of_singleton in Hx.
Qed.

(** The scenarios for which the constructor returns: the time index lists the
    steps [0 .. N-1], each once, with [N-1] last, and the total generation
    and the load have a value at each of them. *)
Definition accepted (inputs : ScenarioInputs.t) : Prop :=
  ∃ N total,
    (1 ≤ N)%nat
    ∧ ScenarioInputs.time_index inputs ≡ₚ Z.of_nat <$> seq 0 N
    ∧ List.last (ScenarioInputs.time_index inputs) 0%Z = Z.of_nat (N - 1)
    ∧ df_getitem (Renewables.generation (ScenarioInputs.renewables inputs)) "Total" = Ok total
    ∧ (N ≤ length total)%nat
    ∧ (N ≤ length (Load.load (ScenarioInputs.load inputs)))%nat.

Lemma accepted_built_facts inputs : accepted inputs → built_facts inputs.
Proof.
  intros (N & total & HN & Hperm & Hlast & Htot & Hlt & Hll).
  set (idx := ScenarioInputs.time_index inputs) in *.
  assert (total_of inputs = total) as Htotal.
  { unfold total_of, df_getitem in *. destruct (assoc_get _ _); [|done]. by injection Htot. }
  assert (∀ t, t ∈ idx ↔ ∃ i, t = Z.of_nat i ∧ (i < N)%nat) as Hin.
  { intros t. rewrite Hperm. apply time_steps_elem_of. }
  assert (NoDup idx) as Hnd.
  { rewrite Hperm. apply NoDup_fmap; [apply _|]. apply NoDup_seq. }
  assert (idx ≠ []) as Hne.
  { intros Heq. rewrite Heq in Hperm. symmetry in Hperm.
    apply Permutation_nil_r in Hperm. destruct N; [lia | done]. }
  split.
  - apply constraints_of_NoDup; [done|]. apply Forall_forall.
    intros t (i & -> & _)%Hin. lia.
  - done.
  - apply Hin. exists 0%nat. split; [done | lia].
  - unfold t_max_of. fold idx. destruct idx as [|x l]; [done|]. apply foldl_max_elem_of.
  - apply Forall_forall. intros t Ht.
    pose proof (removelast_not_last _ 0%Z _ Hnd Ht) as Hnl. rewrite Hlast in Hnl.
    assert (t ∈ idx) as (i & -> & Hi)%Hin.
    { rewrite (app_removelast_last 0%Z Hne). apply elem_of_app. by left. }
    split; apply Hin.
    + exists (S i). split; lia.
    + exists i. split; lia.
  - apply Forall_forall. intros t (i & -> & Hi)%Hin.
    rewrite Nat2Z.id, Htotal. unfold load_of. split_and!; [lia| |];
      apply lookup_lt_is_Some; lia.
Qed.

Lemma built_facts_accepted inputs : built_facts inputs → accepted inputs.
Proof.
  intros Hfacts. pose proof (init_run _ Hfacts) as Hinit.
  pose proof (t_max_is_last _ _ Hinit) as Hlast.
  destruct Hfacts as [Hnames Hne H0 Hmax Hfw Hser].
  set (idx := ScenarioInputs.time_index inputs) in *.
  rewrite Forall_forall in Hfw. rewrite Forall_forall in Hser.
  pose proof (constraints_of_NoDup_steps _ Hnames) as Hnd. fold idx in Hnd.
  set (M := t_max_of inputs) in *.
  assert (0 ≤ M)%Z as HM by (by destruct (Hser _ Hmax)).
  assert (∀ t, t ∈ idx → (t ≤ M)%Z) as Hle.
  { intros t Ht. unfold M, t_max_of. fold idx. revert Ht.
    destruct idx as [|x l]; [done|]. apply foldl_max_ge. }
  assert (∀ i, (i < Z.to_nat M + 1)%nat → Z.of_nat i ∈ idx) as Hall.
  { induction i as [|i IH]; intros Hi; [done|].
    replace (Z.of_nat (S i)) with (Z.of_nat i + 1)%Z by lia.
    apply (Hfw (Z.of_nat i)). apply (elem_of_removelast _ 0%Z); [apply IH; lia|].
    rewrite <-Hlast. lia. }
  exists (Z.to_nat M + 1)%nat, (total_of inputs). split_and!.
  - lia.
  - apply NoDup_Permutation; [done|apply NoDup_fmap; [apply _|apply NoDup_seq]|].
    intros t. rewrite time_steps_elem_of. split.
    + intros Ht. exists (Z.to_nat t). destruct (Hser _ Ht) as (? & _). specialize (Hle _ Ht).
      split; lia.
    + intros (i & -> & Hi). by apply Hall.
  - etrans; [symmetry; exact Hlast | lia].
  - destruct (Hser _ Hmax) as (_ & [g Hg] & _).
    unfold df_getitem. unfold total_of in Hg |- *. by destruct (assoc_get _ _).
  - destruct (Hser _ Hmax) as (_ & Hg%lookup_lt_is_Some & _). lia.
  - destruct (Hser _ Hmax) as (_ & _ & Hld%lookup_lt_is_Some). unfold load_of in Hld. lia.
Qed.




(** ** Errors of the constructor *)

(** X2: with an empty time index the constructor raises the [ValueError] of
    [max]; with a time index that is not empty and lacks step 0 it raises
    [KeyError] for the key 0. *)
Theorem constructor_rejects_time_index inputs :
  (ScenarioInputs.time_index inputs = [] →
   ScenarioManager.init inputs = Raise (ValueError "max() arg is an empty sequence"))
  ∧ (ScenarioInputs.time_index inputs ≠ [] →
     0%Z ∉ ScenarioInputs.time_index inputs →
     ScenarioManager.init inputs = Raise (KeyError "0")).
Proof.
  split.
  - intros Hidx. rewrite init_unfold. unfold ScenarioManager.define_constraints.
    unfold ScenarioManager.bind at 1.
    rewrite (iadd_constraint_run _ _ _ [] _ (duration_constraint_run _ []));
      [|apply not_elem_of_nil].
    unfold ScenarioManager.bind at 1.
    cbn [ScenarioManager.get_inputs ScenarioManager.inputs building].
    unfold ScenarioManager.bind at 1. unfold ScenarioManager.lift at 1.
    by rewrite Hidx.
  - intros Hne H0. rewrite init_unfold. unfold ScenarioManager.define_constraints.
    unfold ScenarioManager.bind at 1.
    rewrite (iadd_constraint_run _ _ _ [] _ (duration_constraint_run _ []));
      [|apply not_elem_of_nil].
    unfold ScenarioManager.bind at 1.
    cbn [ScenarioManager.get_inputs ScenarioManager.inputs building].
    unfold ScenarioManager.bind at 1. unfold ScenarioManager.lift at 1.
    destruct (ScenarioInputs.time_index inputs) as [|x l] eqn:Hidx; [done|].
    cbn [py_max]. unfold ScenarioManager.bind at 1.
    unfold ScenarioManager.iadd_constraint, ScenarioManager.bind at 1.
    cbn [ScenarioManager.get_lpmodel ScenarioManager.lpmodel building].
    unfold ScenarioManager.bind at 1.
    unfold ScenarioManager.balance_constraint, ScenarioManager.bind at 1.
    cbn [ScenarioManager.get_vars ScenarioManager.vars building].
    unfold ScenarioManager.bind at 1.
    cbn [ScenarioManager.get_inputs ScenarioManager.inputs].
    unfold ScenarioManager.bind at 1. unfold ScenarioManager.lift at 1.
    unfold dict_getitem at 1.
    cbn [vars_of ModelVars.time ModelVarsTimeDependent.level].
    rewrite dicts_lookup, Hidx. by rewrite decide_False by done.
Qed.

Lemma constructor_rejects_time_index_witness :
  ScenarioManager.init (ex_inputs 0) = Raise (ValueError "max() arg is an empty sequence")
  ∧ ScenarioManager.init
      (ScenarioInputs.mk "example" 0 [1; 2]%Z (ex_renewables 3)
         (Load.init 50%float (replicate 3 0.5%float)) ex_storage)
    = Raise (KeyError "0").
Proof.
  split.
  - by apply (constructor_rejects_time_index (ex_inputs 0)).
  - apply (constructor_rejects_time_index
             (ScenarioInputs.mk "example" 0 [1; 2]%Z (ex_renewables 3)
                (Load.init 50%float (replicate 3 0.5%float)) ex_storage)).
    + done.
    + compute_done.
Defined.

(** ** Building twice *)

(** X3: [define_constraints()] on a manager that is already built raises
    pulp's error for an overlapping constraint name, and leaves the manager
    as it was. *)
Theorem define_constraints_again_refused inputs m :
  ScenarioManager.init inputs = Ok m →
  ScenarioManager.define_constraints m
  = (Raise (PulpError ("overlapping constraint names: "
                       +:+ translate ScenarioManager.label_duration)), m).
Proof.
  intros [-> _]%init_ok. unfold ScenarioManager.define_constraints.
  unfold ScenarioManager.bind at 1.
  unfold ScenarioManager.iadd_constraint, ScenarioManager.bind at 1.
  cbn [ScenarioManager.get_lpmodel ScenarioManager.lpmodel building].
  unfold ScenarioManager.bind at 1. rewrite duration_constraint_run.
  unfold ScenarioManager.bind at 1, ScenarioManager.lift at 1, LpProblem.addConstraint.
  cbn [LpProblem.constraints]. rewrite bool_decide_eq_true_2; [done|].
  unfold constraints_of. cbn [app fmap list_fmap fst]. by left.
Qed.

Lemma define_constraints_again_refused_witness :
  ScenarioManager.define_constraints (ex_manager 3)
  = (Raise (PulpError "overlapping constraint names: duration_is_greater_than_input_minimum"),
     ex_manager 3).
Proof.
  exact (define_constraints_again_refused (ex_inputs 3) (ex_manager 3)
           (ex_manager_init 3 ltac:(vm_compute; reflexivity))).
Defined.

(** ** The variables of a built problem *)

Section Keys.

Import LpAffineExpression.

(** The variables of an expression, in the order of its dictionary. *)
Definition keys (e : LpAffineExpression.t) : list LpVariable.t := (terms e).*1.

Definition operand_keys (o : operand) : list LpVariable.t :=
  match o with
  | Var v => [v]
  | Expr e => keys e
  | Num _ => []
  end.

Lemma set_keys l key x : (set l key x).*1 = l.*1 ∨ (set l key x).*1 = l.*1 ++ [key].
Proof.
  induction l as [|[k y] l IH]; [by right|]. cbn [set].
  destruct (LpVariable.same k key); [by left|].
  cbn [fmap list_fmap fst] in *. destruct IH as [->| ->]; [by left | by right].
Qed.

Lemma addterm_keys e k x :
  keys (addterm e k x) = keys e ∨ keys (addterm e k x) = keys e ++ [k].
Proof. unfold keys, addterm. destruct (num_nonzero _); cbn [terms]; apply set_keys. Qed.

Lemma addterm_keys_in e k x v : v ∈ keys (addterm e k x) → v ∈ keys e ∨ v = k.
Proof.
  destruct (addterm_keys e k x) as [->| ->]; [by left|].
  intros [?|Hv%list_elem_of_singleton]%elem_of_app; [by left | by right].
Qed.

Lemma addterm_keys_keep e k x v : v ∈ keys e → v ∈ keys (addterm e k x).
Proof.
  destruct (addterm_keys e k x) as [->| ->]; [done|]. intros ?. apply elem_of_app. by left.
Qed.

Lemma foldl_addterm_keys_in (f : num → num) l e v :
  v ∈ keys (foldl (λ acc vx, addterm acc vx.1 (f vx.2)) e l) → v ∈ keys e ∨ v ∈ l.*1.
Proof.
  revert e. induction l as [|[k y] l IH]; intros e; cbn [foldl]; [by left|].
  intros [[?| ->]%addterm_keys_in|?]%IH; cbn [fmap list_fmap fst].
  - by left.
  - right. by left.
  - right. by right.
Qed.

Lemma foldl_addterm_keys_keep (f : num → num) l e v :
  v ∈ keys e → v ∈ keys (foldl (λ acc vx, addterm acc vx.1 (f vx.2)) e l).
Proof.
  revert e. induction l as [|[k y] l IH]; intros e; cbn [foldl]; [done|].
  intros ?. by apply IH, addterm_keys_keep.
Qed.

Lemma add_keys_in e o v : v ∈ keys (add e o) → v ∈ keys e ∨ v ∈ operand_keys o.
Proof.
  unfold add, addInPlace. destruct o as [w|e'|n]; cbn [operand_keys].
  - intros [?| ->]%addterm_keys_in; [by left | right; by left].
  - intros H. by apply (foldl_addterm_keys_in (λ x, x)) in H.
  - by left.
Qed.

Lemma sub_keys_in e o v : v ∈ keys (sub e o) → v ∈ keys e ∨ v ∈ operand_keys o.
Proof.
  unfold sub, subInPlace. destruct o as [w|e'|n]; cbn [operand_keys].
  - intros [?| ->]%addterm_keys_in; [by left | right; by left].
  - intros H. by apply (foldl_addterm_keys_in num_neg) in H.
  - by left.
Qed.

Lemma sub_keys_keep e o v : v ∈ keys e → v ∈ keys (sub e o).
Proof.
  unfold sub, subInPlace. destruct o as [w|e'|n]; [apply addterm_keys_keep| |done].
  intros H. by apply (foldl_addterm_keys_keep num_neg).
Qed.

Lemma mul_keys_in e x v : v ∈ keys (mul e x) → v ∈ keys e.
Proof.
  unfold mul, keys. destruct (num_nonzero x); cbn [terms emptyCopy].
  - rewrite <-list_fmap_compose. by intros (vx & -> & Hin%(list_elem_of_fmap_2 fst))%list_elem_of_fmap.
  - by intros ?%elem_of_nil.
Qed.

Lemma of_var_keys v : keys (of_var v) = [v].
Proof. done. Qed.

End Keys.

(** The variables the manager defines. *)
Definition families : list string := ["storagelevel"; "charge"; "discharge"].

Definition manager_var (inputs : ScenarioInputs.t) (v : LpVariable.t) : Prop :=
  v = var_capacity ∨ v = var_power
  ∨ ∃ family t, family ∈ families ∧ t ∈ ScenarioInputs.time_index inputs ∧ v = var_of family t.

Lemma manager_var_time inputs family t :
  family ∈ families → t ∈ ScenarioInputs.time_index inputs →
  manager_var inputs (var_of family t).
Proof. intros ??. right. right. by exists family, t. Qed.

Ltac keys_step :=
  match goal with
  | H : _ ∈ keys (LpAffineExpression.sub _ _) |- _ => apply sub_keys_in in H as [H|H]
  | H : _ ∈ keys (LpAffineExpression.add _ _) |- _ => apply add_keys_in in H as [H|H]
  | H : _ ∈ keys (LpAffineExpression.mul _ _) |- _ => apply mul_keys_in in H
  | H : _ ∈ keys (LpElement.sub _ _) |- _ => unfold LpElement.sub in H
  | H : _ ∈ keys (LpElement.add _ _) |- _ => unfold LpElement.add in H
  | H : _ ∈ keys (LpElement.radd _ _) |- _ => unfold LpElement.radd in H
  | H : _ ∈ keys (LpElement.mul _ _) |- _ => unfold LpElement.mul in H
  | H : _ ∈ keys (LpElement.rmul _ _) |- _ => unfold LpElement.rmul in H
  | H : _ ∈ keys (LpAffineExpression.of_var _) |- _ =>
      rewrite of_var_keys in H; apply list_elem_of_singleton in H as ->
  | H : _ ∈ operand_keys (LpAffineExpression.Var _) |- _ =>
      apply list_elem_of_singleton in H as ->
  | H : _ ∈ operand_keys (LpAffineExpression.Expr _) |- _ => cbn [operand_keys] in H
  | H : _ ∈ operand_keys (LpAffineExpression.Num _) |- _ => by apply elem_of_nil in H
  end.

Section BuiltKeys.

Context (inputs : ScenarioInputs.t).

Let idx := ScenarioInputs.time_index inputs.

Lemma objective_of_keys v : v ∈ keys (objective_of inputs) → manager_var inputs v.
Proof.
  unfold objective_of. intros H. repeat keys_step; [by left | right; by left].
Qed.

Lemma c_duration_keys v :
  v ∈ keys (LpConstraint.expr (c_duration inputs)) → manager_var inputs v.
Proof.
  unfold c_duration, LpElement.ge, LpAffineExpression_ge. cbn [LpConstraint.expr].
  intros H. repeat keys_step; [by left | right; by left].
Qed.

Lemma c_balance_keys t1 t v :
  t1 ∈ idx → t ∈ idx →
  v ∈ keys (LpConstraint.expr (c_balance inputs t1 t)) → manager_var inputs v.
Proof.
  intros Ht1 Ht. unfold c_balance, LpElement.eq, LpAffineExpression_eq. cbn [LpConstraint.expr].
  intros H. repeat keys_step; apply manager_var_time; try done; unfold families; set_solver.
Qed.

Lemma step_keys_manager_var t nc v :
  t ∈ idx → nc ∈ c_available t :: (step_constraints inputs t).*2 →
  v ∈ keys (LpConstraint.expr nc) → manager_var inputs v.
Proof.
  intros Ht Hnc. unfold step_constraints in Hnc. cbn [fmap list_fmap snd] in Hnc.
  assert (∀ family, family ∈ families → manager_var inputs (var_of family t)) as Hfam.
  { intros family ?. by apply manager_var_time. }
  assert (manager_var inputs var_capacity) as Hcap by by left.
  assert (manager_var inputs var_power) as Hpow by (right; by left).
  repeat (apply elem_of_cons in Hnc as [->|Hnc]); [..|by apply elem_of_nil in Hnc];
    unfold c_available, c_charge, c_discharge, c_level, c_load,
      LpElement.ge, LpElement.le, LpAffineExpression_ge, LpAffineExpression_le;
    cbn [LpConstraint.expr]; intros H; repeat keys_step; try done;
    apply Hfam; unfold families; set_solver.
Qed.

Lemma constraints_of_keys nc v :
  built_facts inputs → nc ∈ constraints_of inputs →
  v ∈ keys (LpConstraint.expr nc.2) → manager_var inputs v.
Proof.
  intros [_ _ H0 Hmax Hfw _] Hnc. rewrite Forall_forall in Hfw.
  unfold constraints_of in Hnc. rewrite !elem_of_app, !elem_of_flat_map in Hnc.
  destruct Hnc as [Hnc|[(t & Ht & Hnc)|(t & Ht & Hnc)]].
  - apply elem_of_cons in Hnc as [->|Hnc]; [apply c_duration_keys|].
    apply list_elem_of_singleton in Hnc as ->. by apply c_balance_keys.
  - destruct (Hfw _ Ht) as [Hnext Hin]. unfold forward_constraints in Hnc.
    apply elem_of_cons in Hnc as [->|Hnc]; [by apply c_balance_keys|].
    apply list_elem_of_singleton in Hnc as ->. apply (step_keys_manager_var t); [done|by left].
  - apply (step_keys_manager_var t); [done|]. right. by apply list_elem_of_fmap_2.
Qed.

End BuiltKeys.

Section Variables.

Import LpProblem.

Lemma existsb_same v seen :
  existsb (LpVariable.same v) seen = true
  ↔ ∃ w, w ∈ seen ∧ LpVariable.name w = LpVariable.name v.
Proof.
  rewrite existsb_exists. setoid_rewrite <-list_elem_of_In.
  unfold LpVariable.same. setoid_rewrite String.eqb_eq.
  split; intros (w & Hw & Heq); by exists w.
Qed.

Lemma add_new_in seen v w : w ∈ add_new seen v → w ∈ seen ∨ w = v.
Proof.
  unfold add_new. destruct (existsb _ _); [by left|].
  intros [?|?%list_elem_of_singleton]%elem_of_app; [by left | by right].
Qed.

Lemma add_new_keep seen v w : w ∈ seen → w ∈ add_new seen v.
Proof. unfold add_new. destruct (existsb _ _); [done|]. intros ?. apply elem_of_app. by left. Qed.

Lemma add_new_named seen v :
  ∃ w, w ∈ add_new seen v ∧ LpVariable.name w = LpVariable.name v.
Proof.
  unfold add_new. destruct (existsb _ _) eqn:Hex.
  - by apply existsb_same in Hex.
  - exists v. split; [|done]. apply elem_of_app. right. by left.
Qed.

Lemma add_new_NoDup seen v :
  NoDup (LpVariable.name <$> seen) → NoDup (LpVariable.name <$> add_new seen v).
Proof.
  intros Hnd. unfold add_new. destruct (existsb _ _) eqn:Hex; [done|].
  rewrite fmap_app. apply NoDup_app. split_and!; [done| |apply NoDup_singleton].
  intros x (w & -> & Hw)%list_elem_of_fmap Hx%list_elem_of_singleton.
  assert (existsb (LpVariable.same v) seen = true) as Heq; [|congruence].
  apply existsb_same. by exists w.
Qed.

Lemma foldl_add_new_in l seen w : w ∈ foldl add_new seen l → w ∈ seen ∨ w ∈ l.
Proof.
  revert seen. induction l as [|v l IH]; intros seen; cbn [foldl]; [by left|].
  intros [[?| ->]%add_new_in|?]%IH; [by left | right; by left | right; by right].
Qed.

Lemma foldl_add_new_keep l seen w : w ∈ seen → w ∈ foldl add_new seen l.
Proof.
  revert seen. induction l as [|v l IH]; intros seen; cbn [foldl]; [done|].
  intros ?. by apply IH, add_new_keep.
Qed.

Lemma foldl_add_new_named l seen v :
  v ∈ l → ∃ w, w ∈ foldl add_new seen l ∧ LpVariable.name w = LpVariable.name v.
Proof.
  revert seen. induction l as [|v' l IH]; intros seen; [by intros ?%elem_of_nil|].
  cbn [foldl]. intros [->|Hv]%elem_of_cons; [|by apply IH].
  destruct (add_new_named seen v') as (w & Hw & Hname).
  exists w. split; [by apply foldl_add_new_keep | done].
Qed.

Lemma foldl_add_new_NoDup l seen :
  NoDup (LpVariable.name <$> seen) → NoDup (LpVariable.name <$> foldl add_new seen l).
Proof.
  revert seen. induction l as [|v l IH]; intros seen; cbn [foldl]; [done|].
  intros ?. by apply IH, add_new_NoDup.
Qed.

Lemma variables_NoDup p : NoDup (LpVariable.name <$> variables p).
Proof. apply foldl_add_new_NoDup. constructor. Qed.

(** A variable of a registered constraint is, by name, a variable of the problem. *)
Lemma variables_named p nc v :
  nc ∈ constraints p → v ∈ keys (LpConstraint.expr nc.2) →
  ∃ w, w ∈ variables p ∧ LpVariable.name w = LpVariable.name v.
Proof.
  intros Hnc Hv. apply foldl_add_new_named. apply elem_of_app. right.
  apply elem_of_flat_map. by exists nc.
Qed.

End Variables.

Lemma manager_var_bounds inputs v :
  manager_var inputs v →
  LpVariable.lowBound v = Some (Fin 0) ∧ LpVariable.upBound v = None.
Proof. by intros [->|[->|(family & t & _ & _ & ->)]]. Qed.

Lemma manager_var_eq inputs v w :
  manager_var inputs v → manager_var inputs w →
  LpVariable.name v = LpVariable.name w → v = w.
Proof.
  intros [Hlv Huv]%manager_var_bounds [Hlw Huw]%manager_var_bounds Hname.
  destruct v, w; simpl in *. congruence.
Qed.

Lemma addterm_keys_named e k x :
  ∃ w, w ∈ keys (LpAffineExpression.addterm e k x) ∧ LpVariable.name w = LpVariable.name k.
Proof.
  assert (∀ l y, ∃ w, w ∈ (LpAffineExpression.set l k y).*1
                      ∧ LpVariable.name w = LpVariable.name k) as Hset.
  { intros l y. induction l as [|[k' y'] l IH]; cbn [LpAffineExpression.set].
    - exists k. split; [by left | done].
    - destruct (LpVariable.same k' k) eqn:Hsame.
      + exists k'. split; [by left | by apply same_name].
      + destruct IH as (w & Hw & Hname). exists w. split; [by right | done]. }
  unfold keys, LpAffineExpression.addterm.
  destruct (num_nonzero _); cbn [LpAffineExpression.terms]; apply Hset.
Qed.

Section BuiltVariables.

Context (inputs : ScenarioInputs.t) (m : ScenarioManager.t) (p : LpProblem.t).
Context (Hinit : ScenarioManager.init inputs = Ok m).
Context (Hp : ScenarioManager.lpmodel m = Some p).

Let idx := ScenarioInputs.time_index inputs.

Lemma built_variables_in v : v ∈ LpProblem.variables p → manager_var inputs v.
Proof.
  unfold LpProblem.variables.
  rewrite (built_objective _ _ _ Hinit Hp), (built_constraints _ _ _ Hinit Hp).
  intros [?%elem_of_nil|Hv]%foldl_add_new_in; [done|].
  apply elem_of_app in Hv as [Hv|Hv].
  - destruct (_ || _); [by apply objective_of_keys | by apply elem_of_nil in Hv].
  - apply elem_of_flat_map in Hv as (nc & Hnc & Hv).
    apply (constraints_of_keys inputs nc); [by eapply built|done..].
Qed.

Lemma built_variables_named nc v :
  nc ∈ constraints_of inputs → v ∈ keys (LpConstraint.expr nc.2) → manager_var inputs v →
  v ∈ LpProblem.variables p.
Proof.
  intros Hnc Hv Hman. rewrite <-(built_constraints _ _ _ Hinit Hp) in Hnc.
  destruct (variables_named p nc v Hnc Hv) as (w & Hw & Hname).
  by rewrite <-(manager_var_eq inputs w v (built_variables_in w Hw) Hman Hname).
Qed.

Lemma built_variables_time family t :
  family ∈ families → t ∈ idx → var_of family t ∈ LpProblem.variables p.
Proof.
  intros Hfam Ht.
  assert (∃ c, c ∈ (step_constraints inputs t).*2
               ∧ var_of family t ∈ keys (LpConstraint.expr c)) as (c & Hc & Hv).
  { unfold families in Hfam. unfold step_constraints. cbn [fmap list_fmap snd].
    repeat (apply elem_of_cons in Hfam as [->|Hfam]); [..|by apply elem_of_nil in Hfam].
    - exists (c_level t). split; [set_solver|]. apply sub_keys_keep. by left.
    - exists (c_charge t). split; [set_solver|]. apply sub_keys_keep. by left.
    - exists (c_discharge t). split; [set_solver|]. apply sub_keys_keep. by left. }
  apply list_elem_of_fmap in Hc as (nc & -> & Hnc).
  apply (built_variables_named nc); [|done|by apply manager_var_time].
  unfold constraints_of. rewrite !elem_of_app, !elem_of_flat_map. right. right. by exists t.
Qed.

Lemma built_variables_capacity : var_capacity ∈ LpProblem.variables p.
Proof.
  apply (built_variables_named (translate ScenarioManager.label_duration, c_duration inputs)).
  - unfold constraints_of. apply elem_of_app. left. by left.
  - apply sub_keys_keep. by left.
  - by left.
Qed.

Lemma built_variables_power : var_power ∈ LpProblem.variables p.
Proof.
  pose proof (built _ _ Hinit) as [_ _ H0 _ _ _].
  destruct (addterm_keys_named (LpAffineExpression.of_var (var_of "charge" 0)) var_power
              (Fin (-1))) as (w & Hw & Hname).
  assert ((translate (ScenarioManager.label_charge 0), c_charge 0) ∈ constraints_of inputs)
    as Hnc.
  { unfold constraints_of. rewrite !elem_of_app, !elem_of_flat_map. right. right.
    exists 0%Z. split; [done | by left]. }
  assert (manager_var inputs w) as Hman.
  { apply (constraints_of_keys inputs _ w (built _ _ Hinit) Hnc). exact Hw. }
  assert (w = var_power) as <-.
  { apply (manager_var_eq inputs); [done| |done]. right. by left. }
  by apply (built_variables_named _ w Hnc).
Qed.

Lemma built_variables v : v ∈ LpProblem.variables p ↔ manager_var inputs v.
Proof.
  split; [apply built_variables_in|].
  intros [->|[->|(family & t & Hfam & Ht & ->)]].
  - apply built_variables_capacity.
  - apply built_variables_power.
  - by apply built_variables_time.
Qed.

End BuiltVariables.

(** Variables of different families or time steps have different names. *)
Lemma var_of_inj family family' (t t' : Z) :
  family ∈ families → family' ∈ families → (0 ≤ t)%Z → (0 ≤ t')%Z →
  LpVariable.name (var_of family t) = LpVariable.name (var_of family' t') →
  family = family' ∧ t = t'.
Proof.
  intros Hf Hf' Ht Ht'. unfold families in Hf, Hf'.
  repeat (apply elem_of_cons in Hf as [->|Hf]); [..|by apply elem_of_nil in Hf];
    (repeat (apply elem_of_cons in Hf' as [->|Hf']); [..|by apply elem_of_nil in Hf']);
    try (intros H; split; [done|]; by apply (var_name_inj _ _ _ Ht Ht') in H);
    unfold var_of, LpVariable.new; cbn [LpVariable.name];
    rewrite !translate_app, !translate_pretty_nonneg by done;
    intros H; vm_compute translate in H; cbn [String.append] in H; discriminate H.
Qed.

Lemma var_of_not_scalar family (t : Z) :
  family ∈ families → (0 ≤ t)%Z →
  var_of family t ≠ var_capacity ∧ var_of family t ≠ var_power.
Proof.
  intros Hf Ht. unfold families in Hf.
  repeat (apply elem_of_cons in Hf as [->|Hf]); [..|by apply elem_of_nil in Hf];
    split; intros H; apply (f_equal LpVariable.name) in H;
    unfold var_of, var_capacity, var_power, LpVariable.new in H; cbn [LpVariable.name] in H;
    rewrite !translate_app, !translate_pretty_nonneg in H by done;
    vm_compute translate in H; cbn [String.append] in H; discriminate H.
Qed.

Lemma NoDup_flat_map_disjoint {A B} (f : A → list B) (l : list A) :
  (∀ x x' y, x ∈ l → x' ∈ l → y ∈ f x → y ∈ f x' → x = x') →
  (∀ x, x ∈ l → NoDup (f x)) → NoDup l → NoDup (flat_map f l).
Proof.
  intros Hdisj Hf Hl. induction Hl as [|x l Hx Hl IH]; simpl; [constructor|].
  apply NoDup_app. split_and!.
  - apply Hf. by left.
  - intros y Hy (x' & Hx' & Hy')%elem_of_flat_map.
    assert (x = x') as <-; [|done].
    apply (Hdisj x x' y); [by left | by right | done..].
  - apply IH.
    + intros x1 x2 y ??. apply Hdisj; by right.
    + intros x' ?. apply Hf. by right.
Qed.

(** The variables of the manager, scalars first and then step by step. *)
Definition step_variables (t : Z) : list LpVariable.t :=
  (λ family, var_of family t) <$> families.
Definition all_variables (inputs : ScenarioInputs.t) : list LpVariable.t :=
  var_capacity :: var_power :: flat_map step_variables (ScenarioInputs.time_index inputs).

Lemma elem_of_all_variables inputs v : v ∈ all_variables inputs ↔ manager_var inputs v.
Proof.
  unfold all_variables, manager_var. rewrite !elem_of_cons, elem_of_flat_map.
  unfold step_variables. setoid_rewrite list_elem_of_fmap.
  split.
  - intros [->|[->|(t & Ht & family & -> & Hf)]]; [by left | right; by left |].
    right. right. by exists family, t.
  - intros [->|[->|(family & t & Hf & Ht & ->)]]; [by left | right; by left |].
    right. right. exists t. split; [done|]. by exists family.
Qed.

Lemma all_variables_NoDup inputs :
  NoDup (ScenarioInputs.time_index inputs) →
  Forall (λ t, 0 ≤ t)%Z (ScenarioInputs.time_index inputs) →
  NoDup (all_variables inputs).
Proof.
  intros Hnd Hpos. rewrite Forall_forall in Hpos. unfold all_variables.
  assert (∀ v, v ∈ flat_map step_variables (ScenarioInputs.time_index inputs) →
               v ≠ var_capacity ∧ v ≠ var_power) as Hscalar.
  { intros v (t & Ht & (family & -> & Hf)%list_elem_of_fmap)%elem_of_flat_map.
    apply var_of_not_scalar; [done | by apply Hpos]. }
  apply NoDup_cons. split; [|apply NoDup_cons; split].
  - intros [[=]|Hin]%elem_of_cons. by destruct (Hscalar _ Hin).
  - intros Hin. by destruct (Hscalar _ Hin).
  - apply NoDup_flat_map_disjoint; [| |done].
    + intros t t' v Ht Ht' (f & -> & Hf)%list_elem_of_fmap (f' & Heq & Hf')%list_elem_of_fmap.
      apply (f_equal LpVariable.name) in Heq.
      apply var_of_inj in Heq as [_ ?]; auto.
    + intros t Ht. unfold step_variables. apply NoDup_fmap_2_strong.
      * intros f f' Hf Hf' Heq. apply (f_equal LpVariable.name) in Heq.
        apply var_of_inj in Heq as [? _]; auto.
      * unfold families. compute_done.
Qed.

Lemma all_variables_length inputs :
  length (all_variables inputs) = (2 + 3 * length (ScenarioInputs.time_index inputs))%nat.
Proof.
  unfold all_variables. cbn [length].
  assert (∀ l, length (flat_map step_variables l) = (3 * length l)%nat) as ->; [|lia].
  induction l as [|t l IH]; [done|].
  cbn [flat_map]. rewrite length_app, IH. cbn. lia.
Qed.

(** X4: [lpmodel.variables()] of a built manager lists, each once,
    [capacity], [power] and the level, charge and discharge variable of every
    time step, and nothing else: [2 + 3 * N] variables with different names,
    each with lower bound 0 and no upper bound. *)
Theorem problem_variables inputs m p :
  ScenarioManager.init inputs = Ok m →
  ScenarioManager.lpmodel m = Some p →
  LpProblem.variables p ≡ₚ all_variables inputs
  ∧ NoDup (LpVariable.name <$> LpProblem.variables p)
  ∧ length (LpProblem.variables p) = (2 + 3 * length (ScenarioInputs.time_index inputs))%nat
  ∧ ∀ v, v ∈ LpProblem.variables p →
         LpVariable.lowBound v = Some (Fin 0) ∧ LpVariable.upBound v = None.
Proof.
  intros Hinit Hp.
  assert (LpProblem.variables p ≡ₚ all_variables inputs) as Hperm.
  { pose proof (built _ _ Hinit) as Hfacts.
    apply NoDup_Permutation.
    - eapply NoDup_fmap_1, variables_NoDup.
    - destruct Hfacts as [Hnames _ _ _ _ Hser].
      apply all_variables_NoDup; [by apply constraints_of_NoDup_steps|].
      eapply Forall_impl; [exact Hser|]. by intros t [? _].
    - intros v. by rewrite (built_variables _ _ _ Hinit Hp), elem_of_all_variables. }
  split_and!.
  - done.
  - apply variables_NoDup.
  - by rewrite Hperm, all_variables_length.
  - intros v Hv%(built_variables_in _ _ _ Hinit Hp). by eapply manager_var_bounds.
Qed.

Lemma problem_variables_witness :
  LpVariable.name <$> LpProblem.variables (ex_problem 2)
  ≡ₚ ["capacity"; "power"; "storagelevel_0"; "charge_0"; "discharge_0";
      "storagelevel_1"; "charge_1"; "discharge_1"].
Proof.
  destruct (problem_variables (ex_inputs 2) (ex_manager 2) (ex_problem 2)
              (ex_manager_init 2 ltac:(vm_compute; reflexivity)) eq_refl) as (Hperm & _).
  rewrite Hperm. vm_compute. reflexivity.
Defined.

(** ** What the constraints imply for an operation *)

(** [a] satisfies every constraint of the problem. *)
Definition satisfies (a : string → Q) (p : LpProblem.t) : Prop :=
  ∀ nc, nc ∈ LpProblem.constraints p → LpConstraint.holds a nc.2.

(** [a] keeps the variable [v] within its bounds. *)
Definition within_bounds (a : string → Q) (v : LpVariable.t) : Prop :=
  from_option (λ l, num_le l (value_of_var a v)) True (LpVariable.lowBound v)
  ∧ from_option (λ u, num_le (value_of_var a v) u) True (LpVariable.upBound v).

(** [a] is a feasible point of the problem. *)
Definition feasible (a : string → Q) (p : LpProblem.t) : Prop :=
  satisfies a p ∧ ∀ v, v ∈ LpProblem.variables p → within_bounds a v.

Definition sumQ (f : Z → Q) (l : list Z) : Q := foldr (λ t acc, f t + acc)%Q 0%Q l.

(** The sum over the steps [idx] of the values of the variables [vs]. *)
Definition flow_total (a : string → Q) (vs : gmap Z LpVariable.t) (idx : list Z) : Q :=
  sumQ (λ t, from_option (λ v, a (LpVariable.name v)) 0%Q (vs !! t)) idx.


Lemma sumQ_app f l x : (sumQ f (l ++ [x]) == sumQ f l + f x)%Q.
Proof. induction l as [|y l IH]; simpl; [lra|]. rewrite IH. lra. Qed.

Lemma sumQ_perm f l l' : l ≡ₚ l' → (sumQ f l == sumQ f l')%Q.
Proof.
  induction 1 as [|x l l' _ IH|x y l|l1 l2 l3 _ IH1 _ IH2]; simpl.
  - lra.
  - rewrite IH. lra.
  - lra.
  - by rewrite IH1.
Qed.

Lemma sumQ_ext f g l : (∀ t, t ∈ l → (f t == g t)%Q) → (sumQ f l == sumQ g l)%Q.
Proof.
  induction l as [|x l IH]; intros Hfg; simpl; [lra|].
  rewrite IH, (Hfg x); [lra|by left|]. intros t ?. apply Hfg. by right.
Qed.


(** A chain of balances that closes on itself: what leaves equals what enters. *)
Lemma telescope (L D C : Z → Q) (e : Q) (N : nat) :
  (1 ≤ N)%nat →
  (∀ i, (S i < N)%nat →
        (L (Z.of_nat i + 1)%Z == L (Z.of_nat i) - D (Z.of_nat i) + e * C (Z.of_nat i))%Q) →
  (L 0%Z == L (Z.of_nat (N - 1)) - D (Z.of_nat (N - 1)) + e * C (Z.of_nat (N - 1)))%Q →
  (sumQ D (Z.of_nat <$> seq 0 N) == e * sumQ C (Z.of_nat <$> seq 0 N))%Q.
Proof.
  intros HN Hfw Hwrap.
  assert (∀ n, (n < N)%nat →
    (sumQ D (Z.of_nat <$> seq 0 n) - e * sumQ C (Z.of_nat <$> seq 0 n)
     == L 0%Z - L (Z.of_nat n))%Q) as Haux.
  { induction n as [|n IH]; intros Hn.
    { unfold sumQ. cbn [seq fmap list_fmap foldr]. change (Z.of_nat 0) with 0%Z. ring. }
    rewrite seq_S, fmap_app. cbn [fmap list_fmap Nat.add]. rewrite !sumQ_app.
    specialize (IH ltac:(lia)). specialize (Hfw n Hn).
    replace (Z.of_nat (S n)) with (Z.of_nat n + 1)%Z by lia. nra. }
  destruct N as [|n]; [lia|]. specialize (Haux n ltac:(lia)).
  replace (S n - 1)%nat with n in Hwrap by lia.
  rewrite seq_S, fmap_app. cbn [fmap list_fmap Nat.add]. rewrite !sumQ_app. nra.
Qed.

Section Operation.

Context (inputs : ScenarioInputs.t) (m : ScenarioManager.t) (p : LpProblem.t).
Context (Hinit : ScenarioManager.init inputs = Ok m).
Context (Hp : ScenarioManager.lpmodel m = Some p).
Context (a : string → Q).

Let idx := ScenarioInputs.time_index inputs.
Let sto := ScenarioInputs.storage inputs.

(** The constraints of the built problem, one kind at a time. *)
Lemma satisfies_built :
  satisfies a p ↔
  LpConstraint.holds a (c_duration inputs)
  ∧ LpConstraint.holds a (c_balance inputs 0 (List.last idx 0%Z))
  ∧ (∀ t, t ∈ removelast idx →
          LpConstraint.holds a (c_balance inputs (t + 1) t)
          ∧ LpConstraint.holds a (c_available t))
  ∧ (∀ t, t ∈ idx →
          LpConstraint.holds a (c_charge t) ∧ LpConstraint.holds a (c_discharge t)
          ∧ LpConstraint.holds a (c_level t) ∧ LpConstraint.holds a (c_load inputs t)).
Proof.
  unfold satisfies. rewrite (built_constraints _ _ _ Hinit Hp).
  pose proof (t_max_is_last _ _ Hinit) as Hlast. fold idx in Hlast. rewrite <-Hlast.
  unfold constraints_of. fold idx. split.
  - intros Hall.
    assert (∀ n c, (n, c) ∈ [(translate ScenarioManager.label_duration, c_duration inputs);
                             (translate ScenarioManager.label_start,
                              c_balance inputs 0 (t_max_of inputs))]
                           ++ flat_map (forward_constraints inputs) (removelast idx)
                           ++ flat_map (step_constraints inputs) idx →
                   LpConstraint.holds a c) as Hall'.
    { intros n c Hnc. apply (Hall (n, c) Hnc). }
    clear Hall. split_and!.
    + eapply Hall'. apply elem_of_app. left. by left.
    + eapply Hall'. apply elem_of_app. left. right. by left.
    + intros t Ht. split; eapply Hall'; rewrite !elem_of_app, !elem_of_flat_map;
        right; left; exists t; (split; [done|]); [by left | right; by left].
    + intros t Ht. split_and!; eapply Hall'; rewrite !elem_of_app, !elem_of_flat_map;
        right; right; exists t; (split; [done|]); unfold step_constraints;
        [by left | right; by left | do 2 right; by left | do 3 right; by left].
  - intros (Hdur & Hwrap & Hfw & Hstep) nc.
    rewrite !elem_of_app, !elem_of_flat_map.
    intros [Hnc|[(t & Ht & Hnc)|(t & Ht & Hnc)]].
    + apply elem_of_cons in Hnc as [->|Hnc]; [done|].
      by apply list_elem_of_singleton in Hnc as ->.
    + destruct (Hfw t Ht) as [??]. unfold forward_constraints in Hnc.
      apply elem_of_cons in Hnc as [->|Hnc]; [done|].
      by apply list_elem_of_singleton in Hnc as ->.
    + destruct (Hstep t Ht) as (? & ? & ? & ?). unfold step_constraints in Hnc.
      repeat (apply elem_of_cons in Hnc as [->|Hnc]; [done|]). by apply elem_of_nil in Hnc.
Qed.

(** Over the whole time index the discharge equals the efficiency times the charge. *)
Lemma balance_closes :
  satisfies a p →
  ∃ e, Storage.efficiency sto = Fin e
       ∧ (sumQ (λ t, a (var_name "discharge" t)) idx
          == e * sumQ (λ t, a (var_name "charge" t)) idx)%Q.
Proof.
  intros (_ & Hwrap & Hfw & _)%satisfies_built.
  destruct (built_facts_accepted _ (built _ _ Hinit)) as (N & total & HN & Hperm & Hlast & _).
  fold idx in Hperm, Hlast. rewrite Hlast in Hwrap.
  apply c_balance_holds in Hwrap.
  destruct (Storage.efficiency (ScenarioInputs.storage inputs)) as [|e] eqn:He;
    [by simpl in Hwrap|].
  exists e. split; [done|]. rewrite !(sumQ_perm _ _ _ Hperm).
  apply (telescope (λ t, a (var_name "storagelevel" t))); [done| |by simpl in Hwrap].
  intros i Hi.
  assert (Z.of_nat i ∈ removelast idx) as Hin.
  { apply (elem_of_removelast _ 0%Z).
    - rewrite Hperm. apply time_steps_elem_of. exists i. split; [done | lia].
    - rewrite Hlast. lia. }
  destruct (Hfw _ Hin) as [Hbal _]. apply c_balance_holds in Hbal.
  rewrite He in Hbal. by simpl in Hbal.
Qed.

Lemma flow_total_family family :
  family ∈ families →
  ∀ vs, vs = LpVariable.dicts family idx (Some (Fin 0)) →
  (flow_total a vs idx == sumQ (λ t, a (var_name family t)) idx)%Q.
Proof.
  intros _ vs ->. unfold flow_total. apply sumQ_ext. intros t Ht.
  rewrite dicts_lookup, decide_True by done. simpl. reflexivity.
Qed.


Lemma feasible_scalar_nonneg :
  feasible a p → (0 <= a "capacity")%Q ∧ (0 <= a "power")%Q.
Proof.
  intros [_ Hb]. split.
  - destruct (Hb _ (built_variables_capacity _ _ _ Hinit Hp)) as [Hlow _]. exact Hlow.
  - destruct (Hb _ (built_variables_power _ _ _ Hinit Hp)) as [Hlow _]. exact Hlow.
Qed.

End Operation.

(** Feasibility of a given point can be computed. *)
Definition holdsb (a : string → Q) (c : LpConstraint.t) : bool :=
  match LpAffineExpression.value a (LpConstraint.expr c) with
  | NaN => false
  | Fin q =>
      match LpConstraint.sense_of c with
      | LpConstraint.LpConstraintLE => Qle_bool q 0
      | LpConstraint.LpConstraintEQ => Qeq_bool q 0
      | LpConstraint.LpConstraintGE => Qle_bool 0 q
      end
  end.

Definition num_leb (x y : num) : bool :=
  match x, y with Fin q, Fin r => Qle_bool q r | _, _ => false end.

Definition within_boundsb (a : string → Q) (v : LpVariable.t) : bool :=
  from_option (λ l, num_leb l (value_of_var a v)) true (LpVariable.lowBound v)
  && from_option (λ u, num_leb (value_of_var a v) u) true (LpVariable.upBound v).

Definition feasibleb (a : string → Q) (p : LpProblem.t) : bool :=
  forallb (λ nc, holdsb a nc.2) (LpProblem.constraints p)
  && forallb (within_boundsb a) (LpProblem.variables p).

Lemma holdsb_holds a c : holdsb a c = true → LpConstraint.holds a c.
Proof.
  unfold holdsb, LpConstraint.holds. destruct (LpAffineExpression.value a _); [done|].
  destruct (LpConstraint.sense_of c); intros H;
    by (apply Qle_bool_iff in H || apply Qeq_bool_iff in H).
Qed.

Lemma num_leb_le x y : num_leb x y = true → num_le x y.
Proof. destruct x, y; simpl; try done. apply Qle_bool_iff. Qed.

Lemma within_boundsb_within a v : within_boundsb a v = true → within_bounds a v.
Proof.
  unfold within_boundsb, within_bounds. intros [Hl Hu]%andb_prop.
  destruct (LpVariable.lowBound v), (LpVariable.upBound v);
    cbn [from_option] in *; split; try done; by apply num_leb_le.
Qed.

Lemma feasibleb_feasible a p : feasibleb a p = true → feasible a p.
Proof.
  unfold feasibleb. intros [Hc Hv]%andb_prop. rewrite forallb_forall in Hc, Hv. split.
  - intros nc Hnc%list_elem_of_In. by apply holdsb_holds, Hc.
  - intros v Hv'%list_elem_of_In. by apply within_boundsb_within, Hv.
Defined.

(** An operation of the example of three steps: charge 10 at step 0,
    discharge 9 at step 1. *)
Definition ex_operation (name : string) : Q :=
  if String.eqb name "charge_0" then 10
  else if String.eqb name "discharge_1" then 9
  else if String.eqb name "storagelevel_1" then 9
  else if String.eqb name "power" then 10
  else if String.eqb name "capacity" then 20
  else 0.

Lemma objective_of_value inputs a :
  num_same (LpAffineExpression.value a (objective_of inputs))
    (num_add (num_mul (Fin (a "capacity")) (Storage.capex_capacity (ScenarioInputs.storage inputs)))
             (num_mul (Fin (a "power")) (Storage.capex_power (ScenarioInputs.storage inputs)))).
Proof.
  unfold objective_of. rewrite add_value.
  cbn [LpAffineExpression.value_operand]. by rewrite !var_mul_value.
Qed.

(** X5: in every assignment that satisfies the constraints of a built
    problem, the discharge summed over the time index equals the efficiency
    times the charge summed over the time index: the forward balances and
    the wrap-around balance close the storage level on itself. *)
Theorem energy_conserved inputs m p a :
  ScenarioManager.init inputs = Ok m →
  ScenarioManager.lpmodel m = Some p →
  satisfies a p →
  ∃ vars,
    ScenarioManager.vars m = Some vars
    ∧ num_eq
        (Fin (flow_total a (ModelVarsTimeDependent.discharge (ModelVars.time vars))
                (ScenarioInputs.time_index inputs)))
        (num_mul (Storage.efficiency (ScenarioInputs.storage inputs))
           (Fin (flow_total a (ModelVarsTimeDependent.charge (ModelVars.time vars))
                   (ScenarioInputs.time_index inputs)))).
Proof.
  intros Hinit Hp Hsat. exists (vars_of inputs). split; [by apply built_vars|].
  destruct (balance_closes _ _ _ Hinit Hp a Hsat) as (e & -> & Hsum).
  cbn [num_mul num_eq].
  rewrite (flow_total_family inputs a "discharge"), (flow_total_family inputs a "charge");
    [done|unfold families; set_solver|done|unfold families; set_solver|done].
Qed.

Lemma energy_conserved_witness :
  ∃ vars,
    ScenarioManager.vars (ex_manager 3) = Some vars
    ∧ num_eq
        (Fin (flow_total ex_operation (ModelVarsTimeDependent.discharge (ModelVars.time vars))
                [0; 1; 2]%Z))
        (num_mul (Fin (9 # 10))
           (Fin (flow_total ex_operation (ModelVarsTimeDependent.charge (ModelVars.time vars))
                   [0; 1; 2]%Z))).
Proof.
  exact (energy_conserved (ex_inputs 3) (ex_manager 3) (ex_problem 3) ex_operation
           (ex_manager_init 3 ltac:(vm_compute; reflexivity)) eq_refl
           (proj1 (feasibleb_feasible ex_operation (ex_problem 3) ltac:(vm_compute; reflexivity)))).
Defined.






(** X8: leaving the storage unused (every variable 0) is a feasible point of
    a built problem exactly when the efficiency and the minimum duration are
    numbers and the total generation covers the load at every time step. *)
Theorem no_storage_feasible_iff inputs m p :
  ScenarioManager.init inputs = Ok m →
  ScenarioManager.lpmodel m = Some p →
  feasible (λ _, 0%Q) p
  ↔ Storage.efficiency (ScenarioInputs.storage inputs) ≠ NaN
    ∧ Storage.minimum_duration (ScenarioInputs.storage inputs) ≠ NaN
    ∧ ∀ t, t ∈ ScenarioInputs.time_index inputs →
           num_ge (series_at (total_of inputs) t)
                  (series_at (Load.load (ScenarioInputs.load inputs)) t).
Proof.
  intros Hinit Hp. fold (load_of inputs). split.
  - intros [Hsat _]. apply (satisfies_built _ _ _ Hinit Hp) in Hsat as (Hdur & Hwrap & _ & Hstep).
    apply c_duration_holds in Hdur. apply c_balance_holds in Hwrap. split_and!.
    + intros Heq. rewrite Heq in Hwrap. by simpl in Hwrap.
    + intros Heq. rewrite Heq in Hdur. by simpl in Hdur.
    + intros t Ht. destruct (Hstep t Ht) as (_ & _ & _ & Hload). apply c_load_holds in Hload.
      destruct (series_at (total_of inputs) t), (series_at (load_of inputs) t);
        try done. unfold num_ge in *. simpl in *. lra.
  - intros (Heff & Hdur & Hcover). split.
    + apply (satisfies_built _ _ _ Hinit Hp). split_and!.
      * apply c_duration_holds.
        destruct (Storage.minimum_duration _); [done|]. unfold num_ge. simpl. lra.
      * apply c_balance_holds. destruct (Storage.efficiency _); [done|]. simpl. lra.
      * intros t _. split.
        -- apply c_balance_holds. destruct (Storage.efficiency _); [done|]. simpl. lra.
        -- apply c_available_holds. unfold num_ge. simpl. lra.
      * intros t Ht. split_and!.
        -- apply c_charge_holds. simpl. lra.
        -- apply c_discharge_holds. simpl. lra.
        -- apply c_level_holds. simpl. lra.
        -- apply c_load_holds. specialize (Hcover t Ht).
           destruct (series_at (total_of inputs) t), (series_at (load_of inputs) t);
             try done. unfold num_ge in *. simpl in *. lra.
    + intros v Hv%(built_variables_in _ _ _ Hinit Hp).
      destruct (manager_var_bounds _ _ Hv) as [Hl Hu].
      unfold within_bounds. rewrite Hl, Hu. simpl. split; [lra|done].
Qed.

(** A year of three steps in which the generation falls short at step 1. *)
Definition ex_short : ScenarioInputs.t :=
  ScenarioInputs.mk "example" 0 [0; 1; 2]%Z (ex_renewables 3)
    (Load.init 50%float [1; 3; 1]%float) ex_storage.

Lemma no_storage_feasible_iff_witness :
  feasible (λ _, 0%Q) (ex_problem 3)
  ∧ ¬ feasible (λ _, 0%Q)
        (LpProblem.mk "example" LpMinimize (Some (objective_of ex_short))
           (constraints_of ex_short) LpStatusNotSolved ∅).
Proof.
  split.
  - apply (no_storage_feasible_iff (ex_inputs 3) (ex_manager 3) (ex_problem 3)
             (ex_manager_init 3 ltac:(vm_compute; reflexivity)) eq_refl).
    split_and!; [done..|]. intros t Ht.
    repeat (apply elem_of_cons in Ht as [->|Ht]; [vm_compute; discriminate|]).
    by apply elem_of_nil in Ht.
  - intros Hfeas.
    assert (ScenarioManager.init ex_short
            = Ok (building ex_short (constraints_of ex_short))) as Hinit.
    { apply init_run, accepted_built_facts.
      exists 3%nat, (replicate 3 100%float). split_and!; try done; simpl; lia. }
    apply (no_storage_feasible_iff ex_short _ _ Hinit eq_refl) in Hfeas as (_ & _ & Hcover).
    specialize (Hcover 1%Z ltac:(compute_done)). vm_compute in Hcover. by apply Hcover.
Defined.

(** X9: with capital costs that are not negative, the objective of a built
    problem is not negative at any feasible point, and it is 0 when the
    storage is left unused: where that is feasible it is optimal. *)
Theorem cost_not_negative inputs m p a :
  ScenarioManager.init inputs = Ok m →
  ScenarioManager.lpmodel m = Some p →
  num_le (Fin 0) (Storage.capex_capacity (ScenarioInputs.storage inputs)) →
  num_le (Fin 0) (Storage.capex_power (ScenarioInputs.storage inputs)) →
  feasible a p →
  ∃ obj,
    LpProblem.objective p = Some obj
    ∧ num_le (Fin 0) (LpAffineExpression.value a obj)
    ∧ num_eq (LpAffineExpression.value (λ _, 0%Q) obj) (Fin 0).
Proof.
  intros Hinit Hp Hcap Hpow Hfeas. exists (objective_of inputs).
  split; [by eapply built_objective|].
  destruct (feasible_scalar_nonneg _ _ _ Hinit Hp a Hfeas) as [Hc Hw].
  rewrite !objective_of_value.
  destruct (Storage.capex_capacity _) as [|cc]; [done|].
  destruct (Storage.capex_power _) as [|cp]; [done|].
  simpl in *. split; nra.
Qed.

Lemma cost_not_negative_witness :
  ∃ obj,
    LpProblem.objective (ex_problem 3) = Some obj
    ∧ num_le (Fin 0) (LpAffineExpression.value ex_operation obj)
    ∧ num_eq (LpAffineExpression.value (λ _, 0%Q) obj) (Fin 0).
Proof.
  exact (cost_not_negative (ex_inputs 3) (ex_manager 3) (ex_problem 3) ex_operation
           (ex_manager_init 3 ltac:(vm_compute; reflexivity)) eq_refl
           ltac:(vm_compute; discriminate) ltac:(vm_compute; discriminate)
           (feasibleb_feasible ex_operation (ex_problem 3) ltac:(vm_compute; reflexivity))).
Defined.

(** ** The aggregator on profiles that lack a column or hold missing values *)

Definition generation_step (profiles : DataFrame) (generation : DataFrame)
    (nc : string * float) : Result DataFrame :=
  let '(name, capacity) := nc in
  rbind (df_getitem profiles name)
        (λ col, Ok (df_setitem generation name (series_mul col capacity))).

Lemma calculate_generation_unfold names capacities profiles :
  Renewables.calculate_generation names capacities profiles
  = rbind (assert_ (bool_decide (list_to_set names =@{gset string} list_to_set capacities.*1)))
      (λ _, rbind (assert_ (negb (bool_decide ("Total" ∈ names))))
      (λ _, rbind (for_each (generation_step profiles) capacities DataFrame_empty)
      (λ generation, Ok (df_setitem generation "Total" (df_sum_axis1 generation))))).
Proof. reflexivity. Qed.

Lemma generation_loop_missing profiles pre name capacity post generation :
  Forall (λ nc, is_Some (assoc_get (df_columns profiles) nc.1)) pre →
  assoc_get (df_columns profiles) name = None →
  for_each (generation_step profiles) (pre ++ (name, capacity) :: post) generation
  = Raise (KeyError name).
Proof.
  intros Hpre Hname. revert generation.
  induction Hpre as [|[k c] pre [col Hcol] _ IH]; intros generation; cbn [app for_each].
  - unfold generation_step at 1, df_getitem. by rewrite Hname.
  - unfold generation_step at 1, df_getitem. cbn [fst] in Hcol. rewrite Hcol. cbn [rbind].
    apply IH.
Qed.

Lemma generation_loop_ok profiles capacities generation generation' :
  for_each (generation_step profiles) capacities generation = Ok generation' →
  Forall (λ nc, is_Some (assoc_get (df_columns profiles) nc.1)) capacities.
Proof.
  revert generation. induction capacities as [|[k c] capacities IH]; intros generation;
    [by constructor|].
  cbn [for_each]. unfold generation_step at 1, df_getitem.
  destruct (assoc_get (df_columns profiles) k) as [col|] eqn:Hcol; [|done].
  cbn [rbind]. intros H%IH. constructor; [by exists col | done].
Qed.

(** X10: when both assertions of the aggregator pass and the profile table
    lacks the column of a technology, the aggregator raises [KeyError] for
    the first such technology, in the order of the capacities. *)
Theorem calculate_generation_missing_column names profiles pre name capacity post :
  list_to_set names =@{gset string} list_to_set (pre ++ (name, capacity) :: post).*1 →
  "Total" ∉ names →
  Forall (λ nc, is_Some (assoc_get (df_columns profiles) nc.1)) pre →
  assoc_get (df_columns profiles) name = None →
  Renewables.calculate_generation names (pre ++ (name, capacity) :: post) profiles
  = Raise (KeyError name).
Proof.
  intros Hset Htotal Hpre Hname. rewrite calculate_generation_unfold.
  rewrite bool_decide_eq_true_2 by done. cbn [assert_ rbind].
  rewrite bool_decide_eq_false_2 by done. cbn [negb assert_ rbind].
  by rewrite generation_loop_missing.
Qed.

Lemma calculate_generation_missing_column_witness :
  Renewables.calculate_generation ["Solar"; "Wind"] [("Solar", 100%float); ("Wind", 50%float)]
    (ex_profiles 3)
  = Raise (KeyError "Wind").
Proof.
  apply (calculate_generation_missing_column ["Solar"; "Wind"] (ex_profiles 3)
           [("Solar", 100%float)] "Wind" 50%float []).
  - compute_done.
  - compute_done.
  - repeat constructor. by exists (replicate 3 1%float).
  - reflexivity.
Defined.

Lemma assoc_get_set {V} (l : list (string * V)) k v : assoc_get (assoc_set l k v) k = Some v.
Proof.
  induction l as [|[k' v'] l IH]; simpl; [by rewrite String.eqb_refl|].
  destruct (String.eqb k' k) eqn:Hk; simpl; by rewrite Hk.
Qed.

Lemma total_column generation :
  let generation' := df_setitem generation "Total" (df_sum_axis1 generation) in
  df_getitem generation' "Total" = Ok (df_sum_axis1 generation)
  ∧ df_len generation' = df_len generation
  ∧ length (df_sum_axis1 generation) = df_len generation.
Proof.
  assert (length (df_sum_axis1 generation) = df_len generation) as Hlen.
  { unfold df_sum_axis1. by rewrite length_map, length_seq. }
  assert ((if (df_len generation =? 0)%nat then length (df_sum_axis1 generation)
           else df_len generation) = df_len generation) as Hn.
  { rewrite Hlen. by destruct (Nat.eqb_spec (df_len generation) 0). }
  cbn zeta. unfold df_setitem, df_getitem. cbn [df_columns df_len]. rewrite Hn.
  by rewrite assoc_get_set, reindex_id.
Qed.

(** X11: whatever the profiles hold, a table the aggregator returns has a
    [Total] column with one value for each row of the table. *)
Theorem total_column_exists names capacities profiles generation :
  Renewables.calculate_generation names capacities profiles = Ok generation →
  ∃ total, df_getitem generation "Total" = Ok total ∧ length total = df_len generation.
Proof.
  rewrite calculate_generation_unfold.
  destruct (assert_ (bool_decide _)); [|done]. cbn [rbind].
  destruct (assert_ (negb _)); [|done]. cbn [rbind].
  destruct (for_each _ _ _) as [g|]; [|done]. cbn [rbind]. intros [= <-].
  destruct (total_column g) as (Hget & Hlen & Hlen'). cbn zeta in *.
  exists (df_sum_axis1 g). split; [done | congruence].
Qed.

Lemma total_column_exists_witness :
  ∃ total,
    df_getitem (ex_generation 3) "Total" = Ok total
    ∧ length total = df_len (ex_generation 3).
Proof.
  apply (total_column_exists ["Solar"] [("Solar", 100%float)] (ex_profiles 3)).
  vm_compute. reflexivity.
Defined.

(** ** [verify_inputs] on inputs that are empty or hold missing values *)




Lemma series_rmul_missing capacity (profile : Series) :
  nan ∈ profile ∨ (capacity = nan ∧ profile ≠ []) → nan ∈ series_rmul capacity profile.
Proof.
  unfold series_rmul. change (map ?f ?l) with (f <$> l). rewrite list_elem_of_fmap.
  intros [Hin|[-> Hne]].
  - exists nan. split; [by rewrite mul_nan_r | done].
  - destruct profile as [|x profile]; [done|]. exists x.
    split; [by rewrite mul_nan_l | by left].
Qed.

Lemma series_mul_missing (profile : Series) capacity :
  nan ∈ profile ∨ (capacity = nan ∧ profile ≠ []) → nan ∈ series_mul profile capacity.
Proof.
  unfold series_mul. change (map ?f ?l) with (f <$> l). rewrite list_elem_of_fmap.
  intros [Hin|[-> Hne]].
  - exists nan. split; [by rewrite mul_nan_l | done].
  - destruct profile as [|x profile]; [done|]. exists x.
    split; [by rewrite mul_nan_r | by left].
Qed.

(** X13: a load made by [Load(capacity, profile)] has a missing value when
    the profile has one, or when the capacity is missing and the profile is
    not empty; [verify_inputs()] then fails on an assertion. *)
Theorem missing_load_is_caught self capacity profile total :
  let inputs := ScenarioManager.inputs self in
  ScenarioInputs.load inputs = Load.init capacity profile →
  df_getitem (Renewables.generation (ScenarioInputs.renewables inputs)) "Total" = Ok total →
  nan ∈ profile ∨ (capacity = nan ∧ profile ≠ []) →
  nan ∈ Load.load (ScenarioInputs.load inputs)
  ∧ outcome_of ScenarioManager.verify_inputs self = Raise AssertionError.
Proof.
  intros inputs Hload Htotal Hmiss.
  assert (nan ∈ Load.load (ScenarioInputs.load inputs)) as Hnan.
  { rewrite Hload. by apply series_rmul_missing. }
  split; [done|]. apply series_isna_sum_pos in Hnan.
  rewrite (verify_inputs_outcome self total Htotal).
  apply Nat.eqb_neq in Hnan. fold inputs. rewrite Hnan.
  by rewrite andb_false_r.
Qed.

(** The example with a load whose profile misses the value of step 1. *)
Definition ex_missing_load : ScenarioManager.t :=
  ScenarioManager.mk
    (ScenarioInputs.mk "example" 0 [0; 1; 2]%Z (ex_renewables 3)
       (Load.init 50%float [0.5; nan; 0.5]%float) ex_storage)
    "example" false None None.

Lemma missing_load_is_caught_witness :
  outcome_of ScenarioManager.verify_inputs ex_missing_load = Raise AssertionError.
Proof.
  apply (missing_load_is_caught ex_missing_load 50%float [0.5; nan; 0.5]%float
           (replicate 3 100%float) eq_refl eq_refl).
  left. right. by left.
Defined.

(** X14: when [Renewables(names, capacities, profiles)] returns, for a
    rectangular profile table and capacities with different keys, a missing
    value in the profile column of a technology, or a missing capacity
    beside a column that is not empty, is a missing value of the generation
    table, and [verify_inputs()] fails on an assertion. *)
Theorem missing_generation_is_caught self names capacities profiles name capacity col :
  let inputs := ScenarioManager.inputs self in
  Renewables.init names capacities profiles = Ok (ScenarioInputs.renewables inputs) →
  NoDup capacities.*1 →
  df_rect profiles = true →
  (name, capacity) ∈ capacities →
  df_getitem profiles name = Ok col →
  nan ∈ col ∨ (capacity = nan ∧ col ≠ []) →
  df_getitem (Renewables.generation (ScenarioInputs.renewables inputs)) name
  = Ok (series_mul col capacity)
  ∧ nan ∈ series_mul col capacity
  ∧ outcome_of ScenarioManager.verify_inputs self = Raise AssertionError.
Proof.
  intros inputs Hinit Hnd Hrect Hin Hcol Hmiss.
  unfold Renewables.init in Hinit.
  destruct (Renewables.calculate_generation names capacities profiles) as [g|] eqn:Hgen;
    [|done].
  cbn [rbind] in Hinit. injection Hinit as Hinit.
  assert (Renewables.generation (ScenarioInputs.renewables inputs) = g) as Hg
    by (by rewrite <-Hinit).
  pose proof Hgen as Hgen'. rewrite calculate_generation_unfold in Hgen'.
  destruct (bool_decide (list_to_set names =@{gset string} list_to_set capacities.*1))
    eqn:Hset; [|done].
  apply bool_decide_eq_true_1 in Hset. cbn [assert_ rbind] in Hgen'.
  destruct (bool_decide ("Total" ∈ names)) eqn:Htot; [done|].
  apply bool_decide_eq_false_1 in Htot. cbn [negb assert_ rbind] in Hgen'.
  destruct (for_each _ _ _) as [g0|] eqn:Hloop; [|done].
  cbn [rbind] in Hgen'. injection Hgen' as Hgen'.
  pose proof (generation_loop_ok _ _ _ _ Hloop) as Hcols.
  assert ("Total" ∉ capacities.*1) as Hfresh.
  { intros Hk. apply Htot. apply (elem_of_list_to_set (C:=gset string)).
    rewrite Hset. by apply elem_of_list_to_set. }
  assert (g0 = generation_after profiles capacities) as ->.
  { pose proof (generation_loop profiles Hrect [] capacities Hnd Hcols) as Hrun.
    change (for_each _ capacities (generation_after profiles []))
      with (for_each (generation_step profiles) capacities DataFrame_empty) in Hrun.
    rewrite Hloop in Hrun. by injection Hrun. }
  rewrite (generation_total_column profiles capacities Hrect Hfresh Hcols) in Hgen'.
  assert (assoc_get (df_columns profiles) name = Some col) as Hcol'.
  { unfold df_getitem in Hcol. destruct (assoc_get _ _); [by injection Hcol as ->|done]. }
  assert ((name, series_mul col capacity) ∈ df_columns g) as Hcolumn.
  { rewrite <-Hgen'. cbn [df_columns generation_after]. apply elem_of_app. left.
    apply list_elem_of_fmap. exists (name, capacity). split; [|done].
    unfold technology_column. cbn [fst snd]. by rewrite Hcol'. }
  assert (NoDup (df_columns g).*1) as Hnames.
  { rewrite <-Hgen'. cbn [df_columns generation_after]. rewrite fmap_app.
    rewrite <-list_fmap_compose.
    assert (fst ∘ technology_column profiles <$> capacities = capacities.*1) as ->
      by (by apply list_fmap_ext).
    apply NoDup_app. split_and!; [done| |apply NoDup_singleton].
    intros k Hk Hk'%list_elem_of_singleton. by subst k. }
  pose proof (series_mul_missing col capacity Hmiss) as Hnan.
  rewrite Hg. split_and!; [|done|].
  - unfold df_getitem. by rewrite (assoc_get_NoDup _ _ _ Hnames Hcolumn).
  - assert (∃ total, df_getitem g "Total" = Ok total) as [total Htotal].
    { rewrite <-Hgen'. destruct (total_column (generation_after profiles capacities))
        as (Hget & _). cbn zeta in Hget.
      rewrite (generation_total_column profiles capacities Hrect Hfresh Hcols) in Hget.
      by eexists. }
    rewrite <-Hg in Htotal. rewrite (verify_inputs_outcome self total Htotal).
    fold inputs. rewrite Hg.
    assert (df_isna_sum_sum g ≠ 0%nat) as Hpos%Nat.eqb_neq.
    { apply df_isna_sum_sum_pos. by exists (name, series_mul col capacity). }
    rewrite Hpos. by rewrite andb_false_r.
Qed.

(** The example with a profile that misses the value of step 1. *)
Definition ex_missing_profiles : DataFrame :=
  mkDataFrame 3 [("Solar", [1; nan; 1]%float)].
Definition ex_missing_generation : ScenarioManager.t :=
  ScenarioManager.mk
    (ScenarioInputs.mk "example" 0 [0; 1; 2]%Z
       (Renewables.mk ["Solar"] [("Solar", 100%float)] ex_missing_profiles
          (mkDataFrame 3 [("Solar", [100; nan; 100]%float);
                          ("Total", [100; 0; 100]%float)]))
       (Load.init 50%float (replicate 3 0.5%float)) ex_storage)
    "example" false None None.

Lemma missing_generation_is_caught_witness :
  outcome_of ScenarioManager.verify_inputs ex_missing_generation = Raise AssertionError.
Proof.
  apply (missing_generation_is_caught ex_missing_generation ["Solar"] [("Solar", 100%float)]
           ex_missing_profiles "Solar" 100%float [1; nan; 1]%float).
  - vm_compute. reflexivity.
  - compute_done.
  - reflexivity.
  - by left.
  - reflexivity.
  - left. right. by left.
Defined.

(** ** Reading the design results *)

Lemma design_results_fold (p : LpProblem.t) (l : list LpVariable.t)
    (acc : gmap string (option num)) (k : string) :
  foldl (λ results var,
           if bool_decide (LpVariable.name var ∈ ["capacity"; "power"])
           then <[LpVariable.name var := LpProblem.value_of p var]> results
           else results) acc l !! k
  = if bool_decide (k ∈ ["capacity"; "power"]) && bool_decide (k ∈ LpVariable.name <$> l)
    then Some (LpProblem.varValue p !! k) else acc !! k.
Proof.
  revert acc. induction l as [|v l IH]; intros acc; cbn [foldl].
  - cbn [fmap list_fmap].
    rewrite (bool_decide_eq_false_2 (k ∈ [])) by apply not_elem_of_nil.
    by rewrite andb_false_r.
  - rewrite IH. cbn [fmap list_fmap].
    assert (LpVariable.name v ≠ k →
            (if bool_decide (LpVariable.name v ∈ ["capacity"; "power"])
             then <[LpVariable.name v := LpProblem.value_of p v]> acc else acc) !! k
            = acc !! k) as Hother.
    { intros Hne. destruct (bool_decide (LpVariable.name v ∈ ["capacity"; "power"]));
        [by rewrite lookup_insert_ne | done]. }
    destruct (decide (k ∈ ["capacity"; "power"])) as [Hk|Hk].
    + rewrite (bool_decide_eq_true_2 _ Hk). cbn [andb].
      destruct (decide (k ∈ LpVariable.name <$> l)) as [Hin|Hnin].
      * rewrite (bool_decide_eq_true_2 _ Hin).
        by rewrite (bool_decide_eq_true_2 (k ∈ LpVariable.name v :: (LpVariable.name <$> l)))
          by by right.
      * rewrite (bool_decide_eq_false_2 _ Hnin).
        destruct (decide (LpVariable.name v = k)) as [<-|Hne].
        -- rewrite (bool_decide_eq_true_2 _ Hk). cbv beta iota. rewrite lookup_insert_eq.
           by rewrite (bool_decide_eq_true_2
                         (LpVariable.name v ∈ LpVariable.name v :: (LpVariable.name <$> l)))
             by by left.
        -- rewrite (bool_decide_eq_false_2 (k ∈ LpVariable.name v :: (LpVariable.name <$> l)))
             by (by intros [?|?]%elem_of_cons).
           by apply Hother.
    + rewrite (bool_decide_eq_false_2 _ Hk). cbn [andb].
      destruct (decide (LpVariable.name v = k)) as [Heq|Hne]; [|by apply Hother].
      rewrite Heq. by rewrite (bool_decide_eq_false_2 _ Hk).
Qed.

Lemma design_results_read self p :
  ScenarioManager.lpmodel self = Some p →
  ScenarioManager.solved_status self = true →
  "capacity" ∈ LpVariable.name <$> LpProblem.variables p →
  "power" ∈ LpVariable.name <$> LpProblem.variables p →
  results_analysis.get_design_results self
  = Ok (<["capacity" := LpProblem.varValue p !! "capacity"]>
          {["power" := LpProblem.varValue p !! "power"]}).
Proof.
  intros Hp Hflag Hcap Hpow.
  unfold results_analysis.get_design_results, results_analysis.get_lpmodel.
  rewrite Hflag, Hp. cbn [assert_ rbind]. f_equal. apply map_eq. intros k.
  rewrite design_results_fold, lookup_empty.
  destruct (decide (k = "capacity")) as [->|Hc].
  - rewrite lookup_insert_eq. rewrite !bool_decide_eq_true_2; [done|done|by left].
  - rewrite lookup_insert_ne by done. destruct (decide (k = "power")) as [->|Hw].
    + rewrite lookup_singleton_eq. rewrite !bool_decide_eq_true_2; [done|done|right; by left].
    + rewrite lookup_singleton_ne by done. rewrite bool_decide_eq_false_2; [done|].
      intros [?|[?|?%elem_of_nil]%elem_of_cons]%elem_of_cons; done.
Qed.

Lemma solved_variables p st vals :
  LpProblem.variables
    (LpProblem.mk (LpProblem.name p) (LpProblem.sense p) (LpProblem.objective p)
       (LpProblem.constraints p) st vals)
  = LpProblem.variables p.
Proof. reflexivity. Qed.

Lemma built_scalar_names inputs m p :
  ScenarioManager.init inputs = Ok m →
  ScenarioManager.lpmodel m = Some p →
  "capacity" ∈ LpVariable.name <$> LpProblem.variables p
  ∧ "power" ∈ LpVariable.name <$> LpProblem.variables p.
Proof.
  intros Hinit Hp. split.
  - apply list_elem_of_fmap. exists var_capacity.
    split; [done | by eapply built_variables_capacity].
  - apply list_elem_of_fmap. exists var_power.
    split; [done | by eapply built_variables_power].
Qed.

(** X16: after a solve that reported the optimal status on a built manager,
    the design results are exactly the entries [capacity] and [power], each
    with the value the solver left in the variable. *)
Theorem design_results_after_solve inputs m values :
  ScenarioManager.init inputs = Ok m →
  results_analysis.get_design_results
    (state_after (ScenarioManager.solve (Reports LpStatusOptimal values)) m)
  = Ok (<["capacity" := values !! "capacity"]> {["power" := values !! "power"]}).
Proof.
  intros Hinit. destruct (init_lpmodel _ _ Hinit) as (p & Hp & _).
  destruct (built_scalar_names _ _ _ Hinit Hp) as [Hcap Hpow].
  unfold state_after. rewrite (solve_run _ _ _ Hp). cbn [snd].
  apply (design_results_read _
           (LpProblem.mk (LpProblem.name p) (LpProblem.sense p) (LpProblem.objective p)
              (LpProblem.constraints p) LpStatusOptimal values));
    [reflexivity | reflexivity | exact Hcap | exact Hpow].
Qed.

Lemma design_results_after_solve_witness :
  results_analysis.get_design_results
    (state_after
       (ScenarioManager.solve
          (Reports LpStatusOptimal (list_to_map [("capacity", Fin 20); ("power", Fin 10)])))
       (ex_manager 3))
  = Ok (<["capacity" := Some (Fin 20)]> {["power" := Some (Fin 10)]}).
Proof.
  exact (design_results_after_solve (ex_inputs 3) (ex_manager 3)
           (list_to_map [("capacity", Fin 20); ("power", Fin 10)])
           (ex_manager_init 3 ltac:(vm_compute; reflexivity))).
Defined.

(** X17: the solved flag is never lowered, so after an optimal solve and
    then a solve that reported another status, [verify_solve()] raises but
    the design results are still returned, with the values of the solve
    that did not succeed. *)
Theorem design_results_stale inputs m values status' values' :
  ScenarioManager.init inputs = Ok m →
  status' ≠ LpStatusOptimal →
  let m' := state_after (ScenarioManager.solve (Reports status' values'))
              (state_after (ScenarioManager.solve (Reports LpStatusOptimal values)) m) in
  outcome_of ScenarioManager.verify_solve m' = Raise (Exception "Model has not solved")
  ∧ results_analysis.get_design_results m'
    = Ok (<["capacity" := values' !! "capacity"]> {["power" := values' !! "power"]}).
Proof.
  intros Hinit Hst. destruct (init_lpmodel _ _ Hinit) as (p & Hp & _).
  destruct (built_scalar_names _ _ _ Hinit Hp) as [Hcap Hpow].
  set (p1 := LpProblem.mk (LpProblem.name p) (LpProblem.sense p) (LpProblem.objective p)
               (LpProblem.constraints p) LpStatusOptimal values).
  set (p2 := LpProblem.mk (LpProblem.name p) (LpProblem.sense p) (LpProblem.objective p)
               (LpProblem.constraints p) status' values').
  set (m1 := ScenarioManager.mk (ScenarioManager.inputs m) (ScenarioManager.name m) true
               (ScenarioManager.vars m) (Some p1)).
  set (m2 := ScenarioManager.mk (ScenarioManager.inputs m) (ScenarioManager.name m) true
               (ScenarioManager.vars m) (Some p2)).
  assert (state_after (ScenarioManager.solve (Reports LpStatusOptimal values)) m = m1) as ->.
  { unfold state_after. by rewrite (solve_run _ _ _ Hp). }
  assert (state_after (ScenarioManager.solve (Reports status' values')) m1 = m2) as ->.
  { unfold state_after. rewrite (solve_run (Reports status' values') m1 p1 eq_refl).
    cbn [snd]. unfold m2. cbn [ScenarioManager.solved_status m1]. by destruct (status' =? 1)%Z. }
  cbn zeta. split.
  - unfold outcome_of. rewrite (verify_solve_run m2 p2 eq_refl). cbn [fst p2 LpProblem.status].
    by destruct (Z.eqb_spec status' 1).
  - by apply (design_results_read m2 p2).
Qed.

Lemma design_results_stale_witness :
  let m' := state_after (ScenarioManager.solve (Reports LpStatusInfeasible ∅))
              (state_after (ScenarioManager.solve
                              (Reports LpStatusOptimal
                                 (list_to_map [("capacity", Fin 20); ("power", Fin 10)])))
                 (ex_manager 3)) in
  outcome_of ScenarioManager.verify_solve m' = Raise (Exception "Model has not solved")
  ∧ results_analysis.get_design_results m'
    = Ok (<["capacity" := None]> {["power" := None]}).
Proof.
  exact (design_results_stale (ex_inputs 3) (ex_manager 3)
           (list_to_map [("capacity", Fin 20); ("power", Fin 10)]) LpStatusInfeasible ∅
           (ex_manager_init 3 ltac:(vm_compute; reflexivity)) ltac:(done)).
Defined.
